(** * CareerMatch: the workflow controller and its structured-output pipeline

    A shallow embedding of the React component [App] (the file the README
    calls [src/App.jsx]: the helpers [parseJSON] and [ask], and the handlers
    [readFile], [analyze], [findJobs], [getLetter], [getTips] with the
    controls that trigger them) and the properties of the specification that
    can be stated over it.

    JavaScript strings are sequences of UTF-16 code units; they are modelled
    as [list N].  React state is a record; every [async] handler is split at
    its single [await]: the part before it runs when the user acts, the part
    after it runs when the completion service (or the file reader) answers.
    The proxy in [api/claude.js] and the network are the completion service:
    they appear only as the answer, a text or an error, that [ask] gives. *)

From Stdlib Require Import ZArith NArith QArith Qpower Qround Ascii String Lia.
From stdpp Require Import gmap list.

Set Default Proof Using "Type".
Set Warnings "-register-all,-abstract-large-number".

(** ** JavaScript strings *)

Module JsString.

Local Open Scope N_scope.

(** An ASCII literal as a JavaScript string. *)
Definition lit (s : string) : list N := List.map N_of_ascii (list_ascii_of_string s).

(** ECMAScript [WhiteSpace] and [LineTerminator]: what [\s] matches and what
    [String.prototype.trim] removes. *)
Definition is_space (c : N) : bool :=
  ((9 <=? c) && (c <=? 13)) || (c =? 32) || (c =? 160) || (c =? 5760)
  || ((8192 <=? c) && (c <=? 8202)) || (c =? 8232) || (c =? 8233)
  || (c =? 8239) || (c =? 8287) || (c =? 12288) || (c =? 65279).

Fixpoint trimStart (s : list N) : list N :=
  match s with
  | c :: r => if is_space c then trimStart r else s
  | [] => []
  end.

Definition trimEnd (s : list N) : list N := rev (trimStart (rev s)).

(** [s.trim()] *)
Definition trim (s : list N) : list N := trimEnd (trimStart s).

(** [s.slice(0, n)] *)
Definition slice0 (n : nat) (s : list N) : list N := take n s.

(** JSON text written with ['] where the text has the double quote. *)
Definition jlit (s : string) : list N :=
  List.map (fun c => if c =? 39 then 34 else c) (lit s).

(** [!!s]: true exactly for the non-empty string. *)
Definition truthy (s : list N) : bool :=
  match s with [] => false | _ => true end.

(** [s.startsWith(p)], returning what follows the prefix. *)
Fixpoint strip_prefix (p s : list N) : option (list N) :=
  match p, s with
  | [], _ => Some s
  | a :: p', b :: s' => if a =? b then strip_prefix p' s' else None
  | _ :: _, [] => None
  end.

End JsString.

(** ** The text sanitizer of [analyze] *)

Module Sanitizer.
Import JsString.
Local Open Scope N_scope.

(** The character class [[\x20-\x7E\n\r\t]]. *)
Definition safe (c : N) : bool :=
  ((32 <=? c) && (c <=? 126)) || (c =? 10) || (c =? 13) || (c =? 9).

(** [.replace(/[^\x20-\x7E\n\r\t]/g, " ")] *)
Definition strip_unsafe (s : list N) : list N :=
  List.map (fun c => if safe c then c else 32) s.

(** Length of the run of whitespace at the head of [s]: what the greedy
    [\s{4,}] consumes when it matches there. *)
Fixpoint ws_run (s : list N) : nat :=
  match s with
  | c :: r => if is_space c then S (ws_run r) else 0
  | [] => 0
  end.

(** [.replace(/\s{4,}/g, "   ")]: at each index from the left the pattern is
    tried; where it matches, the whole run is replaced by three spaces and
    the scan goes on behind it, elsewhere the character is kept. *)
Fixpoint collapse_runs (fuel : nat) (s : list N) : list N :=
  match fuel with
  | O => s
  | S f =>
      match s with
      | [] => []
      | c :: r =>
          if (4 <=? ws_run s)%nat
          then 32 :: 32 :: 32 :: collapse_runs f (drop (ws_run s) s)
          else c :: collapse_runs f r
      end
  end.

Definition collapse_ws (s : list N) : list N := collapse_runs (length s) s.

(** The fixed character budget of [.slice(0, 3000)]. *)
Definition MAX_CHARS : nat := 3000.

(** [cleaned] in [analyze]. *)
Definition cleaned (resumeText : list N) : list N :=
  slice0 MAX_CHARS (trim (collapse_ws (strip_unsafe resumeText))).

End Sanitizer.

(** ** JSON values, [JSON.parse] and [JSON.stringify]

    [JSON.parse] is a built-in of the language, not code of the repository;
    it is modelled after ECMA-404 / ECMA-262 (24.5.1): a recursive-descent
    parser over code units.  Numbers are IEEE binary64 values. *)

Module Json.
Import JsString.

(** *** Numbers *)

Local Open Scope Z_scope.

(** The Number values [JSON.parse] can produce: a finite binary64 value
    [m * 2^e], or an infinity when the literal is out of range.  The two
    zeros are identified (they are equal under [===]). *)
Inductive number : Type :=
  | Finite (m e : Z)
  | Infinity (negative : bool).

Definition precision : Z := 53.
Definition emin : Z := -1074.
Definition emax : Z := 971.

(** Canonical representation of a finite binary64 value. *)
Definition canonical (m e : Z) : Prop :=
  (m = 0 /\ e = 0) \/
  (0 < Z.abs m < 2 ^ precision /\ emin <= e <= emax /\
   (2 ^ (precision - 1) <= Z.abs m \/ e = emin))%Z.

(** [floor (log2 v)] for a positive rational. *)
Definition ilog2 (v : Q) : Z :=
  let l := (Z.log2 (Qnum v) - Z.log2 (Zpos (Qden v)))%Z in
  if Qle_bool (2 ^ l)%Q v then l else (l - 1)%Z.

(** Round to the nearest integer, ties to even. *)
Definition rne (x : Q) : Z :=
  let q := Qfloor x in
  match Qcompare (x - inject_Z q)%Q (1 # 2)%Q with
  | Lt => q
  | Gt => (q + 1)%Z
  | Eq => if Z.even q then q else (q + 1)%Z
  end.

(** Round a non-negative rational to binary64 (round to nearest, ties to
    even; overflow gives an infinity, underflow a subnormal or zero). *)
Definition round_binary64 (negative : bool) (v : Q) : number :=
  if Qle_bool v 0%Q then Finite 0 0 else
  let e := Z.max emin (ilog2 v - (precision - 1)) in
  let m := rne (v / 2 ^ e)%Q in
  let '(m, e) := if (m =? 2 ^ precision)%Z then (2 ^ (precision - 1), e + 1)%Z else (m, e) in
  if (m =? 0)%Z then Finite 0 0
  else if (emax <? e)%Z then Infinity negative
  else Finite (if negative then - m else m)%Z e.

(** The value of a decimal literal: [mant * 10^dexp], rounded. *)
Definition number_of_decimal (negative : bool) (mant : N) (dexp : Z) : number :=
  round_binary64 negative (inject_Z (Z.of_N mant) * 10 ^ dexp)%Q.

Definition number_truthy (x : number) : bool :=
  match x with
  | Finite m _ => negb (m =? 0)%Z
  | Infinity _ => true
  end.

Definition is_finite (x : number) : bool :=
  match x with Finite _ _ => true | Infinity _ => false end.

(** *** Values *)

Inductive json : Type :=
  | JNull
  | JBool (b : bool)
  | JNum (x : number)
  | JStr (s : list N)
  | JArr (items : list json)
  | JObj (members : list (list N * json)).

(** [!!v] *)
Definition truthy (v : json) : bool :=
  match v with
  | JNull => false
  | JBool b => b
  | JNum x => number_truthy x
  | JStr s => JsString.truthy s
  | JArr _ | JObj _ => true
  end.

(** [o[k] = v] on an object under construction: an existing key keeps its
    place and takes the new value, a new key goes last. *)
Fixpoint set_member (k : list N) (v : json) (o : list (list N * json))
  : list (list N * json) :=
  match o with
  | [] => [(k, v)]
  | (k', v') :: o' =>
      if decide (k' = k) then (k, v) :: o' else (k', v') :: set_member k v o'
  end.

Definition object_of (kvs : list (list N * json)) : list (list N * json) :=
  fold_left (fun o kv => set_member kv.1 kv.2 o) kvs [].

(** [o.k] *)
Fixpoint get_member (k : list N) (o : list (list N * json)) : option json :=
  match o with
  | [] => None
  | (k', v) :: o' => if decide (k' = k) then Some v else get_member k o'
  end.

(** [v.k] for an object [v]. *)
Definition field (k : list N) (v : json) : option json :=
  match v with
  | JObj o => get_member k o
  | _ => None
  end.

(** *** Lexical elements *)

Local Open Scope N_scope.

(** JSON whitespace: space, tab, line feed, carriage return. *)
Definition is_ws (c : N) : bool := (c =? 32) || (c =? 9) || (c =? 10) || (c =? 13).

Fixpoint skip_ws (s : list N) : list N :=
  match s with
  | c :: r => if is_ws c then skip_ws r else s
  | [] => []
  end.

Definition is_digit (c : N) : bool := (48 <=? c) && (c <=? 57).

(** The run of digits at the head of the text, as digit values. *)
Fixpoint read_digits (s : list N) : list N * list N :=
  match s with
  | c :: r =>
      if is_digit c then let '(ds, r') := read_digits r in ((c - 48) :: ds, r')
      else ([], s)
  | [] => ([], [])
  end.

Definition digits_value (ds : list N) : N := fold_left (fun a d => 10 * a + d) ds 0.

Definition hex_value (c : N) : option N :=
  if is_digit c then Some (c - 48)
  else if (97 <=? c) && (c <=? 102) then Some (c - 87)
  else if (65 <=? c) && (c <=? 70) then Some (c - 55)
  else None.

Definition hex4 (a b c d : N) : option N :=
  match hex_value a, hex_value b, hex_value c, hex_value d with
  | Some a, Some b, Some c, Some d => Some (((a * 16 + b) * 16 + c) * 16 + d)
  | _, _, _, _ => None
  end.

(** The characters of a string literal, after its opening quote. *)
Fixpoint parse_chars (s : list N) : option (list N * list N) :=
  match s with
  | [] => None
  | c :: r =>
      if c =? 34 then Some ([], r)
      else if c =? 92 then
        match r with
        | [] => None
        | x :: r1 =>
            let simple (y : N) :=
              match parse_chars r1 with
              | Some (str, rest) => Some (y :: str, rest)
              | None => None
              end in
            if x =? 34 then simple 34
            else if x =? 92 then simple 92
            else if x =? 47 then simple 47
            else if x =? 98 then simple 8
            else if x =? 102 then simple 12
            else if x =? 110 then simple 10
            else if x =? 114 then simple 13
            else if x =? 116 then simple 9
            else if x =? 117 then
              match r1 with
              | h1 :: h2 :: h3 :: h4 :: r5 =>
                  match hex4 h1 h2 h3 h4, parse_chars r5 with
                  | Some u, Some (str, rest) => Some (u :: str, rest)
                  | _, _ => None
                  end
              | _ => None
              end
            else None
        end
      else if c <? 32 then None
      else
        match parse_chars r with
        | Some (str, rest) => Some (c :: str, rest)
        | None => None
        end
  end.

(** One digit or more. *)
Definition read_digits1 (s : list N) : option (list N * list N) :=
  match read_digits s with
  | ([], _) => None
  | p => Some p
  end.

(** Optional minus sign. *)
Definition lex_minus (s : list N) : bool * list N :=
  match s with
  | c :: r => if c =? 45 then (true, r) else (false, s)
  | [] => (false, s)
  end.

(** Optional sign of an exponent. *)
Definition lex_sign (s : list N) : bool * list N :=
  match s with
  | c :: r => if c =? 45 then (true, r) else if c =? 43 then (false, r) else (false, s)
  | [] => (false, s)
  end.

(** Integer part: [0 | [1-9] digit*] *)
Definition lex_int (s : list N) : option (list N * list N) :=
  match s with
  | c :: r =>
      if is_digit c then Some (if c =? 48 then ([0], r) else read_digits s) else None
  | [] => None
  end.

(** Optional fraction: [. digit+] *)
Definition lex_frac (s : list N) : option (list N * list N) :=
  match s with
  | c :: r => if c =? 46 then read_digits1 r else Some ([], s)
  | [] => Some ([], [])
  end.

(** Optional exponent: [(e|E) (+|-)? digit+] *)
Definition lex_exp (s : list N) : option (Z * list N) :=
  match s with
  | c :: r =>
      if (c =? 101) || (c =? 69) then
        match read_digits1 (lex_sign r).2 with
        | Some (ds, r') =>
            let n := Z.of_N (digits_value ds) in
            Some (if (lex_sign r).1 then (- n)%Z else n, r')
        | None => None
        end
      else Some (0%Z, s)
  | [] => Some (0%Z, [])
  end.

(** A number literal: [-? int frac? exp?] *)
Definition lex_number (s : list N) : option (number * list N) :=
  match lex_int (lex_minus s).2 with
  | Some (ds, r1) =>
      match lex_frac r1 with
      | Some (fs, r2) =>
          match lex_exp r2 with
          | Some (x, r3) =>
              Some (number_of_decimal (lex_minus s).1 (digits_value (ds ++ fs))
                      (x - Z.of_nat (length fs)), r3)
          | None => None
          end
      | None => None
      end
  | None => None
  end.

(** *** The parser *)

Inductive res (A : Type) : Type :=
  | Ok (a : A)
  | Bad          (* SyntaxError *)
  | OutOfFuel.
Arguments Ok {A} a.
Arguments Bad {A}.
Arguments OutOfFuel {A}.

Definition keyword (k : list N) (v : json) (s : list N) : res (json * list N) :=
  match strip_prefix k s with
  | Some r => Ok (v, r)
  | None => Bad
  end.

Fixpoint parse_value (fuel : nat) (s : list N) : res (json * list N) :=
  match fuel with
  | O => OutOfFuel
  | S f =>
      match skip_ws s with
      | [] => Bad
      | c :: r =>
          if c =? 91 then
            match skip_ws r with
            | [] => Bad
            | c' :: r' =>
                if c' =? 93 then Ok (JArr [], r')
                else
                  match parse_elements f (c' :: r') with
                  | Ok (vs, r'') => Ok (JArr vs, r'')
                  | Bad => Bad
                  | OutOfFuel => OutOfFuel
                  end
            end
          else if c =? 123 then
            match skip_ws r with
            | [] => Bad
            | c' :: r' =>
                if c' =? 125 then Ok (JObj [], r')
                else
                  match parse_members f (c' :: r') with
                  | Ok (kvs, r'') => Ok (JObj (object_of kvs), r'')
                  | Bad => Bad
                  | OutOfFuel => OutOfFuel
                  end
            end
          else if c =? 34 then
            match parse_chars r with
            | Some (str, r') => Ok (JStr str, r')
            | None => Bad
            end
          else if c =? 110 then keyword (lit "ull") JNull r
          else if c =? 116 then keyword (lit "rue") (JBool true) r
          else if c =? 102 then keyword (lit "alse") (JBool false) r
          else
            match lex_number (c :: r) with
            | Some (x, r') => Ok (JNum x, r')
            | None => Bad
            end
      end
  end

with parse_elements (fuel : nat) (s : list N) : res (list json * list N) :=
  match fuel with
  | O => OutOfFuel
  | S f =>
      match parse_value f s with
      | Ok (v, r) =>
          match skip_ws r with
          | [] => Bad
          | c :: r' =>
              if c =? 44 then
                match parse_elements f r' with
                | Ok (vs, r'') => Ok (v :: vs, r'')
                | Bad => Bad
                | OutOfFuel => OutOfFuel
                end
              else if c =? 93 then Ok ([v], r')
              else Bad
          end
      | Bad => Bad
      | OutOfFuel => OutOfFuel
      end
  end

with parse_members (fuel : nat) (s : list N) : res (list (list N * json) * list N) :=
  match fuel with
  | O => OutOfFuel
  | S f =>
      match skip_ws s with
      | [] => Bad
      | q :: r0 =>
          if q =? 34 then
            match parse_chars r0 with
            | None => Bad
            | Some (k, r1) =>
                match skip_ws r1 with
                | [] => Bad
                | colon :: r2 =>
                    if colon =? 58 then
                      match parse_value f r2 with
                      | Ok (v, r3) =>
                          match skip_ws r3 with
                          | [] => Bad
                          | c :: r4 =>
                              if c =? 44 then
                                match parse_members f r4 with
                                | Ok (kvs, r5) => Ok ((k, v) :: kvs, r5)
                                | Bad => Bad
                                | OutOfFuel => OutOfFuel
                                end
                              else if c =? 125 then Ok ([(k, v)], r4)
                              else Bad
                          end
                      | Bad => Bad
                      | OutOfFuel => OutOfFuel
                      end
                    else Bad
                end
            end
          else Bad
      end
  end.

(** [JSON.parse(s)]: [None] stands for the [SyntaxError] it throws.  The
    fuel is more than any text of that length can use. *)
Definition JSON_parse (s : list N) : option json :=
  match parse_value (2 * length s + 1) s with
  | Ok (v, r) => match skip_ws r with [] => Some v | _ => None end
  | _ => None
  end.

(** *** Serialization

    [JSON.stringify(v)] for the values [JSON.parse] produces.  A finite
    number is written exactly (a binary64 value is a dyadic rational, so it
    has a finite decimal expansion); the built-in writes the shortest decimal
    that reads back as the same number, which denotes the same value.  An
    infinity is written [null], as the built-in does. *)

Fixpoint digits_fuel (fuel : nat) (n : N) : list N :=
  match fuel with
  | O => []
  | S f => if n <? 10 then [48 + n] else digits_fuel f (n / 10) ++ [48 + n mod 10]
  end.

Definition digits (n : N) : list N := digits_fuel (S (N.to_nat (N.log2 n))) n.

(** The number of trailing zero bits. *)
Fixpoint trailing_zeros_pos (p : positive) : nat :=
  match p with
  | xO p' => S (trailing_zeros_pos p')
  | _ => O
  end.

Definition trailing_zeros (m : Z) : Z :=
  match m with
  | Zpos p | Zneg p => Z.of_nat (trailing_zeros_pos p)
  | Z0 => 0%Z
  end.

(** [m * 2^e] in decimal: an integer when [0 <= e]; otherwise, with [t] of
    the factors two of [m] cancelled against the exponent and [k = -e - t],
    the integer [(m / 2^t) * 5^k] followed by the exponent [e-k]. *)
Definition number_text (x : number) : list N :=
  match x with
  | Infinity _ => lit "null"
  | Finite m e =>
      (if (m <? 0)%Z then [45] else []) ++
      (if (0 <=? e)%Z then digits (Z.to_N (Z.abs m * 2 ^ e))
       else
         let t := Z.min (- e) (trailing_zeros m) in
         let k := (- e - t)%Z in
         digits (Z.to_N (Z.abs m / 2 ^ t * 5 ^ k)) ++
         (if (k =? 0)%Z then [] else lit "e-" ++ digits (Z.to_N k)))
  end.

Definition hex_digit (d : N) : N := if d <? 10 then 48 + d else 87 + d.

Definition escape_char (c : N) : list N :=
  if c =? 34 then [92; 34]
  else if c =? 92 then [92; 92]
  else if c =? 8 then [92; 98]
  else if c =? 12 then [92; 102]
  else if c =? 10 then [92; 110]
  else if c =? 13 then [92; 114]
  else if c =? 9 then [92; 116]
  else if c <? 32 then [92; 117; 48; 48; hex_digit (c / 16); hex_digit (c mod 16)]
  else [c].

Definition quote (s : list N) : list N :=
  34 :: flat_map escape_char s ++ [34].

Fixpoint stringify (v : json) : list N :=
  match v with
  | JNull => lit "null"
  | JBool true => lit "true"
  | JBool false => lit "false"
  | JNum x => number_text x
  | JStr s => quote s
  | JArr vs =>
      91 :: (fix elements (vs : list json) : list N :=
               match vs with
               | [] => []
               | v :: vs' =>
                   stringify v ++
                   match vs' with [] => [] | _ => 44 :: elements vs' end
               end) vs ++ [93]
  | JObj kvs =>
      123 :: (fix members (kvs : list (list N * json)) : list N :=
                match kvs with
                | [] => []
                | (k, v) :: kvs' =>
                    quote k ++ 58 :: stringify v ++
                    match kvs' with [] => [] | _ => 44 :: members kvs' end
                end) kvs ++ [125]
  end.

(** The text between the brackets of an array, and between the braces of an
    object. *)
Fixpoint elements_text (vs : list json) : list N :=
  match vs with
  | [] => []
  | v :: vs' =>
      stringify v ++ match vs' with [] => [] | _ => 44 :: elements_text vs' end
  end.

Fixpoint members_text (kvs : list (list N * json)) : list N :=
  match kvs with
  | [] => []
  | (k, v) :: kvs' =>
      quote k ++ 58 :: stringify v ++
      match kvs' with [] => [] | _ => 44 :: members_text kvs' end
  end.

End Json.

(** ** The structured-output parser [parseJSON] *)

Module Parser.
Import JsString Json.
Local Open Scope N_scope.

(** The letters [json], in either case (the flag [i]). *)
Definition is_json_word (a b c d : N) : bool :=
  ((a =? 106) || (a =? 74)) && ((b =? 115) || (b =? 83))
  && ((c =? 111) || (c =? 79)) && ((d =? 110) || (d =? 78)).

(** [t.replace(/```json|```/gi, '')]: at each index the two alternatives are
    tried in order; a match is deleted and the scan goes on behind it. *)
Fixpoint strip_fences (t : list N) : list N :=
  match t with
  | [] => []
  | c :: r =>
      match t with
      | 96 :: 96 :: 96 :: r3 =>
          match r3 with
          | a :: b :: c' :: d :: r7 =>
              if is_json_word a b c' d then strip_fences r7 else strip_fences r3
          | _ => strip_fences r3
          end
      | _ => c :: strip_fences r
      end
  end.

(** The longest prefix of [s] that ends with [close]: what the greedy
    [[\s\S]*] followed by the closing bracket matches, if anything. *)
Fixpoint greedy_to (close : N) (s : list N) : option (list N) :=
  match s with
  | [] => None
  | c :: r =>
      match greedy_to close r with
      | Some p => Some (c :: p)
      | None => if c =? close then Some [c] else None
      end
  end.

(** [t.match(/<open>[\s\S]*<close>/)]: the leftmost index where the pattern
    matches, and there the longest match; [None] when [match] returns null. *)
Fixpoint match_bracketed (open close : N) (t : list N) : option (list N) :=
  match t with
  | [] => None
  | c :: r =>
      if c =? open then
        match greedy_to close r with
        | Some p => Some (c :: p)
        | None => match_bracketed open close r
        end
      else match_bracketed open close r
  end.

(** The four functions of the array literal in [parseJSON]; [None] is a
    thrown exception. *)
Definition strategy_direct (t : list N) : option json := JSON_parse (trim t).

Definition strategy_fenced (t : list N) : option json :=
  JSON_parse (trim (strip_fences t)).

Definition strategy_array (t : list N) : option json :=
  match match_bracketed 91 93 t with
  | Some m => JSON_parse m
  | None => None
  end.

Definition strategy_object (t : list N) : option json :=
  match match_bracketed 123 125 t with
  | Some m => JSON_parse m
  | None => None
  end.

(** [for (const fn of fns) try { return fn(txt); } catch (_) {}  return null] *)
Fixpoint first_success (fns : list (list N -> option json)) (txt : list N) : json :=
  match fns with
  | [] => JNull
  | fn :: fns' =>
      match fn txt with
      | Some v => v
      | None => first_success fns' txt
      end
  end.

Definition parseJSON (txt : list N) : json :=
  if negb (JsString.truthy txt) then JNull
  else first_success
         [strategy_direct; strategy_fenced; strategy_array; strategy_object] txt.

End Parser.

(** ** The component [App]: session state, handlers, and what is on screen *)

Module App.
Import JsString Json Parser Sanitizer.

(** The names of the four steps; [step] is an index into them. *)
Definition STEPS : list (list N) :=
  [lit "Upload"; lit "Details"; lit "Profile"; lit "Jobs"].

(** [jobType]: one of the three buttons of the Details form. *)
Inductive JobType : Type := Both | Intern | Full.

(** The Details form: [linkedin], [email], [jobType], [query]. *)
Record Details : Type := {
  linkedin : list N;
  email : list N;
  jobType : JobType;
  query : list N;
}.

(** A listing as [findJobs] stores it: [{ ...j, id: i + 1 }]. *)
Record Job : Type := {
  job_id : nat;
  job_data : json;
}.

(** The values of [genId]: ["l" + job.id] and ["t" + job.id]. *)
Inductive GenKey : Type :=
  | LetterKey (id : nat)
  | TipsKey (id : nat).

#[global] Instance GenKey_eq_dec : EqDecision GenKey.
Proof. solve_decision. Defined.

(** An [async] handler suspended at its [await]. *)
Inductive Pending : Type :=
  | PReadFile
  | PAnalyze (cleaned : list N)
  | PFindJobs
  | PLetter (job : Job)
  | PTips (job : Job).

(** A request sent to the completion service through [ask]. *)
Inductive Call : Type :=
  | AskProfile (cleaned : list N)
  | AskJobs (d : Details) (profile : option json)
  | AskLetter (job : Job)
  | AskTips (job : Job).

(** How an awaited promise settles: [ask] (or the file reader) returns a
    text, or throws an [Error] with a message. *)
Inductive Outcome : Type :=
  | Resolved (txt : list N)
  | Rejected (message : list N).

(** The [useState] cells of [App] that the handlers read or write (the
    purely presentational [dragOver], [busyMsg] and [copied] are left out),
    followed by the suspended handlers and the log of requests sent. *)
Record State : Type := {
  step : nat;
  resumeText : list N;
  resumeName : list N;
  fileErr : list N;
  details : Details;
  profile : option json;
  jobs : list Job;
  letters : gmap nat (list N);
  tips : gmap nat json;
  busy : bool;
  errMsg : list N;
  genId : option GenKey;
  showL : option Job;
  showT : option Job;
  pending : list Pending;
  calls : list Call;
}.

Definition init : State := {|
  step := 0; resumeText := []; resumeName := []; fileErr := [];
  details := {| linkedin := []; email := []; jobType := Both; query := [] |};
  profile := None; jobs := []; letters := ∅; tips := ∅;
  busy := false; errMsg := []; genId := None; showL := None; showT := None;
  pending := []; calls := [];
|}.

(** The state setters. *)
Definition setStep v s := Build_State v (resumeText s) (resumeName s) (fileErr s)
  (details s) (profile s) (jobs s) (letters s) (tips s) (busy s) (errMsg s)
  (genId s) (showL s) (showT s) (pending s) (calls s).
Definition setRT v s := Build_State (step s) v (resumeName s) (fileErr s)
  (details s) (profile s) (jobs s) (letters s) (tips s) (busy s) (errMsg s)
  (genId s) (showL s) (showT s) (pending s) (calls s).
Definition setRN v s := Build_State (step s) (resumeText s) v (fileErr s)
  (details s) (profile s) (jobs s) (letters s) (tips s) (busy s) (errMsg s)
  (genId s) (showL s) (showT s) (pending s) (calls s).
Definition setFErr v s := Build_State (step s) (resumeText s) (resumeName s) v
  (details s) (profile s) (jobs s) (letters s) (tips s) (busy s) (errMsg s)
  (genId s) (showL s) (showT s) (pending s) (calls s).
Definition setDetails v s := Build_State (step s) (resumeText s) (resumeName s)
  (fileErr s) v (profile s) (jobs s) (letters s) (tips s) (busy s) (errMsg s)
  (genId s) (showL s) (showT s) (pending s) (calls s).
Definition setProfile v s := Build_State (step s) (resumeText s) (resumeName s)
  (fileErr s) (details s) v (jobs s) (letters s) (tips s) (busy s) (errMsg s)
  (genId s) (showL s) (showT s) (pending s) (calls s).
Definition setJobs v s := Build_State (step s) (resumeText s) (resumeName s)
  (fileErr s) (details s) (profile s) v (letters s) (tips s) (busy s) (errMsg s)
  (genId s) (showL s) (showT s) (pending s) (calls s).
Definition setLetters (f : gmap nat (list N) -> gmap nat (list N)) s :=
  Build_State (step s) (resumeText s) (resumeName s)
  (fileErr s) (details s) (profile s) (jobs s) (f (letters s)) (tips s) (busy s)
  (errMsg s) (genId s) (showL s) (showT s) (pending s) (calls s).
Definition setTips (f : gmap nat json -> gmap nat json) s :=
  Build_State (step s) (resumeText s) (resumeName s)
  (fileErr s) (details s) (profile s) (jobs s) (letters s) (f (tips s)) (busy s)
  (errMsg s) (genId s) (showL s) (showT s) (pending s) (calls s).
Definition setBusy v s := Build_State (step s) (resumeText s) (resumeName s)
  (fileErr s) (details s) (profile s) (jobs s) (letters s) (tips s) v (errMsg s)
  (genId s) (showL s) (showT s) (pending s) (calls s).
Definition setErr v s := Build_State (step s) (resumeText s) (resumeName s)
  (fileErr s) (details s) (profile s) (jobs s) (letters s) (tips s) (busy s) v
  (genId s) (showL s) (showT s) (pending s) (calls s).
Definition setGenId v s := Build_State (step s) (resumeText s) (resumeName s)
  (fileErr s) (details s) (profile s) (jobs s) (letters s) (tips s) (busy s)
  (errMsg s) v (showL s) (showT s) (pending s) (calls s).
Definition setShowL v s := Build_State (step s) (resumeText s) (resumeName s)
  (fileErr s) (details s) (profile s) (jobs s) (letters s) (tips s) (busy s)
  (errMsg s) (genId s) v (showT s) (pending s) (calls s).
Definition setShowT v s := Build_State (step s) (resumeText s) (resumeName s)
  (fileErr s) (details s) (profile s) (jobs s) (letters s) (tips s) (busy s)
  (errMsg s) (genId s) (showL s) v (pending s) (calls s).

(** Suspending at an [await], and sending a request. *)
Definition suspend (p : Pending) s := Build_State (step s) (resumeText s)
  (resumeName s) (fileErr s) (details s) (profile s) (jobs s) (letters s) (tips s)
  (busy s) (errMsg s) (genId s) (showL s) (showT s) (pending s ++ [p]) (calls s).
Definition resume (k : nat) s := Build_State (step s) (resumeText s)
  (resumeName s) (fileErr s) (details s) (profile s) (jobs s) (letters s) (tips s)
  (busy s) (errMsg s) (genId s) (showL s) (showT s) (delete k (pending s)) (calls s).
Definition send (c : Call) s := Build_State (step s) (resumeText s)
  (resumeName s) (fileErr s) (details s) (profile s) (jobs s) (letters s) (tips s)
  (busy s) (errMsg s) (genId s) (showL s) (showT s) (pending s) (calls s ++ [c]).

(** *** [readFile] *)

Definition to_lower (c : N) : N :=
  if ((65 <=? c) && (c <=? 90))%N then (c + 32)%N else c.

(** [name.split(".").pop()] *)
Fixpoint last_segment (name : list N) : list N :=
  match name with
  | [] => []
  | c :: r => if existsb (N.eqb 46) r then last_segment r
              else if (c =? 46)%N then r else name
  end.

(** [file.name.split(".").pop().toLowerCase()] *)
Definition extension (name : list N) : list N :=
  List.map to_lower (last_segment name).

Definition supported (ext : list N) : bool :=
  bool_decide (ext = lit "pdf") || bool_decide (ext = lit "docx")
  || bool_decide (ext = lit "doc") || bool_decide (ext = lit "txt").

(** The least length of trimmed text that [readFile] accepts. *)
Definition MIN_CHARS : nat := 30.

Definition readFile_start (name : list N) (s : State) : State :=
  let s := setBusy true (setRN name (setRT [] (setFErr [] s))) in
  if supported (extension name) then suspend PReadFile s
  else setBusy false (setFErr (lit "Use PDF, DOCX, or TXT.") s).

Definition readFile_resume (o : Outcome) (s : State) : State :=
  match o with
  | Resolved txt =>
      if negb (JsString.truthy txt) || (length (trim txt) <? MIN_CHARS)
      then setBusy false (setFErr (lit "Could not read text from file.") s)
      else setBusy false (setRT txt s)
  | Rejected msg => setBusy false (setFErr (lit "Error: " ++ msg) s)
  end.

(** *** [analyze] *)

Definition zero : json := JNum (Finite 0 0).

(** The object literal on the right of [parseJSON(raw) || { ... }]. *)
Definition default_profile (cleaned : list N) : json :=
  JObj [ (lit "name", JStr (lit "Candidate"));
         (lit "skills", JArr []);
         (lit "experience_years", zero);
         (lit "education", JStr (lit "N/A"));
         (lit "current_role", JStr (lit "Professional"));
         (lit "industries", JArr []);
         (lit "summary", JStr (slice0 200 cleaned)) ].

Definition analyze_start (s : State) : State :=
  let s := setBusy true (setErr [] s) in
  let cleaned := Sanitizer.cleaned (resumeText s) in
  suspend (PAnalyze cleaned) (send (AskProfile cleaned) s).

Definition analyze_resume (cleaned : list N) (o : Outcome) (s : State) : State :=
  match o with
  | Resolved raw =>
      let parsed := parseJSON raw in
      let p := if Json.truthy parsed then parsed else default_profile cleaned in
      setBusy false (setStep 2 (setProfile (Some p) s))
  | Rejected msg => setBusy false (setErr (lit "Analysis error: " ++ msg) s)
  end.

(** *** [findJobs] *)

(** [parsed.map((j, i) => ({ ...j, id: i + 1 }))] *)
Definition number_jobs (items : list json) : list Job :=
  imap (fun i j => {| job_id := S i; job_data := j |}) items.

Definition findJobs_start (s : State) : State :=
  let s := setBusy true (setErr [] s) in
  suspend PFindJobs (send (AskJobs (details s) (profile s)) s).

Definition findJobs_resume (o : Outcome) (s : State) : State :=
  match o with
  | Resolved raw =>
      setBusy false
        match parseJSON raw with
        | JArr (j :: items) => setStep 3 (setJobs (number_jobs (j :: items)) s)
        | _ => setErr (lit "Could not load jobs. Please try again.") s
        end
  | Rejected msg => setBusy false (setErr (lit "Search error: " ++ msg) s)
  end.

(** *** [getLetter] and [getTips]

    Where the source calls [alert], nothing is stored: the state changes
    only by [setGenId(null)]. *)

(** [letters[job.id]] as a condition. *)
Definition has_letter (s : State) (id : nat) : bool :=
  match letters s !! id with
  | Some txt => JsString.truthy txt
  | None => false
  end.

(** [tips[job.id]] as a condition. *)
Definition has_tips (s : State) (id : nat) : bool :=
  match tips s !! id with
  | Some v => Json.truthy v
  | None => false
  end.

Definition getLetter_start (job : Job) (s : State) : State :=
  if has_letter s (job_id job) then setShowL (Some job) s
  else suspend (PLetter job)
         (send (AskLetter job) (setGenId (Some (LetterKey (job_id job))) s)).

Definition getLetter_resume (job : Job) (o : Outcome) (s : State) : State :=
  match o with
  | Resolved txt =>
      setGenId None (setShowL (Some job) (setLetters (insert (job_id job) txt) s))
  | Rejected _ => setGenId None s
  end.

Definition getTips_start (job : Job) (s : State) : State :=
  if has_tips s (job_id job) then setShowT (Some job) s
  else suspend (PTips job)
         (send (AskTips job) (setGenId (Some (TipsKey (job_id job))) s)).

Definition getTips_resume (job : Job) (o : Outcome) (s : State) : State :=
  match o with
  | Resolved raw =>
      let parsed := parseJSON raw in
      setGenId None
        (if Json.truthy parsed
         then setShowT (Some job) (setTips (insert (job_id job) parsed) s)
         else s)
  | Rejected _ => setGenId None s
  end.

(** *** Events *)

Inductive Event : Type :=
  | SelectFile (name : list N)      (* the file input's [onChange], or a drop *)
  | ClickContinue                   (* the button of step 0 *)
  | ClickProgress (i : nat)         (* the [i]-th circle of the progress bar *)
  | ClickBack                       (* the Back button of steps 1, 2, 3 *)
  | EditDetails (d : Details)       (* the inputs of step 1 *)
  | ClickAnalyze
  | ClickFindJobs
  | ClickLetter (i : nat)           (* on the card of [jobs[i]] *)
  | ClickTips (i : nat)
  | CloseLetter
  | CloseTips
  | DismissError
  | Settle (k : nat) (o : Outcome). (* the [k]-th suspended handler goes on *)

(** The continuation of a suspended handler. *)
Definition resume_with (p : Pending) (o : Outcome) (s : State) : State :=
  match p with
  | PReadFile => readFile_resume o s
  | PAnalyze cleaned => analyze_resume cleaned o s
  | PFindJobs => findJobs_resume o s
  | PLetter job => getLetter_resume job o s
  | PTips job => getTips_resume job o s
  end.

(** What the handler attached to each control does. *)
Definition handle (s : State) (ev : Event) : State :=
  match ev with
  | SelectFile name => readFile_start name s
  | ClickContinue => if JsString.truthy (resumeText s) then setStep 1 s else s
  | ClickProgress i => if (i <? step s)%nat then setStep i s else s
  | ClickBack => setStep (pred (step s)) s
  | EditDetails d => setDetails d s
  | ClickAnalyze => analyze_start s
  | ClickFindJobs => findJobs_start s
  | ClickLetter i =>
      match jobs s !! i with Some job => getLetter_start job s | None => s end
  | ClickTips i =>
      match jobs s !! i with Some job => getTips_start job s | None => s end
  | CloseLetter => setShowL None s
  | CloseTips => setShowT None s
  | DismissError => setErr [] s
  | Settle k o =>
      match pending s !! k with
      | Some p => resume_with p o (resume k s)
      | None => s
      end
  end.

(** [lLoad || tLoad]: the card of a listing is covered while [genId] names
    one of its two keys. *)
Definition card_covered (s : State) (id : nat) : bool :=
  bool_decide (genId s = Some (LetterKey id))
  || bool_decide (genId s = Some (TipsKey id)).

(** Whether the control of an event is on screen and can be reached with the
    pointer: each step renders its own controls, the full-screen overlay
    shown while [busy] covers all of them, and a covered card hides its
    buttons.  A suspended handler goes on whenever its answer arrives. *)
Definition rendered (s : State) (ev : Event) : bool :=
  match ev with
  | Settle _ _ => true
  | _ =>
      negb (busy s) &&
      match ev with
      | SelectFile _ | ClickContinue => bool_decide (step s = 0)
      | ClickProgress i => (i <? length STEPS)%nat
      | ClickBack => bool_decide (1 <= step s <= 3)
      | EditDetails _ | ClickAnalyze => bool_decide (step s = 1)
      | ClickFindJobs => bool_decide (step s = 2)
      | ClickLetter i | ClickTips i =>
          bool_decide (step s = 3) &&
          match jobs s !! i with
          | Some job => negb (card_covered s (job_id job))
          | None => false
          end
      | CloseLetter =>
          match showL s with Some job => has_letter s (job_id job) | None => false end
      | CloseTips =>
          match showT s with Some job => has_tips s (job_id job) | None => false end
      | DismissError => JsString.truthy (errMsg s)
      | Settle _ _ => true
      end
  end.

(** One interaction, and the states a session can be in. *)
Definition ui_step (s : State) (ev : Event) (s' : State) : Prop :=
  rendered s ev = true /\ s' = handle s ev.

Inductive reachable : State -> Prop :=
  | reachable_init : reachable init
  | reachable_step s ev s' : reachable s -> ui_step s ev s' -> reachable s'.

(** Running a script of events; [None] if one of them is not possible. *)
Fixpoint run (s : State) (evs : list Event) : option State :=
  match evs with
  | [] => Some s
  | ev :: evs' => if rendered s ev then run (handle s ev) evs' else None
  end.

(** The key a suspended handler will fill. *)
Definition key_of (p : Pending) : option GenKey :=
  match p with
  | PLetter job => Some (LetterKey (job_id job))
  | PTips job => Some (TipsKey (job_id job))
  | _ => None
  end.

(** The number of requests in flight for a key. *)
Definition in_flight (s : State) (k : GenKey) : nat :=
  length (filter (fun p => key_of p = Some k) (pending s)).

End App.

(** ** The session invariant *)

Module SessionSpec.
Import JsString Json Parser Sanitizer App.

(** The handlers that show the full-screen overlay while they wait. *)
Definition blocking (p : Pending) : bool :=
  match p with
  | PReadFile | PAnalyze _ | PFindJobs => true
  | PLetter _ | PTips _ => false
  end.

(** What a suspended handler can rely on when it goes on. *)
Definition pending_ok (s : State) (p : Pending) : Prop :=
  match p with
  | PReadFile => busy s = true /\ step s = 0 /\ resumeText s = []
  | PAnalyze c => busy s = true /\ step s = 1 /\ c = cleaned (resumeText s)
  | PFindJobs => busy s = true /\ step s = 2
  | PLetter _ | PTips _ => True
  end.

Record invariant (s : State) : Prop := {
  inv_pending : Forall (pending_ok s) (pending s);
  inv_blocking : length (filter (fun p => blocking p = true) (pending s)) <= 1;
  inv_step : step s <= 3;
  inv_text : resumeText s = [] \/ MIN_CHARS <= length (trim (resumeText s));
  inv_left_upload : 1 <= step s -> resumeText s <> [];
  inv_tips : forall id v, tips s !! id = Some v -> Json.truthy v = true;
  inv_genId : forall k, genId s = Some k -> 1 <= in_flight s k;
  inv_calls : forall c, AskProfile c ∈ calls s ->
      exists raw, c = cleaned raw /\ MIN_CHARS <= length (trim raw);
}.

End SessionSpec.

(** ** Sessions used as examples, and the statements that fail *)

Module Scenario.
Import JsString Json Parser Sanitizer App.

(** A session that has reached the listings: a text file is read, the
    profile comes back as an object, the search returns two listings. *)
Definition resume_text : list N :=
  lit "Jane Doe, software engineer, 5 years of experience".

Definition to_listings : list Event :=
  [ SelectFile (lit "cv.txt"); Settle 0 (Resolved resume_text);
    ClickContinue;
    ClickAnalyze; Settle 0 (Resolved (jlit "{'name':'Jane Doe','skills':['Rocq']}"));
    ClickFindJobs; Settle 0 (Resolved (jlit "[{'title':'Engineer'},{'title':'Analyst'}]")) ].

(** The state a script leads to from the initial state ([init] itself if
    the script cannot be played). *)
Definition after (evs : list Event) : State := default init (run init evs).

(** Listing 1 of that session. *)
Definition first_listing : Job :=
  {| job_id := 1; job_data := JObj [(lit "title", JStr (lit "Engineer"))] |}.

(** The completion service answers the first request for the letter of
    listing 1 with an empty text. *)
Definition empty_letter : list Event :=
  to_listings ++ [ ClickLetter 0; Settle 0 (Resolved []) ].


(** A letter is generated for listing 1 and its dialog closed; then the user
    goes back and searches again. *)
Definition second_search : list Event :=
  to_listings ++
  [ ClickLetter 0; Settle 0 (Resolved (lit "Dear Hiring Manager,")); CloseLetter;
    ClickBack; ClickFindJobs ].

(** A letter is requested for listing 1; before it arrives the user goes
    back, searches again, and the new listings arrive. *)
Definition stale_letter : list Event :=
  to_listings ++
  [ ClickLetter 0; ClickBack; ClickFindJobs;
    Settle 1 (Resolved (jlit "[{'title':'Designer'}]")) ].


End Scenario.

Module AsStated.
Import JsString Json Parser Sanitizer App.

(** C1 as the specification states it: whatever is stored under the key is
    returned without a request. *)
Definition cache_hit_any_entry : Prop :=
  forall s job, reachable s ->
    (is_Some (letters s !! job_id job) ->
       calls (getLetter_start job s) = calls s) /\
    (is_Some (tips s !! job_id job) ->
       calls (getTips_start job s) = calls s).



(** C9 as the specification states it. *)
Definition search_clears_caches : Prop :=
  forall s k raw j items, reachable s ->
    pending s !! k = Some PFindJobs ->
    parseJSON raw = JArr (j :: items) ->
    letters (handle s (Settle k (Resolved raw))) = ∅ /\
    tips (handle s (Settle k (Resolved raw))) = ∅.

(** C10 as the specification states it: a letter that arrives for a listing
    that is no longer in the listing set is not stored. *)
Definition stale_letter_discarded : Prop :=
  forall s k job txt, reachable s ->
    pending s !! k = Some (PLetter job) ->
    job ∉ jobs s ->
    letters (handle s (Settle k (Resolved txt))) = letters s.

End AsStated.

(** ** What the sanitizer guarantees *)

Module SanitizerSpec.
Import JsString Sanitizer.

(** No four whitespace characters in a row. *)
Definition short_runs (s : list N) : Prop :=
  forall i, ws_run (drop i s) < 4.

(** Neither the first nor the last character is whitespace. *)
Definition trimmed (s : list N) : Prop :=
  (forall c, head s = Some c -> is_space c = false) /\
  (forall c, last s = Some c -> is_space c = false).

(** Printable ASCII, line feed, carriage return or tab. *)
Definition printable (c : N) : Prop :=
  (32 <= c <= 126)%N \/ c = 10%N \/ c = 13%N \/ c = 9%N.

End SanitizerSpec.

(** ** The cascade of [parseJSON], in words *)

Module ParserSpec.
Import JsString Json Parser.
Local Open Scope N_scope.

(** The index of the first occurrence of a character. *)
Fixpoint first_index (c : N) (s : list N) : option nat :=
  match s with
  | [] => None
  | x :: r => if x =? c then Some 0%nat else S <$> first_index c r
  end.

(** The index of the last occurrence of a character. *)
Fixpoint last_index (c : N) (s : list N) : option nat :=
  match s with
  | [] => None
  | x :: r =>
      match last_index c r with
      | Some j => Some (S j)
      | None => if x =? c then Some 0%nat else None
      end
  end.

(** The text from the first [open] to the last [close], when the latter
    comes after the former. *)
Definition between (open close : N) (t : list N) : option (list N) :=
  match first_index open t, last_index close t with
  | Some i, Some j => if (i <? j)%nat then Some (take (S j - i) (drop i t)) else None
  | _, _ => None
  end.

(** The cascade as the source has it: the text itself, the text without
    fence markers, the text from the first [[] to the last []], the text from
    the first [{] to the last [}]. *)
Definition cascade (txt : list N) : json :=
  match txt with
  | [] => JNull
  | _ =>
    match JSON_parse (trim txt) with
    | Some v => v
    | None =>
      match JSON_parse (trim (strip_fences txt)) with
      | Some v => v
      | None =>
        match between 91 93 txt ≫= JSON_parse with
        | Some v => v
        | None =>
          match between 123 125 txt ≫= JSON_parse with
          | Some v => v
          | None => JNull
          end
        end
      end
    end
  end.




End ParserSpec.

(** ** Well-formed values *)

Module JsonSpec.
Import JsString Json.

(** What [JSON.parse] produces: finite numbers are in canonical form and no
    object has a key twice. *)
Fixpoint well_formed (v : json) : Prop :=
  match v with
  | JNum (Finite m e) => canonical m e
  | JArr vs => fold_right (fun v P => well_formed v /\ P) True vs
  | JObj kvs =>
      NoDup (List.map fst kvs) /\
      fold_right (fun kv P => well_formed kv.2 /\ P) True kvs
  | _ => True
  end.

(** No number in the value is an infinity. *)
Fixpoint all_finite (v : json) : Prop :=
  match v with
  | JNum x => is_finite x = true
  | JArr vs => fold_right (fun v P => all_finite v /\ P) True vs
  | JObj kvs => fold_right (fun kv P => all_finite kv.2 /\ P) True kvs
  | _ => True
  end.

(** The number of values in a value, each counted twice but the outermost:
    an upper bound on the fuel that reading its text takes. *)
Fixpoint weight (v : json) : nat :=
  match v with
  | JArr vs => S (fold_right (fun v n => S (weight v + n)) 0 vs)
  | JObj kvs => S (fold_right (fun kv n => S (weight kv.2 + n)) 0 kvs)
  | _ => 1
  end.

(** The text that follows a number literal does not continue it. *)
Definition number_end (rest : list N) : Prop :=
  match rest with
  | [] => True
  | c :: _ => is_digit c = false /\ c <> 46%N /\ c <> 101%N /\ c <> 69%N
  end.

(** The text that follows a run of digits does not continue it. *)
Definition not_digit_next (rest : list N) : Prop :=
  match rest with [] => True | c :: _ => is_digit c = false end.

(** The first and the last character of the text of a value. *)
Definition value_start (c : N) : Prop :=
  c = 110%N \/ c = 116%N \/ c = 102%N \/ c = 45%N \/ is_digit c = true \/
  c = 34%N \/ c = 91%N \/ c = 123%N.

Definition value_end (d : N) : Prop :=
  d = 108%N \/ d = 101%N \/ is_digit d = true \/ d = 34%N \/ d = 93%N \/ d = 125%N.

(** Reading the text of a value, followed by anything that does not continue
    a number, gives the value back and leaves what followed. *)
Definition reads_back (v : json) : Prop :=
  forall f rest, weight v <= f -> number_end rest ->
    parse_value f (stringify v ++ rest) = Ok (v, rest).

(** C4 as the specification states it. *)
Definition reparse_gives_same_value : Prop :=
  forall txt, Parser.parseJSON (stringify (Parser.parseJSON txt)) = Parser.parseJSON txt.

End JsonSpec.
(** * The way to the completion service

    What follows models the code between a handler of [App] and the API that
    answers it: [ask] and [CLAUDE] on the client side, the two handlers that
    can stand behind [/api/claude] (the proxy to the Anthropic API, and the
    proxy to the Groq API that converts requests and answers), and the reader
    of PDF files.  Built-ins whose result is engine-defined text
    ([Number::toString], the message of a built-in error) are parameters. *)

(** ** Values at run time

    The responses of the completion service are read without any check of
    their shape, so the code meets a JSON value of any kind wherever it
    expects an object, an array or a string.  [undefined] is the missing
    value; an exception is a result of its own. *)

Module Js.
Import JsString Json.
Local Open Scope N_scope.

(** A value: a JSON value, or [undefined]. *)
Definition value : Type := option json.

(** What is thrown.  [TypeError] records the operation and the value it was
    applied to. *)
Inductive Exn : Type :=
  | SyntaxError (text : list N)            (* [JSON.parse], [Body.json] on a text that is not JSON *)
  | TypeError (what : list N) (v : value)  (* a property of [null], a call of what is no function, ... *)
  | RangeError (status : N)                (* [new Response] with a status outside 200..599 *)
  | FetchError (message : list N)          (* [fetch] rejects *)
  | Error (message : list N).              (* [new Error(message)] *)

Inductive result (A : Type) : Type :=
  | Return (a : A)
  | Throw (e : Exn).
Arguments Return {A} a.
Arguments Throw {A} e.

#[global] Instance result_ret : MRet result := fun A a => Return a.
#[global] Instance result_bind : MBind result := fun A B f m =>
  match m with
  | Return a => f a
  | Throw e => Throw e
  end.

(** [!!v] *)
Definition truthy (v : value) : bool :=
  match v with
  | Some j => Json.truthy j
  | None => false
  end.

(** [a || b] *)
Definition or_else (a b : value) : value := if truthy a then a else b.

(** [v.k], for a name [k] that no prototype defines ([content], [type],
    [text], [system], ...): a member of an object, [undefined] on any other
    value, a [TypeError] on [null] and [undefined]. *)
Definition get (k : list N) (v : value) : result value :=
  match v with
  | None | Some JNull => Throw (TypeError k v)
  | Some (JObj o) => Return (get_member k o)
  | Some _ => Return None
  end.

(** [v?.k] *)
Definition get_opt (k : list N) (v : value) : value :=
  match v with
  | Some (JObj o) => get_member k o
  | _ => None
  end.

(** [v?.[0]]: the first element of an array, the first code unit of a
    string, the member ["0"] of an object. *)
Definition first_opt (v : value) : value :=
  match v with
  | Some (JArr vs) => head vs
  | Some (JStr s) => (fun c => JStr [c]) <$> head s
  | Some (JObj o) => get_member (lit "0") o
  | _ => None
  end.

(** [JSON.parse(text)] *)
Definition parse (text : list N) : result json :=
  match JSON_parse text with
  | Some v => Return v
  | None => Throw (SyntaxError text)
  end.

(** An object literal as [JSON.stringify] writes it: a member whose value is
    [undefined] is left out. *)
Definition literal (members : list (list N * value)) : json :=
  JObj (omap (fun kv => (fun v => (kv.1, v)) <$> kv.2) members).

(** The number of a numeric literal of the source that is an integer. *)
Definition integer (n : N) : json := JNum (number_of_decimal false n 0).

Section conversions.

(** [Number::toString], a built-in that is not modelled. *)
Variable number_to_string : number -> list N.

(** [String(v)] for a JSON value: an array is joined with commas, [null]
    elements giving the empty text; an object gives [[object Object]] unless
    it has a member [toString] of its own, which is no function. *)
Fixpoint to_string (v : json) : result (list N) :=
  match v with
  | JNull => Return (lit "null")
  | JBool true => Return (lit "true")
  | JBool false => Return (lit "false")
  | JNum x => Return (number_to_string x)
  | JStr s => Return s
  | JArr vs =>
      (fix joined (vs : list json) : result (list N) :=
         match vs with
         | [] => Return []
         | v :: vs' =>
             s ← match v with JNull => Return [] | _ => to_string v end;
             match vs' with
             | [] => Return s
             | _ => r ← joined vs'; Return (s ++ 44 :: r)
             end
         end) vs
  | JObj o =>
      if decide (lit "toString" ∈ o.*1)
      then Throw (TypeError (lit "toString") (Some v))
      else Return (lit "[object Object]")
  end.

(** The text of an element in [join]: empty for [undefined] and [null]. *)
Definition element_text (v : value) : result (list N) :=
  match v with
  | None | Some JNull => Return []
  | Some j => to_string j
  end.

(** [vs.join(sep)] *)
Fixpoint join (sep : list N) (vs : list value) : result (list N) :=
  match vs with
  | [] => Return []
  | v :: vs' =>
      s ← element_text v;
      match vs' with
      | [] => Return s
      | _ => r ← join sep vs'; Return (s ++ sep ++ r)
      end
  end.

(** [bs.filter((b) => b.type === "text")] *)
Fixpoint text_blocks (bs : list json) : result (list json) :=
  match bs with
  | [] => Return []
  | b :: bs' =>
      t ← get (lit "type") (Some b);
      rest ← text_blocks bs';
      Return match t with
             | Some (JStr w) => if decide (w = lit "text") then b :: rest else rest
             | _ => rest
             end
  end.

(** [bs.filter((b) => b.type === "text").map((b) => b.text).join("\n")] *)
Definition blocks_text (bs : list json) : result (list N) :=
  kept ← text_blocks bs;
  texts ← mapM (fun b => get (lit "text") (Some b)) kept;
  join [10] texts.

End conversions.

End Js.

(** ** Requests and responses *)

Module Http.
Import JsString Json Js.
Local Open Scope N_scope.

Definition Headers : Type := list (list N * list N).

(** What is given to [fetch], and what a handler receives. *)
Record Request : Type := {
  req_method : list N;
  req_url : list N;
  req_headers : Headers;
  req_body : list N;
}.

(** A response: its status, the headers given to its constructor, the text
    of its body. *)
Record Response : Type := {
  status : N;
  resp_headers : Headers;
  resp_body : list N;
}.

(** How [fetch] settles. *)
Inductive Fetched : Type :=
  | Failed (message : list N)
  | Answer (r : Response).

(** [r.ok] *)
Definition ok (r : Response) : bool := (200 <=? status r) && (status r <=? 299).

(** The statuses of a response that has no body. *)
Definition null_body (st : N) : bool := (st =? 204) || (st =? 205) || (st =? 304).

(** [new Response(body, { status, headers })]: a [RangeError] for a status
    outside 200..599, a [TypeError] for a body with a status that has none. *)
Definition new_Response (body : list N) (st : N) (headers : Headers) : result Response :=
  if (st <? 200) || (599 <? st) then Throw (RangeError st)
  else if null_body st then Throw (TypeError (lit "Response") (Some (JStr body)))
  else Return {| status := st; resp_headers := headers; resp_body := body |}.

(** An environment variable as text: ["undefined"] when it is not set. *)
Definition env_text (v : option (list N)) : list N := default (lit "undefined") v.

Definition content_type : list N * list N := (lit "Content-Type", lit "application/json").
Definition allow_origin : list N * list N := (lit "Access-Control-Allow-Origin", lit "*").

Section messages.

(** The message of an error that a built-in throws. *)
Variable builtin_message : Exn -> list N.

(** [e.message] *)
Definition message (e : Exn) : list N :=
  match e with
  | Error m | FetchError m => m
  | _ => builtin_message e
  end.

(** [JSON.stringify({ error: { message: e.message } })] *)
Definition error_body (m : json) : list N :=
  stringify (JObj [(lit "error", JObj [(lit "message", m)])]).

End messages.

End Http.

(** ** The proxy to the Anthropic API ([api/claude.js]) *)

Module AnthropicProxy.
Import JsString Json Js Http.
Local Open Scope N_scope.

Section handler.
Variable builtin_message : Exn -> list N.
(** [process.env.VITE_ANTHROPIC_API_KEY] *)
Variable api_key : option (list N).
(** The network. *)
Variable fetch : Request -> Fetched.

(** The request sent on for a body [body]. *)
Definition forwarded (body : json) : Request := {|
  req_method := lit "POST";
  req_url := lit "https://api.anthropic.com/v1/messages";
  req_headers := [ content_type;
                   (lit "x-api-key", env_text api_key);
                   (lit "anthropic-version", lit "2023-06-01");
                   (lit "anthropic-beta", lit "web-search-2025-03-05") ];
  req_body := stringify body;
|}.

(** The request that the handler gives to [fetch]. *)
Definition outgoing (req : Request) : result Request :=
  body ← parse (req_body req);
  Return (forwarded body).

(** The [try] block. *)
Definition relay (req : Request) : result Response :=
  q ← outgoing req;
  match fetch q with
  | Failed m => Throw (FetchError m)
  | Answer response =>
      data ← parse (resp_body response);
      new_Response (stringify data) (status response) [content_type; allow_origin]
  end.

Definition handler (req : Request) : Response :=
  if negb (bool_decide (req_method req = lit "POST"))
  then {| status := 405; resp_headers := []; resp_body := lit "Method not allowed" |}
  else
    match relay req with
    | Return r => r
    | Throw e =>
        {| status := 500; resp_headers := [content_type];
           resp_body := error_body (JStr (message builtin_message e)) |}
    end.

End handler.

End AnthropicProxy.

(** ** The proxy to the Groq API *)

Module GroqProxy.
Import JsString Json Js Http.
Local Open Scope N_scope.

Section handler.
Variable number_to_string : number -> list N.
Variable builtin_message : Exn -> list N.
(** [process.env.GROQ_API_KEY] *)
Variable api_key : option (list N).
Variable fetch : Request -> Fetched.

(** What one message of the request contributes to [messages]: a message
    whose content is a string is taken as it is, one whose content is an
    array gives the joined text of its text blocks unless that is empty, any
    other is left out. *)
Definition converted_message (msg : json) : result (list json) :=
  content ← get (lit "content") (Some msg);
  match content with
  | Some (JStr s) =>
      role ← get (lit "role") (Some msg);
      Return [literal [(lit "role", role); (lit "content", Some (JStr s))]]
  | Some (JArr bs) =>
      text ← blocks_text number_to_string bs;
      if JsString.truthy text
      then role ← get (lit "role") (Some msg);
           Return [literal [(lit "role", role); (lit "content", Some (JStr text))]]
      else Return []
  | _ => Return []
  end.

(** The loop [for (const msg of body.messages || [])].  A string is
    iterated by its characters, none of which has a [content]; any other
    value that is no array cannot be iterated. *)
Definition converted_messages (messages : value) : result (list json) :=
  match or_else messages (Some (JArr [])) with
  | Some (JArr msgs) => parts ← mapM converted_message msgs; Return (concat parts)
  | Some (JStr _) => Return []
  | other => Throw (TypeError (lit "iterator") other)
  end.

(** [groqBody] *)
Definition groqBody (body : json) : result json :=
  system ← get (lit "system") (Some body);
  let first :=
    if Js.truthy system
    then [literal [(lit "role", Some (JStr (lit "system"))); (lit "content", system)]]
    else [] in
  messages ← get (lit "messages") (Some body);
  rest ← converted_messages messages;
  max_tokens ← get (lit "max_tokens") (Some body);
  Return (literal
    [ (lit "model", Some (JStr (lit "llama-3.3-70b-versatile")));
      (lit "max_tokens", or_else max_tokens (Some (integer 1500)));
      (lit "messages", Some (JArr (first ++ rest)));
      (lit "temperature", Some (JNum (number_of_decimal false 7 (-1)))) ]).

(** The request sent on. *)
Definition forwarded (groq_body : json) : Request := {|
  req_method := lit "POST";
  req_url := lit "https://api.groq.com/openai/v1/chat/completions";
  req_headers := [ content_type;
                   (lit "Authorization", lit "Bearer " ++ env_text api_key) ];
  req_body := stringify groq_body;
|}.

(** [data.error?.message || `Groq error ${response.status}`] *)
Definition error_message (data : json) (st : N) : result value :=
  error ← get (lit "error") (Some data);
  Return (or_else (get_opt (lit "message") error)
                  (Some (JStr (lit "Groq error " ++ digits st)))).

(** [data.choices?.[0]?.message?.content || ""] *)
Definition answer_text (data : json) : result value :=
  choices ← get (lit "choices") (Some data);
  Return (or_else (get_opt (lit "content") (get_opt (lit "message") (first_opt choices)))
                  (Some (JStr []))).

(** [converted] *)
Definition converted (text : value) : json :=
  literal
    [ (lit "content",
       Some (JArr [literal [(lit "type", Some (JStr (lit "text"))); (lit "text", text)]]));
      (lit "stop_reason", Some (JStr (lit "end_turn"))) ].

(** The request that the handler gives to [fetch]. *)
Definition outgoing (req : Request) : result Request :=
  body ← parse (req_body req);
  groq_body ← groqBody body;
  Return (forwarded groq_body).

(** The [try] block. *)
Definition relay (req : Request) : result Response :=
  q ← outgoing req;
  match fetch q with
  | Failed m => Throw (FetchError m)
  | Answer response =>
      data ← parse (resp_body response);
      if negb (ok response) then
        m ← error_message data (status response);
        new_Response (stringify (literal [(lit "error", Some (literal [(lit "message", m)]))]))
          (status response) [content_type; allow_origin]
      else
        text ← answer_text data;
        new_Response (stringify (converted text)) 200 [content_type; allow_origin]
  end.

Definition handler (req : Request) : Response :=
  if negb (bool_decide (req_method req = lit "POST"))
  then {| status := 405; resp_headers := []; resp_body := lit "Method not allowed" |}
  else
    match relay req with
    | Return r => r
    | Throw e =>
        {| status := 500; resp_headers := [content_type; allow_origin];
           resp_body := error_body (JStr (message builtin_message e)) |}
    end.

End handler.

End GroqProxy.

(** ** The client side: [CLAUDE] and [ask] *)

Module Api.
Import JsString Json Js Http.
Local Open Scope N_scope.

Section client.
Variable number_to_string : number -> list N.
(** The browser's [fetch]. *)
Variable fetch : Request -> Fetched.

(** [body] in [CLAUDE] *)
Definition request_body (messages : json) (system : list N) (maxTokens : number)
    (tools : value) : json :=
  JObj ([ (lit "model", JStr (lit "claude-sonnet-4-5"));
          (lit "max_tokens", JNum maxTokens);
          (lit "system", JStr system);
          (lit "messages", messages) ]
        ++ match tools with
           | Some t => if Json.truthy t then [(lit "tools", t)] else []
           | None => []
           end).

Definition CLAUDE (messages : json) (system : list N) (maxTokens : number)
    (tools : value) : result json :=
  match fetch {| req_method := lit "POST"; req_url := lit "/api/claude";
                 req_headers := [content_type];
                 req_body := stringify (request_body messages system maxTokens tools) |} with
  | Failed m => Throw (FetchError m)
  | Answer r =>
      if negb (ok r)
      then Throw (Error (lit "API " ++ digits (status r) ++ lit ": "
                         ++ slice0 200 (resp_body r)))
      else parse (resp_body r)
  end.

(** [(d.content || []).filter(...).map(...).join("\n")] *)
Definition answer_text (d : json) : result (list N) :=
  content ← get (lit "content") (Some d);
  match or_else content (Some (JArr [])) with
  | Some (JArr bs) => blocks_text number_to_string bs
  | other => Throw (TypeError (lit "filter") other)
  end.

Definition ask (prompt system : list N) (maxTokens : number) : result (list N) :=
  d ← CLAUDE (JArr [JObj [(lit "role", JStr (lit "user")); (lit "content", JStr prompt)]])
         system maxTokens None;
  answer_text d.

End client.

End Api.

(** ** The request of [analyze] *)

Module Analyze.
Import JsString Json.




Definition profile_tokens : number := number_of_decimal false 800 0.

End Analyze.

(** ** The reader of PDF files *)

Module Readers.
Import JsString.
Local Open Scope N_scope.

(** [strs.join(sep)] for strings. *)
Fixpoint join_text (sep : list N) (strs : list (list N)) : list N :=
  match strs with
  | [] => []
  | [s] => s
  | s :: rest => s ++ sep ++ join_text sep rest
  end.



End Readers.

(** * Notions used in the properties below *)

(** ** What each step of the session has to show *)

Module DataSpec.
Import JsString Json Parser Sanitizer App SessionSpec.


End DataSpec.

(** ** What a session keeps *)

Module HistorySpec.
Import JsString Json Parser Sanitizer App.

(** Nothing that was stored or sent in [s] is missing in [s']: every key of
    the two artifact caches is still there, a stored profile and a non-empty
    list of listings are still there, and the requests sent are a prefix of
    those sent by [s']. *)
Definition keeps (s s' : State) : Prop :=
  (forall id, is_Some (letters s !! id) -> is_Some (letters s' !! id)) /\
  (forall id, is_Some (tips s !! id) -> is_Some (tips s' !! id)) /\
  (is_Some (profile s) -> is_Some (profile s')) /\
  (jobs s <> [] -> jobs s' <> []) /\
  calls s `prefix_of` calls s'.

(** The events that send a request when their handler runs. *)
Definition asks (ev : Event) : bool :=
  match ev with
  | ClickAnalyze | ClickFindJobs | ClickLetter _ | ClickTips _ => true
  | _ => false
  end.

End HistorySpec.

(** ** Requests that fail *)

Module FailureSpec.
Import JsString Json Parser Sanitizer App.



End FailureSpec.

(** ** File names *)

Module UploadSpec.
Import JsString Json Parser Sanitizer App.

(** The extensions [readFile] has a reader for. *)
Definition readable : list (list N) := [lit "pdf"; lit "docx"; lit "doc"; lit "txt"].

End UploadSpec.

(** ** Answers that wrap the value *)

Module WrappedSpec.
Import JsString Json Parser.
Local Open Scope N_scope.

(** Only whitespace (what [trim] removes). *)
Definition blank (w : list N) : Prop := Forall (fun c => is_space c = true) w.

(** The opening marker of a fenced block: three backticks, or three backticks
    and the word [json] in any letter case. *)
Definition fence_open (o : list N) : Prop :=
  o = lit "```" \/
  exists a b c d, o = lit "```" ++ [a; b; c; d] /\ is_json_word a b c d = true.

(** A text that begins, after whitespace, with a character that no JSON text
    begins with and that is not a backtick: a capital letter, say. *)
Definition prose (p : list N) : Prop :=
  exists w c r, p = w ++ c :: r /\ blank w /\ is_space c = false /\ c <> 96 /\
    ~ JsonSpec.value_start c.

(** Three backticks in a row somewhere in the text. *)
Definition has_fence (t : list N) : Prop := exists a b, t = a ++ lit "```" ++ b.

End WrappedSpec.

Module FenceSpec.
Import JsString Json Parser.
Local Open Scope N_scope.

(** The number of backticks at the head of a text. *)
Fixpoint lead (t : list N) : nat :=
  match t with
  | c :: r => if c =? 96 then S (lead r) else 0
  | [] => 0
  end.

End FenceSpec.

(** ** Reading a value again *)

Module ReparseSpec.
Import JsString Json.

(** The value with [null] in the place of every infinite number: what
    [JSON.stringify] writes of a value. *)
Fixpoint nullify (v : json) : json :=
  match v with
  | JNum (Infinity _) => JNull
  | JArr vs => JArr (List.map nullify vs)
  | JObj kvs => JObj (List.map (fun kv => (kv.1, nullify kv.2)) kvs)
  | _ => v
  end.

End ReparseSpec.

(** ** Values that may be missing *)

Module ValueSpec.
Import JsString Json Js JsonSpec.

(** What is well formed for a value that may be [undefined]. *)
Definition well_formed_value (v : value) : Prop :=
  match v with Some j => well_formed j | None => True end.

End ValueSpec.

(** ** From [ask] to the API and back *)

Module Chain.
Import JsString Json Js Http App.
Local Open Scope N_scope.

Section chain.
Variable number_to_string : number -> list N.
Variable builtin_message : Exn -> list N.
Variable api_key : option (list N).
(** The API behind the proxy. *)
Variable upstream : Request -> Fetched.

(** The browser's [fetch] when the proxy behind [/api/claude] is the one to
    the Groq API, and when it is the one to the Anthropic API. *)
Definition through_groq (q : Request) : Fetched :=
  Answer (GroqProxy.handler number_to_string builtin_message api_key upstream q).


End chain.

(** The message [ask] sends. *)
Definition user_message (prompt : list N) : json :=
  JObj [(lit "role", JStr (lit "user")); (lit "content", JStr prompt)].

(** The request that [ask] hands to [fetch]. *)
Definition ask_request (prompt system : list N) (maxTokens : number) : Request :=
  {| req_method := lit "POST"; req_url := lit "/api/claude";
     req_headers := [content_type];
     req_body := stringify (Api.request_body (JArr [user_message prompt])
                              system maxTokens None) |}.

(** The message that the proxy to the Groq API makes of [system]. *)
Definition system_message (system : list N) : json :=
  JObj [(lit "role", JStr (lit "system")); (lit "content", JStr system)].

(** The body that reaches the Groq API for a request of [ask]. *)
Definition groq_body (prompt system : list N) (maxTokens : number) : json :=
  JObj [ (lit "model", JStr (lit "llama-3.3-70b-versatile"));
         (lit "max_tokens", if number_truthy maxTokens then JNum maxTokens else integer 1500);
         (lit "messages",
          JArr ((if JsString.truthy system then [system_message system] else [])
                ++ [user_message prompt]));
         (lit "temperature", JNum (number_of_decimal false 7 (-1))) ].


End Chain.

(** ** The blocks of an answer *)

Module AnswerSpec.
Import JsString Json Js Readers.
Local Open Scope N_scope.

(** A content block as the API documents it: an object whose [type] is a
    string and whose [text], when the type is [text], is a string. *)
Definition is_block (b : json) : Prop :=
  exists o w, b = JObj o /\ get_member (lit "type") o = Some (JStr w) /\
    (w = lit "text" -> exists s, get_member (lit "text") o = Some (JStr s)).

(** The text of a text block. *)
Definition block_text (b : json) : option (list N) :=
  match field (lit "type") b, field (lit "text") b with
  | Some (JStr w), Some (JStr s) => if decide (w = lit "text") then Some s else None
  | _, _ => None
  end.

End AnswerSpec.

(** ** Answers of the APIs used as examples *)

Module ChainScenario.
Import JsString Json Js Http App.
Local Open Scope N_scope.

(** An engine whose built-in errors all carry the same message. *)
Definition plain_message (e : Exn) : list N := lit "error".


(** The Anthropic API refusing the key. *)
Definition anthropic_refusal : Response :=
  {| status := 401; resp_headers := [content_type];
     resp_body := jlit "{'type':'error','error':{'type':'authentication_error'}}" |}.

(** The Groq API answering with one choice. *)
Definition groq_answer : Response :=
  {| status := 200; resp_headers := [content_type];
     resp_body := jlit "{'choices':[{'message':{'role':'assistant','content':'Hello'}}]}" |}.


(** A request as the browser sends it. *)
Definition post (body : list N) : Request :=
  {| req_method := lit "POST"; req_url := lit "/api/claude";
     req_headers := [content_type]; req_body := body |}.

End ChainScenario.


(** * Properties *)

(** ** The session invariant holds in every reachable state *)

Module Session.
Import JsString Json Parser Sanitizer App SessionSpec.

Section list_facts.
Context {A : Type} (P : A -> Prop) `{!forall x, Decision (P x)}.

Lemma filter_delete_lookup (l : list A) (k : nat) (x : A) :
  l !! k = Some x ->
  length (filter P l) =
    (if decide (P x) then 1 else 0) + length (filter P (delete k l)).
Proof.
  revert k; induction l as [|y l IH]; intros [|k] Hk; simplify_eq/=.
  - rewrite filter_cons. destruct (decide (P x)); simpl; lia.
  - rewrite !filter_cons. specialize (IH _ Hk).
    destruct (decide (P y)); simpl; lia.
Qed.

Lemma Forall_delete (l : list A) (k : nat) :
  Forall P l -> Forall P (delete k l).
Proof.
  intros HF. eapply Forall_forall. intros x Hx.
  eapply Forall_forall in HF; [exact HF|].
  by eapply list_elem_of_delete_inv.
Qed.

Lemma filter_length_0 (l : list A) :
  length (filter P l) = 0 -> Forall (fun x => ~ P x) l.
Proof.
  induction l as [|y l IH]; [constructor|].
  rewrite filter_cons. destruct (decide (P y)); simpl; [lia|].
  intros; constructor; auto.
Qed.

Lemma Forall_not_filter (l : list A) :
  Forall (fun x => ~ P x) l -> filter P l = [].
Proof.
  induction 1 as [|y l Hy _ IH]; [done|].
  rewrite filter_cons. by destruct (decide (P y)).
Qed.
End list_facts.

Lemma idle_no_blocking s :
  busy s = false -> Forall (pending_ok s) (pending s) ->
  Forall (fun p => ~ blocking p = true) (pending s).
Proof.
  intros Hb HF. eapply Forall_impl; [exact HF|].
  intros [] H; simpl in *; try done; destruct H as [H _]; congruence.
Qed.

Lemma no_blocking_ok s (l : list Pending) :
  Forall (fun p => ~ blocking p = true) l -> Forall (pending_ok s) l.
Proof. intros HF. eapply Forall_impl; [exact HF|]. by intros []. Qed.

Lemma pending_ok_ext s s' p :
  busy s' = busy s -> step s' = step s -> resumeText s' = resumeText s ->
  pending_ok s p -> pending_ok s' p.
Proof. intros Hb Hs Ht. destruct p; simpl; rewrite ?Hb, ?Hs, ?Ht; auto. Qed.

Lemma in_flight_resume s k p key :
  pending s !! k = Some p ->
  in_flight s key = (if decide (key_of p = Some key) then 1 else 0)
                    + length (filter (fun p => key_of p = Some key) (delete k (pending s))).
Proof.
  intros H. unfold in_flight.
  exact (filter_delete_lookup (fun p => key_of p = Some key) (pending s) k p H).
Qed.

Lemma invariant_init : invariant init.
Proof.
  split; simpl; try done; try lia; auto.
  - inversion 1.
Qed.

Ltac idle s Hinv Hb :=
  let H1 := fresh "Hnb" in
  let H2 := fresh "Hnil" in
  pose proof (idle_no_blocking s Hb (inv_pending s Hinv)) as H1;
  pose proof (Forall_not_filter _ _ H1) as H2.

Ltac fields :=
  split; unfold in_flight in *; simpl in *;
  rewrite ?filter_app, ?length_app, ?Forall_app; simpl;
  try assumption; try lia; try congruence;
  try (by apply no_blocking_ok); try (by left);
  try (split; [by apply no_blocking_ok | by repeat constructor]).

Lemma invariant_step s ev s' : invariant s -> ui_step s ev s' -> invariant s'.
Proof.
  intros Hinv [Hr ->].
  destruct ev; simpl in Hr; try (apply andb_prop in Hr as [Hb Hr]; apply negb_true_iff in Hb;
     repeat match goal with H : _ && _ = true |- _ => apply andb_prop in H as [? ?] end;
     repeat match goal with H : bool_decide _ = true |- _ => apply bool_decide_eq_true in H end).
  - (* SelectFile *)
    idle s Hinv Hb. simpl. unfold readFile_start.
    destruct (supported _); destruct Hinv; fields.
    + rewrite Hnil; simpl; lia.
    + intros k Hk. specialize (inv_genId0 _ Hk). rewrite filter_app, length_app. lia.
  - (* ClickContinue *)
    idle s Hinv Hb. simpl. destruct (JsString.truthy (resumeText s)) eqn:Ht; [|done].
    destruct Hinv; fields. intros _ E. by rewrite E in Ht.
  - (* ClickProgress *)
    idle s Hinv Hb. simpl. destruct (i <? step s) eqn:Hi; [|done].
    apply Nat.ltb_lt in Hi. destruct Hinv; fields. intros; apply inv_left_upload0; lia.
  - (* ClickBack *)
    idle s Hinv Hb. simpl. destruct Hinv; fields. intros; apply inv_left_upload0; lia.
  - (* EditDetails *)
    idle s Hinv Hb. simpl. destruct Hinv; fields.
  - (* ClickAnalyze *)
    idle s Hinv Hb. simpl. unfold analyze_start. destruct Hinv; fields.
    + rewrite Hnil; simpl; lia.
    + intros k Hk. specialize (inv_genId0 _ Hk). rewrite filter_app, length_app. lia.
    + intros c [Hc|Hc]%elem_of_app; [by apply inv_calls0|].
      apply list_elem_of_singleton in Hc. injection Hc as ->.
      exists (resumeText s); split; [done|].
      destruct inv_text0 as [E|E]; [|done]. exfalso; apply inv_left_upload0; [lia|done].
  - (* ClickFindJobs *)
    idle s Hinv Hb. simpl. unfold findJobs_start. destruct Hinv; fields.
    + rewrite Hnil; simpl; lia.
    + intros k Hk. specialize (inv_genId0 _ Hk). rewrite filter_app, length_app. lia.
    + intros c [Hc|Hc]%elem_of_app; [by apply inv_calls0|].
      apply list_elem_of_singleton in Hc. discriminate.
  - (* ClickLetter *)
    idle s Hinv Hb. simpl. destruct (jobs s !! i) as [job|]; [|done].
    unfold getLetter_start. destruct (has_letter s (job_id job)); destruct Hinv; fields.
    + intros k [= <-]. rewrite filter_app, length_app, filter_cons_True by done. simpl; lia.
    + intros c [Hc|Hc]%elem_of_app; [by apply inv_calls0|].
      apply list_elem_of_singleton in Hc. discriminate.
  - (* ClickTips *)
    idle s Hinv Hb. simpl. destruct (jobs s !! i) as [job|]; [|done].
    unfold getTips_start. destruct (has_tips s (job_id job)); destruct Hinv; fields.
    + intros k [= <-]. rewrite filter_app, length_app, filter_cons_True by done. simpl; lia.
    + intros c [Hc|Hc]%elem_of_app; [by apply inv_calls0|].
      apply list_elem_of_singleton in Hc. discriminate.
  - idle s Hinv Hb. simpl. destruct Hinv; fields.
  - idle s Hinv Hb. simpl. destruct Hinv; fields.
  - idle s Hinv Hb. simpl. destruct Hinv; fields.
  - (* Settle *)
    simpl. destruct (pending s !! k) as [p|] eqn:Hk; [|done].
    pose proof (filter_delete_lookup (fun p => blocking p = true) _ _ _ Hk) as Hcount.
    pose proof (Forall_delete _ _ k (inv_pending s Hinv)) as Hrest.
    pose proof (proj1 (Forall_forall _ _) (inv_pending s Hinv) p
                  (list_elem_of_lookup_2 _ _ _ Hk)) as Hp.
    assert (Hblock : blocking p = true ->
              Forall (fun p => ~ blocking p = true) (delete k (pending s))).
    { intros Hbl. apply (filter_length_0 (fun p => blocking p = true)).
      pose proof (inv_blocking s Hinv). rewrite decide_True in Hcount by done. lia. }
    assert (Hfl : forall key, key_of p = None ->
              length (filter (fun p => key_of p = Some key) (delete k (pending s)))
              = in_flight s key).
    { intros key Hnone. rewrite (in_flight_resume s k p key Hk).
      rewrite decide_False by congruence. done. }
    assert (Hsame : forall s', busy s' = busy s -> step s' = step s ->
              resumeText s' = resumeText s ->
              Forall (pending_ok s') (delete k (pending s))).
    { intros s' ? ? ?. eapply Forall_impl; [exact Hrest|].
      intros q. by apply pending_ok_ext. }
    destruct p; simpl in Hp; simpl.
    + (* readFile *)
      destruct Hp as [Hbusy Hstep]. specialize (Hblock eq_refl).
      pose proof (Forall_not_filter _ _ Hblock) as Hnil.
      unfold readFile_resume. destruct o as [txt|msg];
        [destruct (negb (JsString.truthy txt) || (length (trim txt) <? MIN_CHARS)) eqn:Hc|];
        destruct Hinv; fields;
        try (by intros key Hkey; rewrite Hfl by done; apply inv_genId0).
      apply orb_false_iff in Hc as [_ Hc]. apply Nat.ltb_ge in Hc. by right.
    + (* analyze *)
      destruct Hp as (Hbusy & Hstep & ->). specialize (Hblock eq_refl).
      pose proof (Forall_not_filter _ _ Hblock) as Hnil.
      unfold analyze_resume. destruct o as [raw|msg]; destruct Hinv; fields;
        try (by intros key Hkey; rewrite Hfl by done; apply inv_genId0).
      intros _. apply inv_left_upload0. lia.
    + (* findJobs *)
      destruct Hp as (Hbusy & Hstep). specialize (Hblock eq_refl).
      pose proof (Forall_not_filter _ _ Hblock) as Hnil.
      unfold findJobs_resume. destruct o as [raw|msg];
        [destruct (parseJSON raw) as [| | | |[|j items]|]|]; destruct Hinv; fields;
        try (by intros key Hkey; rewrite Hfl by done; apply inv_genId0).
      intros _. apply inv_left_upload0. lia.
    + (* getLetter *)
      rewrite decide_False in Hcount by done.
      unfold getLetter_resume. destruct o as [txt|msg]; destruct Hinv; fields;
        try (by apply Hsame).
    + (* getTips *)
      rewrite decide_False in Hcount by done.
      unfold getTips_resume. destruct o as [raw|msg];
        [destruct (Json.truthy (parseJSON raw)) eqn:Htr|]; destruct Hinv; fields;
        try (by apply Hsame).
      intros id v. rewrite lookup_insert. case_decide; [|by apply inv_tips0].
      by intros [= <-].
Qed.

Lemma reachable_invariant s : reachable s -> invariant s.
Proof.
  induction 1 as [|s ev s' _ IH Hstep]; [apply invariant_init|].
  by eapply invariant_step.
Qed.

End Session.

(** ** The text sanitizer *)

Module SanitizerFacts.
Import JsString Sanitizer SanitizerSpec.

Lemma safe_printable c : safe c = true <-> printable c.
Proof.
  unfold safe, printable.
  rewrite !orb_true_iff, andb_true_iff, !N.leb_le, !N.eqb_eq. tauto.
Qed.


Lemma strip_unsafe_safe s : Forall (fun c => safe c = true) (strip_unsafe s).
Proof.
  unfold strip_unsafe. apply Forall_fmap, Forall_true. intros c. simpl.
  by destruct (safe c) eqn:E.
Qed.

Lemma collapse_runs_cons f c r :
  collapse_runs (S f) (c :: r) =
  if 4 <=? ws_run (c :: r)
  then 32%N :: 32%N :: 32%N :: collapse_runs f (drop (ws_run (c :: r)) (c :: r))
  else c :: collapse_runs f r.
Proof. reflexivity. Qed.

Lemma ws_run_cons c r :
  ws_run (c :: r) = if is_space c then S (ws_run r) else 0.
Proof. reflexivity. Qed.

Section preserved.
Variable P : N -> Prop.

Lemma collapse_runs_Forall f : forall s,
  P 32%N -> Forall P s -> Forall P (collapse_runs f s).
Proof.
  induction f as [|f IH]; intros s H32 Hs; [done|].
  destruct s as [|c r]; [done|]. rewrite collapse_runs_cons.
  destruct (4 <=? ws_run (c :: r)).
  - repeat (constructor; [done|]). apply IH; [done|]. by apply Forall_drop.
  - inversion_clear Hs. constructor; [done|]. by apply IH.
Qed.

Lemma trimStart_Forall s : Forall P s -> Forall P (trimStart s).
Proof.
  induction 1 as [|c r Hc Hr IH]; simpl; [done|].
  destruct (is_space c); [done|]. by constructor.
Qed.

Lemma trim_Forall s : Forall P s -> Forall P (trim s).
Proof.
  intros H. unfold trim, trimEnd.
  by apply Forall_rev, trimStart_Forall, Forall_rev, trimStart_Forall.
Qed.
End preserved.

Lemma ws_run_drop s : ws_run (drop (ws_run s) s) = 0.
Proof.
  induction s as [|c r IH]; simpl; [done|].
  destruct (is_space c) eqn:E; simpl; [done|]. by rewrite E.
Qed.

Lemma ws_run_length s : ws_run s <= length s.
Proof. induction s as [|c r IH]; simpl; [lia|]. destruct (is_space c); simpl; lia. Qed.

Lemma collapse_runs_short f : forall s,
  ws_run s < 4 -> ws_run (collapse_runs f s) = ws_run s.
Proof.
  induction f as [|f IH]; intros s Hs; [done|].
  destruct s as [|c r]; [done|]. rewrite collapse_runs_cons.
  destruct (4 <=? ws_run (c :: r)) eqn:E; [apply Nat.leb_le in E; lia|].
  rewrite !ws_run_cons in *. destruct (is_space c); [|done]. rewrite IH; lia.
Qed.

Lemma collapse_runs_short_runs f : forall s,
  length s <= f -> short_runs (collapse_runs f s).
Proof.
  induction f as [|f IH]; intros s Hlen.
  { destruct s; [|simpl in Hlen; lia]. intros i. simpl. rewrite drop_nil. simpl; lia. }
  destruct s as [|c r]; [intros i; simpl; rewrite drop_nil; simpl; lia|].
  rewrite collapse_runs_cons.
  destruct (4 <=? ws_run (c :: r)) eqn:E.
  - apply Nat.leb_le in E.
    set (rest := drop (ws_run (c :: r)) (c :: r)).
    assert (ws_run (collapse_runs f rest) = 0) as H0.
    { rewrite collapse_runs_short; unfold rest; rewrite ws_run_drop; lia. }
    assert (short_runs (collapse_runs f rest)) as Hrest.
    { apply IH. unfold rest. rewrite length_drop. simpl length in *. lia. }
    intros [|[|[|i]]]; simpl; rewrite ?H0; try lia. apply Hrest.
  - apply Nat.leb_gt in E. simpl in Hlen.
    intros [|i]; [|apply IH; lia]. simpl drop.
    rewrite ws_run_cons in *. destruct (is_space c); [|lia].
    rewrite collapse_runs_short; lia.
Qed.


Lemma trimStart_head s c : head (trimStart s) = Some c -> is_space c = false.
Proof.
  induction s as [|x r IH]; simpl; [done|].
  destruct (is_space x) eqn:E; [done|]. simpl. by intros [= <-].
Qed.

Lemma trimStart_snoc l c :
  is_space c = false -> exists l', trimStart (l ++ [c]) = l' ++ [c].
Proof.
  intros Hc. induction l as [|x l IH]; simpl.
  - rewrite Hc. by exists [].
  - destruct (is_space x); [done|]. by exists (x :: l).
Qed.

Lemma last_rev (l : list N) : last (rev l) = head l.
Proof. destruct l as [|x l]; [done|]. simpl. apply last_snoc. Qed.

Lemma trim_trimmed s : trimmed (trim s).
Proof.
  unfold trim, trimEnd. split; intros c.
  - destruct (trimStart s) as [|x t] eqn:Et; [done|].
    assert (is_space x = false) as Hx by (apply (trimStart_head s); by rewrite Et).
    simpl rev. destruct (trimStart_snoc (rev t) x Hx) as [l' ->].
    rewrite rev_app_distr. simpl. by intros [= <-].
  - rewrite last_rev. apply trimStart_head.
Qed.


End SanitizerFacts.

(** ** The structured-output parser *)

Module ParserFacts.
Import JsString Json Parser ParserSpec.
Local Open Scope N_scope.

Lemma greedy_to_last close s :
  greedy_to close s =
  match last_index close s with
  | Some j => Some (take (S j) s)
  | None => None
  end.
Proof.
  induction s as [|c r IH]; simpl; [done|].
  rewrite IH. destruct (last_index close r) as [j|]; [done|].
  by destruct (c =? close).
Qed.

Lemma between_no_close open close t :
  last_index close t = None -> between open close t = None.
Proof. unfold between. intros ->. by destruct (first_index open t). Qed.

Lemma match_bracketed_between open close t :
  match_bracketed open close t = between open close t.
Proof.
  induction t as [|c r IH]; [done|].
  simpl match_bracketed. rewrite greedy_to_last, IH.
  change (between open close (c :: r)) with
    (match (if c =? open then Some 0%nat else S <$> first_index open r),
           (match last_index close r with
            | Some j => Some (S j)
            | None => if c =? close then Some 0%nat else None
            end) with
     | Some i, Some j =>
         if (i <? j)%nat then Some (take (S j - i) (drop i (c :: r))) else None
     | _, _ => None
     end).
  destruct (c =? open) eqn:Eo.
  - destruct (last_index close r) as [j|] eqn:Ej; simpl; [done|].
    rewrite between_no_close by done. by destruct (c =? close).
  - unfold between.
    destruct (first_index open r) as [i|], (last_index close r) as [j|]; simpl; try done.
    destruct (c =? close); done.
Qed.

(** *** The parser never runs out of fuel *)














#[local] Arguments keyword : simpl never.
#[local] Arguments lex_number : simpl never.
#[local] Arguments object_of : simpl never.


Ltac split_matches :=
  repeat (match goal with
          | |- context [match ?x with _ => _ end] => destruct x eqn:?
          end; simplify_eq/=; try done).



Lemma parseJSON_cascade (txt : list N) : parseJSON txt = cascade txt.
Proof.
  unfold parseJSON, cascade. destruct txt as [|c r]; [done|].
  simpl first_success. unfold strategy_direct, strategy_fenced, strategy_array,
    strategy_object. rewrite !match_bracketed_between.
  destruct (JSON_parse (trim (c :: r))); [done|].
  destruct (JSON_parse (trim (strip_fences (c :: r)))); [done|].
  destruct (between 91 93 (c :: r)) as [m|]; simpl.
  - destruct (JSON_parse m); [done|].
    destruct (between 123 125 (c :: r)) as [m'|]; simpl; [|done].
    by destruct (JSON_parse m').
  - destruct (between 123 125 (c :: r)) as [m'|]; simpl; [|done].
    by destruct (JSON_parse m').
Qed.



End ParserFacts.

(** ** Reading numbers *)

Module NumberFacts.
Import JsString Json JsonSpec.
Local Open Scope Z_scope.

Lemma pow2_pos (e : Z) : (0 < 2 ^ e)%Q.
Proof. by apply Qpower_0_lt. Qed.

Lemma pow2_nonzero (e : Z) : ~ (2 ^ e == 0)%Q.
Proof. pose proof (pow2_pos e) as H. intros E. rewrite E in H. by apply Qlt_irrefl in H. Qed.

Lemma pow2_le (n m : Z) : n <= m -> (2 ^ n <= 2 ^ m)%Q.
Proof. intros. by apply Qpower_le_compat_l. Qed.

Lemma pow2_lt (n m : Z) : n < m -> (2 ^ n < 2 ^ m)%Q.
Proof. intros. by apply Qpower_lt_compat_l. Qed.

Lemma pow2_lt_inv (n m : Z) : (2 ^ n < 2 ^ m)%Q -> n < m.
Proof. intros. by eapply Qpower_lt_compat_l_inv. Qed.

Lemma pow2_plus (n m : Z) : (2 ^ (n + m) == 2 ^ n * 2 ^ m)%Q.
Proof. by apply Qpower_plus. Qed.

Lemma pow2_inject (n : Z) : 0 <= n -> (inject_Z (2 ^ n) == 2 ^ n)%Q.
Proof. intros. by rewrite Zpower_Qpower. Qed.

(** The binary logarithm of a positive integer, as an inequality between
    rationals. *)
Lemma log2_bounds (a : Z) :
  0 < a -> (2 ^ Z.log2 a <= inject_Z a)%Q /\ (inject_Z a < 2 ^ (Z.log2 a + 1))%Q.
Proof.
  intros Ha. pose proof (Z.log2_spec a Ha) as [H1 H2].
  pose proof (Z.log2_nonneg a) as Hn.
  rewrite <- !pow2_inject by lia. rewrite <- Zle_Qle, <- Zlt_Qlt.
  split; [done|]. by rewrite <- Z.add_1_r in H2.
Qed.

Lemma ilog2_bounds (v : Q) :
  (0 < v)%Q -> (2 ^ ilog2 v <= v)%Q /\ (v < 2 ^ (ilog2 v + 1))%Q.
Proof.
  intros Hv. unfold ilog2.
  destruct v as [a b]. simpl Qnum. simpl Qden.
  assert (0 < a) as Ha.
  { unfold Qlt in Hv. simpl in Hv. lia. }
  destruct (log2_bounds a Ha) as [Ha1 Ha2].
  destruct (log2_bounds (Zpos b) eq_refl) as [Hb1 Hb2].
  set (la := Z.log2 a) in *. set (lb := Z.log2 (Z.pos b)) in *.
  assert ((a # b) == inject_Z a / inject_Z (Zpos b))%Q as Hab.
  { by rewrite Qmake_Qdiv. }
  assert (0 < inject_Z (Zpos b))%Q as Hbpos by (by rewrite <- (Zlt_Qlt 0)).
  destruct (Qle_bool (2 ^ (la - lb)) (a # b)) eqn:E.
  - apply Qle_bool_iff in E. split; [done|].
    rewrite Hab. apply Qlt_shift_div_r; [done|].
    eapply Qlt_le_trans; [exact Ha2|].
    replace (la + 1) with ((la - lb + 1) + lb) by lia.
    rewrite pow2_plus. apply Qmult_le_l; [apply pow2_pos|done].
  - assert (~ (2 ^ (la - lb) <= a # b)%Q) as E'.
    { intros H%Qle_bool_iff. congruence. }
    apply Qnot_le_lt in E'. split.
    + rewrite Hab. apply Qle_shift_div_l; [done|].
      eapply Qle_trans; [|exact Ha1].
      replace la with ((la - lb - 1) + (lb + 1)) at 2 by lia.
      rewrite pow2_plus. apply Qmult_le_l; [apply pow2_pos|]. by apply Qlt_le_weak.
    + by replace (la - lb - 1 + 1) with (la - lb) by lia.
Qed.

Lemma ilog2_unique (v : Q) (L : Z) :
  (2 ^ L <= v)%Q -> (v < 2 ^ (L + 1))%Q -> ilog2 v = L.
Proof.
  intros H1 H2.
  assert (0 < v)%Q as Hv by (eapply Qlt_le_trans; [apply pow2_pos|exact H1]).
  destruct (ilog2_bounds v Hv) as [H3 H4].
  assert (L < ilog2 v + 1) by (apply pow2_lt_inv; by eapply Qle_lt_trans).
  assert (ilog2 v < L + 1) by (apply pow2_lt_inv; by eapply Qle_lt_trans).
  lia.
Qed.

(** *** Rounding to an integer *)

Lemma rne_proper (x y : Q) : (x == y)%Q -> rne x = rne y.
Proof.
  intros E. unfold rne. rewrite (Qfloor_comp x y E).
  assert (Qcompare (x - inject_Z (Qfloor y)) (1 # 2)
          = Qcompare (y - inject_Z (Qfloor y)) (1 # 2)) as ->; [|done].
  apply Qcompare_comp; [|reflexivity]. apply Qplus_comp; [exact E|reflexivity].
Qed.

Lemma rne_inject (m : Z) : rne (inject_Z m) = m.
Proof.
  unfold rne. rewrite Qfloor_Z.
  assert (Qcompare (inject_Z m - inject_Z m) (1 # 2) = Qcompare 0 (1 # 2)) as ->; [|done].
  apply Qcompare_comp; [ring|reflexivity].
Qed.

Lemma rne_floor (x : Q) : Qfloor x <= rne x <= Qfloor x + 1.
Proof.
  unfold rne. destruct (Qcompare _ _); [destruct (Z.even _)| |]; lia.
Qed.

Lemma rne_lower (x : Q) (a : Z) : (inject_Z a <= x)%Q -> a <= rne x.
Proof.
  intros H%Qfloor_resp_le. rewrite Qfloor_Z in H.
  pose proof (rne_floor x). lia.
Qed.

Lemma rne_upper (x : Q) (b : Z) : (x <= inject_Z b)%Q -> rne x <= b.
Proof.
  intros H. pose proof (Qfloor_resp_le _ _ H) as Hq. rewrite Qfloor_Z in Hq.
  destruct (Z.eq_dec (Qfloor x) b) as [E|E]; [|pose proof (rne_floor x); lia].
  assert (x == inject_Z b)%Q as Hx.
  { apply Qle_antisym; [done|]. rewrite <- E. apply Qfloor_le. }
  rewrite (rne_proper _ _ Hx), rne_inject. lia.
Qed.

(** *** Rounding to binary64 *)

(** A value that is a binary64 number is rounded to itself. *)
Lemma round_exact (negative : bool) (v : Q) (m e : Z) :
  0 < m -> canonical m e -> (v == inject_Z m * 2 ^ e)%Q ->
  round_binary64 negative v = Finite (if negative then - m else m) e.
Proof.
  intros Hm Hcan Hv. unfold round_binary64.
  destruct Hcan as [[-> _]|(Hrange & He & Hnorm)]; [lia|].
  rewrite Z.abs_eq in * by lia. unfold precision, emin, emax in *.
  assert (0 < v)%Q as Hpos.
  { rewrite Hv. apply Qmult_lt_0_compat; [by rewrite <- (Zlt_Qlt 0)|apply pow2_pos]. }
  assert (Qle_bool v 0 = false) as ->.
  { apply not_true_is_false. intros H%Qle_bool_iff. by apply (Qlt_not_le _ _ Hpos). }
  assert (ilog2 v = Z.log2 m + e) as ->.
  { destruct (log2_bounds m Hm) as [H1 H2]. apply ilog2_unique; rewrite Hv.
    - rewrite pow2_plus. apply Qmult_le_r; [apply pow2_pos|done].
    - replace (Z.log2 m + e + 1) with (Z.log2 m + 1 + e) by lia.
      rewrite pow2_plus. apply Qmult_lt_r; [apply pow2_pos|done]. }
  assert (Z.max (-1074) (Z.log2 m + e - (53 - 1)) = e) as ->.
  { pose proof (Z.log2_lt_pow2 m 53 Hm) as Hlt.
    destruct Hnorm as [Hn| ->]; [|lia].
    pose proof (Z.log2_le_pow2 m 52 Hm). lia. }
  assert (v / 2 ^ e == inject_Z m)%Q as Hdiv.
  { rewrite Hv. field. apply pow2_nonzero. }
  rewrite (rne_proper _ _ Hdiv), rne_inject.
  assert ((m =? 2 ^ 53) = false) as -> by lia.
  assert ((m =? 0) = false) as -> by lia.
  assert ((971 <? e) = false) as -> by lia.
  done.
Qed.

(** A finite result of rounding is in canonical form. *)
Lemma round_canonical (negative : bool) (v : Q) (m e : Z) :
  round_binary64 negative v = Finite m e -> canonical m e.
Proof.
  unfold round_binary64.
  destruct (Qle_bool v 0) eqn:Hv0; [intros [= <- <-]; by left|].
  assert (0 < v)%Q as Hpos.
  { apply Qnot_le_lt. intros H%Qle_bool_iff. congruence. }
  destruct (ilog2_bounds v Hpos) as [HL1 HL2].
  set (L := ilog2 v) in *. unfold precision, emin, emax.
  set (E := Z.max (-1074) (L - (53 - 1))).
  set (M := rne (v / 2 ^ E)).
  assert (0 <= M) as HM0.
  { apply rne_lower. apply Qle_shift_div_l; [apply pow2_pos|].
    rewrite Qmult_0_l. by apply Qlt_le_weak. }
  assert (M <= 2 ^ 53) as HM1.
  { apply rne_upper. apply Qle_shift_div_r; [apply pow2_pos|].
    rewrite pow2_inject by lia. rewrite <- pow2_plus.
    apply Qlt_le_weak. eapply Qlt_le_trans; [exact HL2|]. apply pow2_le. lia. }
  assert (-1074 < E -> 2 ^ 52 <= M) as HM2.
  { intros HE. apply rne_lower. apply Qle_shift_div_l; [apply pow2_pos|].
    rewrite pow2_inject by lia. rewrite <- pow2_plus.
    eapply Qle_trans; [|exact HL1]. apply pow2_le. lia. }
  assert (-1074 <= E) as HE by lia.
  destruct (M =? 2 ^ 53) eqn:E53.
  - simpl. destruct (971 <? E + 1) eqn:Eov; [done|].
    intros [= <- <-]. right. unfold precision, emin, emax.
    destruct negative; simpl; lia.
  - destruct (M =? 0) eqn:E0; [intros [= <- <-]; by left|].
    destruct (971 <? E) eqn:Eov; [done|].
    intros [= <- <-]. right. unfold precision, emin, emax.
    assert (Z.abs (if negative then - M else M) = M) as -> by (destruct negative; lia).
    repeat split; lia.
Qed.

(** *** Decimal digits *)

Local Open Scope N_scope.

Lemma is_digit_iff c : is_digit c = true <-> 48 <= c <= 57.
Proof. unfold is_digit. rewrite andb_true_iff, !N.leb_le. done. Qed.

Lemma digits_fuel_S f n :
  digits_fuel (S f) n =
  if n <? 10 then [48 + n] else digits_fuel f (n / 10) ++ [48 + n mod 10].
Proof. reflexivity. Qed.

Lemma digits_fuel_digit f : forall n, Forall (fun c => is_digit c = true) (digits_fuel f n).
Proof.
  induction f as [|f IH]; intros n; [done|]. rewrite digits_fuel_S.
  destruct (n <? 10) eqn:E.
  - constructor; [|done]. apply N.ltb_lt in E. apply is_digit_iff. lia.
  - apply Forall_app; split; [apply IH|]. constructor; [|done].
    assert (n mod 10 < 10) as H by (by apply N.mod_lt). apply is_digit_iff.
    revert H. generalize (n mod 10). intros; lia.
Qed.

Lemma digits_value_snoc ds d : digits_value (ds ++ [d]) = 10 * digits_value ds + d.
Proof. unfold digits_value. by rewrite fold_left_app. Qed.

Lemma digits_fuel_value f : forall n,
  n < 2 ^ N.of_nat f ->
  digits_value (List.map (fun c => c - 48) (digits_fuel f n)) = n.
Proof.
  induction f as [|f IH]; intros n Hn.
  - change (n < 1) in Hn. unfold digits_value. simpl. lia.
  - rewrite digits_fuel_S. destruct (n <? 10) eqn:E.
    + apply N.ltb_lt in E. unfold digits_value. cbn [List.map fold_left]. lia.
    + apply N.ltb_ge in E. rewrite List.map_app. cbn [List.map]. rewrite digits_value_snoc.
      rewrite IH.
      * assert (n = 10 * (n / 10) + n mod 10) as H by (by apply N.div_mod).
        revert H. generalize (n / 10) (n mod 10). intros; lia.
      * rewrite Nat2N.inj_succ, N.pow_succ_r' in Hn.
        apply N.Div0.div_lt_upper_bound. lia.
Qed.

Lemma digits_fuel_head f : forall n,
  0 < n -> n < 2 ^ N.of_nat f ->
  exists c r, digits_fuel f n = c :: r /\ c <> 48.
Proof.
  induction f as [|f IH]; intros n Hpos Hn.
  - change (n < 1) in Hn. lia.
  - rewrite digits_fuel_S. destruct (n <? 10) eqn:E.
    + exists (48 + n), []. split; [done|lia].
    + apply N.ltb_ge in E.
      destruct (IH (n / 10)) as (c & r & -> & Hc).
      * apply N.div_str_pos. lia.
      * rewrite Nat2N.inj_succ, N.pow_succ_r' in Hn.
        apply N.Div0.div_lt_upper_bound. lia.
      * by exists c, (r ++ [48 + n mod 10]).
Qed.

Lemma digits_fuel_enough n : n < 2 ^ N.of_nat (S (N.to_nat (N.log2 n))).
Proof.
  rewrite Nat2N.inj_succ, N2Nat.id.
  destruct (N.eq_dec n 0) as [->|Hn]; [done|].
  apply N.log2_spec. lia.
Qed.

Lemma digits_digit n : Forall (fun c => is_digit c = true) (digits n).
Proof. apply digits_fuel_digit. Qed.

Lemma digits_value_digits n : digits_value (List.map (fun c => c - 48) (digits n)) = n.
Proof. apply digits_fuel_value, digits_fuel_enough. Qed.

Lemma digits_zero : digits 0 = [48].
Proof. done. Qed.

Lemma digits_head n : 0 < n -> exists c r, digits n = c :: r /\ c <> 48.
Proof. intros. apply digits_fuel_head; [done|apply digits_fuel_enough]. Qed.

Lemma digits_nonempty n : digits n <> [].
Proof.
  unfold digits. rewrite digits_fuel_S. destruct (n <? 10); [done|].
  by destruct (digits_fuel _ (n / 10)).
Qed.

(** The digits of a number are read back as that number. *)

Lemma read_digits_app l rest :
  Forall (fun c => is_digit c = true) l -> not_digit_next rest ->
  read_digits (l ++ rest) = (List.map (fun c => c - 48) l, rest).
Proof.
  intros Hl Hrest. induction Hl as [|c l Hc _ IH]; simpl.
  - destruct rest as [|c r]; [done|]. simpl in *. by rewrite Hrest.
  - by rewrite Hc, IH.
Qed.

Lemma read_digits1_digits n rest :
  not_digit_next rest ->
  read_digits1 (digits n ++ rest) = Some (List.map (fun c => c - 48) (digits n), rest).
Proof.
  intros Hrest. unfold read_digits1.
  rewrite read_digits_app by (done || apply digits_digit).
  pose proof (digits_nonempty n). by destruct (digits n).
Qed.

Lemma lex_int_digits n rest :
  not_digit_next rest ->
  lex_int (digits n ++ rest) = Some (List.map (fun c => c - 48) (digits n), rest).
Proof.
  intros Hrest. destruct (N.eq_dec n 0) as [->|Hn]; [done|].
  destruct (digits_head n) as (c & r & E & Hc); [lia|].
  pose proof (digits_digit n) as Hd. rewrite E in Hd.
  assert (is_digit c = true) as Hcd by (by inversion Hd).
  pose proof (read_digits_app _ rest (digits_digit n) Hrest) as Hr.
  rewrite E in *. simpl app in *. unfold lex_int. rewrite Hcd.
  apply N.eqb_neq in Hc. rewrite Hc. by rewrite Hr.
Qed.

(** *** The text of a number is read back as that number *)

Lemma trailing_zeros_divide (m : Z) (t : Z) :
  (0 <= t <= trailing_zeros m)%Z -> (2 ^ t | m)%Z.
Proof.
  intros Ht.
  assert (forall p, (2 ^ Z.of_nat (trailing_zeros_pos p) | Zpos p)%Z) as Hp.
  { induction p as [p _|p IH|]; simpl trailing_zeros_pos;
      try (change (2 ^ Z.of_nat 0)%Z with 1%Z; apply Z.divide_1_l).
    rewrite Nat2Z.inj_succ, Z.pow_succ_r by lia.
    change (Zpos p~0) with (2 * Zpos p)%Z. by apply Z.mul_divide_mono_l. }
  assert (2 ^ t | 2 ^ trailing_zeros m)%Z as Hpow.
  { exists (2 ^ (trailing_zeros m - t))%Z. rewrite <- Z.pow_add_r by lia. f_equal; lia. }
  eapply Z.divide_trans; [exact Hpow|].
  destruct m as [|p|p]; simpl.
  - apply Z.divide_0_r.
  - apply Hp.
  - rewrite <- Pos2Z.opp_pos. apply Z.divide_opp_r, Hp.
Qed.

Lemma ten_pow (k : Z) : (10 ^ k == 2 ^ k * 5 ^ k)%Q.
Proof. rewrite <- Qmult_power. apply Qpower_comp; [reflexivity|done]. Qed.

(** The decimal that [number_text] writes denotes [|m| * 2^e]. *)
Lemma decimal_is_exact (m e : Z) :
  let t := Z.min (- e) (trailing_zeros m) in
  let k := (- e - t)%Z in
  (e < 0)%Z ->
  (inject_Z (Z.abs m / 2 ^ t * 5 ^ k) * 10 ^ (- k) == inject_Z (Z.abs m) * 2 ^ e)%Q.
Proof.
  intros t k He.
  assert (0 <= trailing_zeros m)%Z as Htz by (destruct m; simpl; lia).
  assert (0 <= t)%Z as Ht by lia. assert (0 <= k)%Z as Hk by lia.
  assert (2 ^ t | Z.abs m)%Z as Hdiv.
  { apply Z.divide_abs_r, trailing_zeros_divide. lia. }
  destruct Hdiv as [q Hq]. rewrite Hq.
  rewrite Z.div_mul by (apply Z.pow_nonzero; lia).
  assert (inject_Z (q * 5 ^ k) == inject_Z q * 5 ^ k)%Q as H1.
  { rewrite inject_Z_mult, Zpower_Qpower by lia. reflexivity. }
  assert (inject_Z (q * 2 ^ t) == inject_Z q * 2 ^ t)%Q as H2.
  { rewrite inject_Z_mult, Zpower_Qpower by lia. reflexivity. }
  assert (10 ^ (- k) == / (2 ^ k * 5 ^ k))%Q as H3.
  { rewrite Qpower_opp. apply Qinv_comp, ten_pow. }
  assert (2 ^ e == / (2 ^ k * 2 ^ t))%Q as H4.
  { replace e with (- (k + t))%Z by lia. rewrite Qpower_opp.
    apply Qinv_comp, pow2_plus. }
  rewrite H1, H2, H3, H4. field.
  repeat split; try apply pow2_nonzero. apply Qpower_not_0. done.
Qed.

Lemma lex_number_text (m e : Z) (rest : list N) :
  canonical m e -> number_end rest ->
  lex_number (number_text (Finite m e) ++ rest) = Some (Finite m e, rest).
Proof.
  intros Hcan Hend.
  assert (not_digit_next rest) as Hnd by (destruct rest; [done|apply Hend]).
  set (D := if (0 <=? e)%Z then Z.to_N (Z.abs m * 2 ^ e)
            else Z.to_N (Z.abs m / 2 ^ Z.min (- e) (trailing_zeros m)
                         * 5 ^ (- e - Z.min (- e) (trailing_zeros m)))).
  set (k := (- e - Z.min (- e) (trailing_zeros m))%Z).
  set (expo := if (0 <=? e)%Z then [] else
               if (k =? 0)%Z then [] else lit "e-" ++ digits (Z.to_N k)).
  assert (number_text (Finite m e) ++ rest
          = (if (m <? 0)%Z then [45] else []) ++ digits D ++ expo ++ rest) as ->.
  { unfold number_text, D, expo, k. cbv zeta.
    destruct (0 <=? e)%Z; rewrite <- ?app_assoc; done. }
  assert (Hminus : lex_minus ((if (m <? 0)%Z then [45] else []) ++ digits D ++ expo ++ rest)
                   = ((m <? 0)%Z, digits D ++ expo ++ rest)).
  { destruct (m <? 0)%Z; [done|]. simpl app.
    pose proof (digits_digit D) as Hd. pose proof (digits_nonempty D) as Hne.
    destruct (digits D) as [|c r]; [done|]. simpl.
    inversion_clear Hd as [|? ? Hc _]. apply is_digit_iff in Hc.
    assert ((c =? 45) = false) as -> by (apply N.eqb_neq; lia). done. }
  assert (Hexpo : not_digit_next (expo ++ rest) /\
                  lex_frac (expo ++ rest) = Some ([], expo ++ rest) /\
                  lex_exp (expo ++ rest)
                  = Some ((if (0 <=? e)%Z then 0 else - k)%Z, rest)).
  { assert (not_digit_next rest /\ lex_frac rest = Some ([], rest) /\
            lex_exp rest = Some (0%Z, rest)) as Hrest.
    { destruct rest as [|c r]; [done|]. destruct Hend as (Hc1 & Hc2 & Hc3 & Hc4).
      repeat split; [done| |]; simpl.
      - by assert ((c =? 46) = false) as -> by (by apply N.eqb_neq).
      - assert ((c =? 101) = false) as -> by (by apply N.eqb_neq).
        by assert ((c =? 69) = false) as -> by (by apply N.eqb_neq). }
    unfold expo. destruct (0 <=? e)%Z eqn:He; [done|].
    destruct (k =? 0)%Z eqn:Hk; [by apply Z.eqb_eq in Hk as ->|].
    change (lit "e-" ++ digits (Z.to_N k)) with (101 :: 45 :: digits (Z.to_N k)).
    repeat split.
    simpl app. unfold lex_exp. simpl orb. cbn iota. simpl lex_sign.
    cbn [fst snd]. rewrite read_digits1_digits by done.
    rewrite digits_value_digits. f_equal. f_equal.
    apply Z.leb_gt in He. unfold k in *. lia. }
  destruct Hexpo as (He1 & He2 & He3).
  unfold lex_number. rewrite Hminus. cbn [fst snd].
  rewrite lex_int_digits by done. rewrite He2, He3.
  rewrite app_nil_r, digits_value_digits. simpl length.
  unfold number_of_decimal. f_equal. f_equal.
  destruct (Z.eq_dec m 0%Z) as [->|Hm].
  - destruct Hcan as [[_ ->]|[? _]]; [|simpl in *; lia]. done.
  - assert (canonical (Z.abs m) e) as Hcan'.
    { destruct Hcan as [[-> _]|H]; [done|]. right. by rewrite Z.abs_idemp. }
    rewrite (round_exact _ _ (Z.abs m) e); [| lia | done |].
    + f_equal. destruct (Z.ltb_spec m 0%Z); lia.
    + unfold D. destruct (0 <=? e)%Z eqn:He.
      * apply Z.leb_le in He. rewrite Z2N.id by (apply Z.mul_nonneg_nonneg; lia).
        rewrite inject_Z_mult, Zpower_Qpower by lia.
        change (inject_Z 2) with 2%Q. change (0 - Z.of_nat 0)%Z with 0%Z.
        change (10 ^ 0%Z)%Q with 1%Q. ring.
      * apply Z.leb_gt in He.
        pose proof (decimal_is_exact m e He) as Hx. cbv zeta in Hx.
        fold k in Hx. rewrite Z2N.id; [|].
        -- replace (- k - Z.of_nat 0)%Z with (- k)%Z by lia. exact Hx.
        -- assert (0 <= trailing_zeros m)%Z by (destruct m; simpl; lia).
           apply Z.mul_nonneg_nonneg; [|apply Z.pow_nonneg; lia].
           apply Z.div_pos; [lia|]. apply Z.pow_pos_nonneg; lia.
Qed.

Lemma lex_number_canonical s m e r :
  lex_number s = Some (Finite m e, r) -> canonical m e.
Proof.
  unfold lex_number.
  destruct (lex_int _) as [[ds r1]|]; [|done].
  destruct (lex_frac r1) as [[fs r2]|]; [|done].
  destruct (lex_exp r2) as [[x r3]|]; [|done].
  intros [= H _]. by apply round_canonical in H.
Qed.

End NumberFacts.

(** ** Reading strings *)

Module StringFacts.
Import JsString Json JsonSpec.
Local Open Scope N_scope.

Lemma hex_digit_value d : d < 16 -> hex_value (hex_digit d) = Some d.
Proof.
  intros Hd. destruct d as [|p]; [done|].
  repeat (destruct p as [p|p|]; try (exfalso; lia); try done).
Qed.

Lemma hex_escape c : c < 32 -> hex4 48 48 (hex_digit (c / 16)) (hex_digit (c mod 16)) = Some c.
Proof.
  intros Hc. destruct c as [|p]; [done|].
  repeat (destruct p as [p|p|]; try (exfalso; lia); try done).
Qed.

Lemma parse_chars_escape c s :
  parse_chars (escape_char c ++ s) =
  match parse_chars s with
  | Some (str, rest) => Some (c :: str, rest)
  | None => None
  end.
Proof.
  unfold escape_char.
  destruct (N.eqb_spec c 34) as [->|H34]; [done|].
  destruct (N.eqb_spec c 92) as [->|H92]; [done|].
  destruct (N.eqb_spec c 8) as [->|H8]; [done|].
  destruct (N.eqb_spec c 12) as [->|H12]; [done|].
  destruct (N.eqb_spec c 10) as [->|H10]; [done|].
  destruct (N.eqb_spec c 13) as [->|H13]; [done|].
  destruct (N.eqb_spec c 9) as [->|H9]; [done|].
  destruct (N.ltb_spec c 32) as [Hlt|Hge].
  - simpl app. cbn -[hex4 N.div N.modulo hex_digit]. rewrite hex_escape by done. done.
  - simpl app. cbn [parse_chars].
    apply N.eqb_neq in H34, H92. rewrite H34, H92.
    assert ((c <? 32) = false) as -> by (by apply N.ltb_ge). done.
Qed.

Lemma parse_chars_quote s rest :
  parse_chars (flat_map escape_char s ++ 34 :: rest) = Some (s, rest).
Proof.
  induction s as [|c s IH]; [done|].
  simpl flat_map. rewrite <- app_assoc, parse_chars_escape, IH. done.
Qed.

End StringFacts.

(** ** Values that the reader produces, and reading back their text *)

Module JsonFacts.
Import JsString Json JsonSpec ParserSpec NumberFacts StringFacts ParserFacts.
Local Open Scope N_scope.

Lemma json_induction (P : json -> Prop) :
  P JNull -> (forall b, P (JBool b)) -> (forall x, P (JNum x)) ->
  (forall s, P (JStr s)) ->
  (forall vs, Forall P vs -> P (JArr vs)) ->
  (forall kvs, Forall (fun kv => P kv.2) kvs -> P (JObj kvs)) ->
  forall v, P v.
Proof.
  intros Hnull Hbool Hnum Hstr Harr Hobj. fix IH 1.
  intros [|b|x|s|vs|kvs]; [done|done|done|done| |].
  - apply Harr. induction vs as [|v vs IHvs]; constructor; [apply IH|apply IHvs].
  - apply Hobj. induction kvs as [|[k v] kvs IHkvs]; constructor; [apply IH|apply IHkvs].
Qed.

Lemma fold_right_and {A} (Q : A -> Prop) (l : list A) :
  fold_right (fun x P => Q x /\ P) True l <-> Forall Q l.
Proof.
  induction l as [|x l IH]; simpl; [by split; [constructor|]|].
  rewrite IH. split; [intros [??]; by constructor|by inversion 1].
Qed.

(** *** Objects *)

Lemma set_member_fresh k v o :
  k ∉ List.map fst o -> set_member k v o = o ++ [(k, v)].
Proof.
  induction o as [|[k' v'] o IH]; simpl; [done|].
  intros Hk. destruct (decide (k' = k)) as [->|_].
  - exfalso. apply Hk. by left.
  - rewrite IH; [done|]. intros H. apply Hk. by right.
Qed.

Lemma set_member_keys k v o :
  List.map fst (set_member k v o) =
  if decide (k ∈ List.map fst o) then List.map fst o else List.map fst o ++ [k].
Proof.
  induction o as [|[k' v'] o IH]; simpl; [done|].
  destruct (decide (k' = k)) as [->|Hne]; simpl.
  - rewrite decide_True by (by left). done.
  - rewrite IH. destruct (decide (k ∈ List.map fst o)) as [Hin|Hnin].
    + rewrite decide_True by (by right). done.
    + rewrite decide_False; [done|]. intros [?|?]%elem_of_cons; congruence.
Qed.

Lemma set_member_values (Q : json -> Prop) k v o :
  Q v -> Forall (fun kv => Q kv.2) o -> Forall (fun kv => Q kv.2) (set_member k v o).
Proof.
  intros Hv. induction 1 as [|[k' v'] o Hkv Ho IH]; simpl; [by repeat constructor|].
  destruct (decide (k' = k)); by constructor.
Qed.

Lemma object_of_spec (Q : json -> Prop) kvs :
  Forall (fun kv => Q kv.2) kvs ->
  NoDup (List.map fst (object_of kvs)) /\ Forall (fun kv => Q kv.2) (object_of kvs).
Proof.
  unfold object_of.
  assert (forall acc, NoDup (List.map fst acc) -> Forall (fun kv => Q kv.2) acc ->
            Forall (fun kv => Q kv.2) kvs ->
            NoDup (List.map fst (fold_left (fun o kv => set_member kv.1 kv.2 o) kvs acc)) /\
            Forall (fun kv => Q kv.2)
                   (fold_left (fun o kv => set_member kv.1 kv.2 o) kvs acc)) as H.
  { induction kvs as [|[k v] kvs IH]; intros acc Hnd Hacc Hkvs; simpl; [done|].
    inversion_clear Hkvs as [|? ? Hv Hrest]. apply IH; [| |done].
    - rewrite set_member_keys. destruct (decide _) as [|Hnin]; [done|].
      apply NoDup_app. repeat split; [done| |apply NoDup_singleton].
      intros x Hx ->%list_elem_of_singleton. done.
    - by apply set_member_values. }
  intros Hkvs. apply H; [constructor|constructor|done].
Qed.

Lemma object_of_distinct kvs :
  NoDup (List.map fst kvs) -> object_of kvs = kvs.
Proof.
  unfold object_of.
  assert (forall acc, NoDup (List.map fst (acc ++ kvs)) ->
            fold_left (fun o kv => set_member kv.1 kv.2 o) kvs acc = acc ++ kvs) as H.
  { induction kvs as [|[k v] kvs IH]; intros acc Hnd; simpl; [by rewrite app_nil_r|].
    rewrite set_member_fresh.
    - rewrite IH; rewrite <- app_assoc; done.
    - rewrite List.map_app in Hnd. apply NoDup_app in Hnd as (_ & Hdis & _).
      intros Hin. apply (Hdis k Hin). simpl. by left. }
  intros Hnd. by apply (H []).
Qed.

(** *** What the reader produces is well formed *)

#[local] Arguments keyword : simpl never.
#[local] Arguments lex_number : simpl never.
#[local] Arguments object_of : simpl never.

Lemma keyword_well_formed k v s v' r :
  well_formed v -> keyword k v s = Ok (v', r) -> well_formed v'.
Proof. unfold keyword. intros Hv. destruct (strip_prefix k s); by intros [= <- _]. Qed.

Lemma parse_well_formed f :
  (forall s v r, parse_value f s = Ok (v, r) -> well_formed v) /\
  (forall s vs r, parse_elements f s = Ok (vs, r) -> Forall well_formed vs) /\
  (forall s kvs r, parse_members f s = Ok (kvs, r) ->
     Forall (fun kv => well_formed kv.2) kvs).
Proof.
  induction f as [|f (IHv & IHe & IHm)]; [done|].
  split; [|split]; intros s ? r; simpl; split_matches; intros; simplify_eq;
    repeat match goal with
      | H : parse_value f _ = Ok (_, _) |- _ => apply IHv in H
      | H : parse_elements f _ = Ok (_, _) |- _ => apply IHe in H
      | H : parse_members f _ = Ok (_, _) |- _ => apply IHm in H
      | H : keyword _ _ _ = Ok (_, _) |- _ => apply keyword_well_formed in H; [|done]
      end; try done; try (by repeat constructor).
  - by apply fold_right_and.
  - simpl. rewrite fold_right_and. by apply object_of_spec.
  - match goal with H : lex_number _ = Some (?x, _) |- _ =>
      destruct x; [by apply lex_number_canonical in H|done] end.
Qed.

Lemma JSON_parse_well_formed s v : JSON_parse s = Some v -> well_formed v.
Proof.
  unfold JSON_parse. destruct (parse_value _ s) as [[v' r]| |] eqn:E; [|done|done].
  destruct (skip_ws r); [|done]. intros [= <-].
  by eapply parse_well_formed.
Qed.

Lemma parseJSON_well_formed txt : well_formed (Parser.parseJSON txt).
Proof.
  rewrite parseJSON_cascade. unfold cascade.
  destruct txt as [|c r]; [done|].
  repeat match goal with
    | |- context [match ?x with _ => _ end] => destruct x eqn:?
    end; try done;
  repeat match goal with
    | H : between _ _ _ ≫= _ = Some _ |- _ =>
        apply bind_Some in H as (? & _ & H)
    | H : JSON_parse _ = Some _ |- _ => apply JSON_parse_well_formed in H
    end; done.
Qed.

(** *** The shape of the text of a value *)

Lemma digits_last n : exists d, last (digits n) = Some d /\ is_digit d = true.
Proof.
  pose proof (digits_digit n) as Hd. pose proof (digits_nonempty n) as Hne.
  destruct (digits n) as [|c l] using rev_ind; [done|].
  exists c. rewrite last_snoc. split; [done|].
  apply Forall_app in Hd as [_ Hc]. by inversion Hc.
Qed.

Ltac shape := unfold value_start, value_end; auto 12.

Lemma number_text_shape m e :
  exists c tl d, number_text (Finite m e) = c :: tl /\ value_start c /\
                 last (number_text (Finite m e)) = Some d /\ value_end d.
Proof.
  unfold number_text. cbv zeta.
  set (D := if (0 <=? e)%Z then _ else _).
  assert (exists body d, D = body /\ last body = Some d /\ is_digit d = true /\
            exists c tl, body = c :: tl /\ is_digit c = true) as (body & d & -> & Hl & Hd & c & tl & -> & Hc).
  { unfold D. destruct (0 <=? e)%Z.
    - destruct (digits_last (Z.to_N (Z.abs m * 2 ^ e))) as (d & Hl & Hd).
      pose proof (digits_digit (Z.to_N (Z.abs m * 2 ^ e))) as HD.
      destruct (digits _) as [|c tl] eqn:E; [done|].
      exists (c :: tl), d. repeat split; try done. exists c, tl. split; [done|].
      by inversion HD.
    - set (n := Z.to_N _).
      pose proof (digits_digit n) as HD. pose proof (digits_nonempty n) as Hne.
      destruct (digits n) as [|c tl] eqn:E; [done|]. inversion_clear HD as [|? ? Hc _].
      destruct (_ =? 0)%Z.
      + destruct (digits_last n) as (d & Hl & Hd). rewrite E in Hl.
        eexists _, d. rewrite app_nil_r. repeat split; try done. by exists c, tl.
      + set (k := Z.to_N _). destruct (digits_last k) as (d & Hl & Hd).
        eexists _, d. split; [done|]. split.
        * rewrite !last_app, Hl. done.
        * split; [done|]. by eexists c, _. }
  destruct (m <? 0)%Z; simpl app.
  - eexists 45, _, d. split; [done|]. split; [shape|]. split; [|shape].
    by rewrite last_cons, Hl.
  - exists c, tl, d. split; [done|]. split; [shape|]. split; [done|shape].
Qed.

Lemma stringify_array vs : stringify (JArr vs) = 91 :: elements_text vs ++ [93].
Proof. reflexivity. Qed.

Lemma stringify_object kvs : stringify (JObj kvs) = 123 :: members_text kvs ++ [125].
Proof. reflexivity. Qed.

Lemma stringify_shape v :
  all_finite v ->
  exists c tl d, stringify v = c :: tl /\ value_start c /\
                 last (stringify v) = Some d /\ value_end d.
Proof.
  destruct v as [|[|]|[m e|]|s|vs|kvs]; intros Hfin;
    try (by eexists _, _, _; split; [reflexivity|]; split; [shape|];
            split; [reflexivity|shape]).
  - apply number_text_shape.
  - simpl. eexists _, _, 34. split; [done|]. split; [shape|]. split; [|shape].
    unfold quote. apply (last_snoc 34 (34 :: _)).
  - rewrite stringify_array. eexists _, _, 93.
    split; [done|]. split; [shape|]. split; [|shape].
    apply (last_snoc 93 (91 :: _)).
  - rewrite stringify_object. eexists _, _, 125.
    split; [done|]. split; [shape|]. split; [|shape].
    apply (last_snoc 125 (123 :: _)).
Qed.

Lemma value_start_facts c :
  value_start c ->
  is_ws c = false /\ is_space c = false /\ c <> 93 /\ c <> 125 /\ c <> 44.
Proof.
  unfold value_start. rewrite is_digit_iff.
  intros H. assert (c = 110 \/ c = 116 \/ c = 102 \/ c = 45 \/ c = 34 \/ c = 91 \/
                    c = 123 \/ 48 <= c <= 57) as H' by lia. clear H.
  assert (is_ws c = false) as Hws.
  { unfold is_ws. rewrite !orb_false_iff, !N.eqb_neq. lia. }
  assert (is_space c = false) as Hsp.
  { unfold is_space. rewrite !orb_false_iff, !andb_false_iff, !N.eqb_neq, !N.leb_gt. lia. }
  repeat split; try done; lia.
Qed.

Lemma value_end_facts d : value_end d -> is_space d = false.
Proof.
  unfold value_end. rewrite is_digit_iff. intros H.
  unfold is_space. rewrite !orb_false_iff, !andb_false_iff, !N.eqb_neq, !N.leb_gt. lia.
Qed.

(** *** One step of the reader *)

Lemma skip_ws_start c r : is_ws c = false -> skip_ws (c :: r) = c :: r.
Proof. intros H. simpl. by rewrite H. Qed.

Lemma parse_value_array f r :
  parse_value (S f) (91 :: r) =
  match skip_ws r with
  | [] => Bad
  | c' :: r' =>
      if c' =? 93 then Ok (JArr [], r')
      else match parse_elements f (c' :: r') with
           | Ok (vs, r'') => Ok (JArr vs, r'')
           | Bad => Bad
           | OutOfFuel => OutOfFuel
           end
  end.
Proof. reflexivity. Qed.

Lemma parse_value_object f r :
  parse_value (S f) (123 :: r) =
  match skip_ws r with
  | [] => Bad
  | c' :: r' =>
      if c' =? 125 then Ok (JObj [], r')
      else match parse_members f (c' :: r') with
           | Ok (kvs, r'') => Ok (JObj (object_of kvs), r'')
           | Bad => Bad
           | OutOfFuel => OutOfFuel
           end
  end.
Proof. reflexivity. Qed.

Lemma parse_value_string f r :
  parse_value (S f) (34 :: r) =
  match parse_chars r with
  | Some (str, r') => Ok (JStr str, r')
  | None => Bad
  end.
Proof. reflexivity. Qed.

Lemma parse_value_number f c r :
  c = 45 \/ is_digit c = true ->
  parse_value (S f) (c :: r) =
  match lex_number (c :: r) with
  | Some (x, r') => Ok (JNum x, r')
  | None => Bad
  end.
Proof.
  rewrite is_digit_iff. intros Hc. simpl.
  assert (is_ws c = false) as ->.
  { unfold is_ws. rewrite !orb_false_iff, !N.eqb_neq. lia. }
  repeat match goal with
    | |- context [c =? ?n] =>
        let H := fresh in assert ((c =? n) = false) as H by (apply N.eqb_neq; lia);
        rewrite H; clear H
    end. done.
Qed.

Lemma parse_elements_step f s :
  parse_elements (S f) s =
  match parse_value f s with
  | Ok (v, r) =>
      match skip_ws r with
      | [] => Bad
      | c :: r' =>
          if c =? 44 then
            match parse_elements f r' with
            | Ok (vs, r'') => Ok (v :: vs, r'')
            | Bad => Bad
            | OutOfFuel => OutOfFuel
            end
          else if c =? 93 then Ok ([v], r')
          else Bad
      end
  | Bad => Bad
  | OutOfFuel => OutOfFuel
  end.
Proof. reflexivity. Qed.

Lemma parse_members_step f r0 :
  parse_members (S f) (34 :: r0) =
  match parse_chars r0 with
  | None => Bad
  | Some (k, r1) =>
      match skip_ws r1 with
      | [] => Bad
      | colon :: r2 =>
          if colon =? 58 then
            match parse_value f r2 with
            | Ok (v, r3) =>
                match skip_ws r3 with
                | [] => Bad
                | c :: r4 =>
                    if c =? 44 then
                      match parse_members f r4 with
                      | Ok (kvs, r5) => Ok ((k, v) :: kvs, r5)
                      | Bad => Bad
                      | OutOfFuel => OutOfFuel
                      end
                    else if c =? 125 then Ok ([(k, v)], r4)
                    else Bad
                end
            | Bad => Bad
            | OutOfFuel => OutOfFuel
            end
          else Bad
      end
  end.
Proof. reflexivity. Qed.

(** *** Reading back the text of a value *)

Lemma elements_read_back vs :
  Forall (fun v => all_finite v /\ reads_back v) vs -> vs <> [] ->
  forall f rest,
    (fold_right (fun v n => S (weight v + n)) 0 vs <= f)%nat ->
    parse_elements f (elements_text vs ++ 93 :: rest) = Ok (vs, rest).
Proof.
  induction 1 as [|v vs [Hfin Hv] Hvs IH]; [done|]. intros _ f rest Hf.
  destruct f as [|f]; [simpl in Hf; lia|]. simpl in Hf.
  rewrite parse_elements_step. simpl elements_text. rewrite <- app_assoc.
  rewrite Hv; [|lia|by destruct vs].
  destruct vs as [|v' vs']; [done|].
  simpl app. simpl skip_ws. cbn iota. simpl N.eqb. cbn iota.
  rewrite IH; [done|done|simpl in *; lia].
Qed.

Lemma members_read_back kvs :
  Forall (fun kv => all_finite kv.2 /\ reads_back kv.2) kvs -> kvs <> [] ->
  forall f rest,
    (fold_right (fun kv n => S (weight kv.2 + n)) 0 kvs <= f)%nat ->
    parse_members f (members_text kvs ++ 125 :: rest) = Ok (kvs, rest).
Proof.
  induction 1 as [|[k v] kvs [Hfin Hv] Hkvs IH]; [done|]. intros _ f rest Hf.
  destruct f as [|f]; [simpl in Hf; lia|]. simpl in Hf, Hfin, Hv.
  simpl members_text. unfold quote. simpl app.
  rewrite parse_members_step. rewrite <- !app_assoc. simpl app.
  rewrite parse_chars_quote. simpl skip_ws. cbn iota. simpl N.eqb. cbn iota.
  rewrite <- app_assoc. rewrite Hv; [|lia|by destruct kvs].
  destruct kvs as [|kv' kvs']; [done|].
  simpl app. simpl skip_ws. cbn iota. simpl N.eqb. cbn iota.
  rewrite IH; [done|done|simpl in *; lia].
Qed.

Lemma stringify_reads_back v : well_formed v -> all_finite v -> reads_back v.
Proof.
  induction v as [|b|x|s|vs IH|kvs IH] using json_induction;
    intros Hwf Hfin f rest Hf Hrest;
    (destruct f as [|f]; [simpl in Hf; lia|]).
  - done.
  - by destruct b.
  - destruct x as [m e|]; [|done]. simpl in Hwf.
    destruct (number_text_shape m e) as (c & tl & d & E & Hc & _).
    change (stringify (JNum (Finite m e))) with (number_text (Finite m e)).
    pose proof (lex_number_text m e rest Hwf Hrest) as Hlex.
    rewrite E in *. simpl app in *.
    rewrite parse_value_number, Hlex; [done|].
    destruct (value_start_facts c Hc) as (Hws & _).
    unfold value_start in Hc. destruct Hc as [->|[->|[->|[->|[Hd|[->|[->| ->]]]]]]];
      try done; [by left|by right].
  - change (stringify (JStr s)) with (34 :: flat_map escape_char s ++ [34]).
    rewrite <- app_comm_cons, parse_value_string, <- app_assoc.
    change ([34] ++ rest) with (34 :: rest).
    by rewrite (parse_chars_quote s rest).
  - rewrite stringify_array, <- app_comm_cons, parse_value_array.
    simpl in Hwf, Hfin. apply fold_right_and in Hwf, Hfin.
    destruct vs as [|v vs]; [done|].
    assert (Forall (fun v => all_finite v /\ reads_back v) (v :: vs)) as Hall.
    { apply Forall_forall. intros x Hx.
      rewrite Forall_forall in IH, Hwf, Hfin. split; [by apply Hfin|].
      apply IH; [done|by apply Hwf|by apply Hfin]. }
    destruct (stringify_shape v) as (c & tl & d & E & Hc & _).
    { by inversion Hfin. }
    destruct (value_start_facts c Hc) as (Hws & _ & H93 & _).
    pose proof (elements_read_back (v :: vs) Hall ltac:(done) f rest) as Hel.
    rewrite <- app_assoc. simpl app.
    simpl elements_text in *. rewrite E in *. simpl app in *.
    rewrite skip_ws_start by done.
    apply N.eqb_neq in H93. rewrite H93. rewrite Hel; [done|].
    simpl in Hf |- *. lia.
  - rewrite stringify_object, <- app_comm_cons, parse_value_object.
    simpl in Hwf, Hfin. destruct Hwf as [Hnd Hwf]. apply fold_right_and in Hwf, Hfin.
    destruct kvs as [|[k v] kvs]; [done|].
    assert (Forall (fun kv => all_finite kv.2 /\ reads_back kv.2) ((k, v) :: kvs)) as Hall.
    { apply Forall_forall. intros x Hx.
      rewrite Forall_forall in IH, Hwf, Hfin. split; [by apply Hfin|].
      apply IH; [done|by apply Hwf|by apply Hfin]. }
    pose proof (members_read_back _ Hall ltac:(done) f rest) as Hel.
    rewrite <- app_assoc. simpl app.
    simpl members_text in *. unfold quote in *. simpl app in *.
    rewrite skip_ws_start by done. change (34 =? 125) with false. cbn iota.
    rewrite Hel; [|simpl in Hf |- *; lia]. by rewrite object_of_distinct.
Qed.

(** *** The fuel is enough, and trimming changes nothing *)

Lemma number_text_nonempty x : number_text x <> [].
Proof.
  destruct x as [m e|]; [|done].
  destruct (number_text_shape m e) as (c & tl & _ & -> & _). done.
Qed.

Lemma elements_text_length vs :
  Forall (fun v => (weight v <= length (stringify v))%nat) vs ->
  (fold_right (fun v n => S (weight v + n)) 0 vs <= S (length (elements_text vs)))%nat.
Proof.
  induction 1 as [|v vs Hv _ IH]; simpl; [lia|].
  rewrite length_app. destruct vs; simpl in *; lia.
Qed.

Lemma members_text_length kvs :
  Forall (fun kv => (weight kv.2 <= length (stringify kv.2))%nat) kvs ->
  (fold_right (fun kv n => S (weight kv.2 + n)) 0 kvs <= S (length (members_text kvs)))%nat.
Proof.
  induction 1 as [|[k v] kvs Hv _ IH]; simpl; [lia|].
  rewrite !length_app. simpl. rewrite length_app. destruct kvs; simpl in *; lia.
Qed.

Lemma weight_le_length v : (weight v <= length (stringify v))%nat.
Proof.
  induction v as [|b|x|s|vs IH|kvs IH] using json_induction.
  - simpl. lia.
  - destruct b; simpl; lia.
  - change (stringify (JNum x)) with (number_text x).
    pose proof (number_text_nonempty x). destruct (number_text x); [done|simpl; lia].
  - simpl. lia.
  - rewrite stringify_array. pose proof (elements_text_length vs IH).
    simpl. rewrite length_app. simpl. lia.
  - rewrite stringify_object. pose proof (members_text_length kvs IH).
    simpl. rewrite length_app. simpl. lia.
Qed.

Lemma trim_unchanged s c d :
  head s = Some c -> last s = Some d ->
  is_space c = false -> is_space d = false -> trim s = s.
Proof.
  intros Hh Hl Hc Hd. unfold trim, trimEnd.
  assert (trimStart s = s) as ->.
  { destruct s as [|x s]; [done|]. simpl in *. simplify_eq. by rewrite Hc. }
  assert (trimStart (rev s) = rev s) as ->; [|apply rev_involutive].
  destruct s as [|x s _] using rev_ind; [done|].
  rewrite last_snoc in Hl. simplify_eq. rewrite rev_app_distr. simpl. by rewrite Hd.
Qed.

Lemma JSON_parse_stringify v :
  well_formed v -> all_finite v -> JSON_parse (stringify v) = Some v.
Proof.
  intros Hwf Hfin. unfold JSON_parse.
  pose proof (stringify_reads_back v Hwf Hfin (2 * length (stringify v) + 1)%nat []) as H.
  rewrite app_nil_r in H. rewrite H; [done| |done].
  pose proof (weight_le_length v). lia.
Qed.

Lemma parseJSON_stringify v :
  well_formed v -> all_finite v -> Parser.parseJSON (stringify v) = v.
Proof.
  intros Hwf Hfin.
  destruct (stringify_shape v Hfin) as (c & tl & d & E & Hc & Hl & Hd).
  unfold Parser.parseJSON. rewrite E. simpl negb. cbn iota.
  unfold Parser.first_success, Parser.strategy_direct. rewrite <- E.
  rewrite (trim_unchanged _ c d); [|by rewrite E|done| |by apply value_end_facts].
  - by rewrite JSON_parse_stringify.
  - by apply value_start_facts.
Qed.

(** C4 as stated fails: a number literal beyond the range of binary64 is
    read as an infinity, an infinity is written [null], and [null] is read
    as no value. *)
Lemma overflowing_number_is_not_read_back : ~ reparse_gives_same_value.
Proof.
  intros H. specialize (H (lit "[1e999]")). vm_compute in H. discriminate.
Qed.

(** C4, as amended. When the value that [parseJSON] gives contains no
    infinity (no number literal of the text was out of the range of
    binary64), writing the value as JSON text and giving that text to
    [parseJSON] gives the same value again. *)
Theorem reparse_of_finite_value (txt : list N) :
  all_finite (Parser.parseJSON txt) ->
  Parser.parseJSON (stringify (Parser.parseJSON txt)) = Parser.parseJSON txt.
Proof. intros Hfin. apply parseJSON_stringify; [apply parseJSON_well_formed|done]. Qed.

Lemma reparse_of_finite_value_witness :
  Parser.parseJSON
    (stringify (Parser.parseJSON
       (jlit "Here you go: {'name':'Jane','skills':['Rocq','OCaml'],'experience_years':2.5}")))
  = Parser.parseJSON
      (jlit "Here you go: {'name':'Jane','skills':['Rocq','OCaml'],'experience_years':2.5}").
Proof.
  apply reparse_of_finite_value. vm_compute. tauto.
Defined.

End JsonFacts.

(** ** The workflow controller and the generation cache *)

Module Workflow.
Import JsString Json Parser Sanitizer App SessionSpec Session Scenario AsStated.

Lemma run_reachable evs : forall s s', reachable s -> run s evs = Some s' -> reachable s'.
Proof.
  induction evs as [|ev evs IH]; intros s s' Hs; simpl.
  - by intros [= <-].
  - destruct (rendered s ev) eqn:Hr; [|done].
    apply IH. by eapply reachable_step; [exact Hs|split].
Qed.

Lemma after_reachable evs : is_Some (run init evs) -> reachable (after evs).
Proof.
  intros [s Hs]. unfold after. rewrite Hs. simpl.
  eapply run_reachable; [apply reachable_init | exact Hs].
Qed.



(** The continuation of [analyze] sets the step to 2 whatever the step is
    when the answer arrives; that it arrives at Details rests on the overlay
    shown while [busy], which keeps the user from navigating meanwhile. *)
Remark analyze_resume_sets_profile_step c raw s :
  step (analyze_resume c (Resolved raw) s) = 2.
Proof. reflexivity. Qed.

(** *** The generation cache *)

Lemma has_letter_hit s id txt :
  letters s !! id = Some txt -> txt <> [] -> has_letter s id = true.
Proof. unfold has_letter. intros ->. by destruct txt. Qed.

Lemma has_tips_hit s id v :
  reachable s -> tips s !! id = Some v -> has_tips s id = true.
Proof.
  intros Hs Hv. unfold has_tips. rewrite Hv.
  eapply inv_tips; [by apply reachable_invariant|done].
Qed.

(** C1, as amended. A stored cover letter that is not the empty text, and
    any stored tips, are shown again without a request to the completion
    service: the request log, the suspended handlers and both caches stay as
    they are, only the dialog is opened on the listing; asking once more
    changes nothing further.  In particular, once a request for a letter has
    been answered with a text that is not empty, the next request for it is
    served from the cache. *)
Theorem cached_artifact_is_reused s job :
  reachable s ->
  (forall txt, letters s !! job_id job = Some txt -> txt <> [] ->
     getLetter_start job s = setShowL (Some job) s /\
     calls (getLetter_start job s) = calls s /\
     pending (getLetter_start job s) = pending s /\
     letters (getLetter_start job s) !! job_id job = Some txt /\
     getLetter_start job (getLetter_start job s) = getLetter_start job s) /\
  (forall v, tips s !! job_id job = Some v ->
     getTips_start job s = setShowT (Some job) s /\
     calls (getTips_start job s) = calls s /\
     pending (getTips_start job s) = pending s /\
     tips (getTips_start job s) !! job_id job = Some v /\
     getTips_start job (getTips_start job s) = getTips_start job s) /\
  (forall k txt, pending s !! k = Some (PLetter job) -> txt <> [] ->
     let s1 := handle s (Settle k (Resolved txt)) in
     letters s1 !! job_id job = Some txt /\
     calls (getLetter_start job s1) = calls s1).
Proof.
  intros Hs; split; [|split].
  - intros txt Htxt Hne. pose proof (has_letter_hit _ _ _ Htxt Hne) as Hhit.
    assert (getLetter_start job s = setShowL (Some job) s) as E.
    { unfold getLetter_start. by rewrite Hhit. }
    rewrite E. simpl. repeat split; try done.
    unfold getLetter_start.
    change (has_letter (setShowL (Some job) s) (job_id job))
      with (has_letter s (job_id job)).
    by rewrite Hhit.
  - intros v Hv. pose proof (has_tips_hit _ _ _ Hs Hv) as Hhit.
    assert (getTips_start job s = setShowT (Some job) s) as E.
    { unfold getTips_start. by rewrite Hhit. }
    rewrite E. simpl. repeat split; try done.
    unfold getTips_start.
    change (has_tips (setShowT (Some job) s) (job_id job))
      with (has_tips s (job_id job)).
    by rewrite Hhit.
  - intros k txt Hk Hne. simpl. rewrite Hk. simpl.
    assert (<[job_id job:=txt]> (letters s) !! job_id job = Some txt) as Hl
      by apply lookup_insert_eq.
    split; [done|]. unfold getLetter_start.
    erewrite has_letter_hit; [done| |done]. done.
Qed.

Lemma cached_artifact_is_reused_witness :
  calls (getLetter_start first_listing (after second_search))
  = calls (after second_search).
Proof.
  pose proof (cached_artifact_is_reused (after second_search) first_listing) as H.
  destruct H as [H _].
  - apply after_reachable. vm_compute. eauto.
  - destruct (H (lit "Dear Hiring Manager,")) as (_ & Hcalls & _).
    + vm_compute. reflexivity.
    + discriminate.
    + exact Hcalls.
Defined.

(** C1 as stated fails: an empty letter is stored under its key, yet the
    next request for that key goes to the completion service again. *)
Lemma empty_letter_is_requested_again : ~ cache_hit_any_entry.
Proof.
  intros H.
  destruct (H (after empty_letter) first_listing) as [Hl _].
  { apply after_reachable. vm_compute. eauto. }
  assert (is_Some (letters (after empty_letter) !! job_id first_listing)) as Hsome.
  { vm_compute. eauto. }
  specialize (Hl Hsome). vm_compute in Hl. discriminate.
Qed.




(** *** The length check of [readFile] *)




(** *** The default profile *)



(** *** A new search *)

(** C9 as stated fails: the letter generated for listing 1 of the first
    search is still in the cache after the second search has succeeded. *)
Lemma letters_survive_search : ~ search_clears_caches.
Proof.
  intros H.
  destruct (H (after second_search) 0 (jlit "[{'title':'Designer'}]")
              (JObj [(lit "title", JStr (lit "Designer"))]) []) as [Hl _].
  - apply after_reachable. vm_compute. eauto.
  - vm_compute. reflexivity.
  - vm_compute. reflexivity.
  - apply (f_equal (fun m => m !! 1)) in Hl. vm_compute in Hl. discriminate.
Qed.

Lemma number_jobs_ids items :
  job_id <$> number_jobs items = seq 1 (length items).
Proof.
  unfold number_jobs.
  enough (forall n, job_id <$> imap (fun i j => {| job_id := S (n + i); job_data := j |}) items
                    = seq (S n) (length items)) as H by apply (H 0).
  induction items as [|x items IH]; intros n; simpl; [done|].
  rewrite Nat.add_0_r. f_equal. rewrite <- (IH (S n)). f_equal.
  apply imap_ext. intros i y _. simpl. f_equal. lia.
Qed.

(** C9, as amended. A successful search replaces the listings, numbered from
    1 in the order of the answer, and moves to the listings step; it leaves
    both artifact caches as they are, so an artifact stored under an id
    before the search is still stored under that id after it. *)
Theorem search_keeps_caches s k raw j items :
  pending s !! k = Some PFindJobs ->
  parseJSON raw = JArr (j :: items) ->
  let s' := handle s (Settle k (Resolved raw)) in
  jobs s' = number_jobs (j :: items) /\
  job_id <$> jobs s' = seq 1 (length (j :: items)) /\
  step s' = 3 /\
  letters s' = letters s /\ tips s' = tips s.
Proof.
  intros Hk Hraw. simpl. rewrite Hk. simpl. rewrite Hraw. simpl.
  repeat split; try done.
  apply (number_jobs_ids (j :: items)).
Qed.

Lemma search_keeps_caches_witness :
  letters (handle (after second_search)
             (Settle 0 (Resolved (jlit "[{'title':'Designer'}]"))))
  = letters (after second_search).
Proof.
  apply (search_keeps_caches (after second_search) 0 (jlit "[{'title':'Designer'}]")
           (JObj [(lit "title", JStr (lit "Designer"))]) []).
  - vm_compute. reflexivity.
  - vm_compute. reflexivity.
Defined.

(** C10 as stated fails: the letter requested for listing 1 of the first
    search arrives after the second search has replaced the listings, and is
    stored under id 1 all the same. *)
Lemma stale_letter_is_stored : ~ stale_letter_discarded.
Proof.
  intros H.
  specialize (H (after stale_letter) 0 first_listing (lit "Dear Hiring Manager,")).
  assert (reachable (after stale_letter)) as Hr.
  { apply after_reachable. vm_compute. eauto. }
  assert (pending (after stale_letter) !! 0 = Some (PLetter first_listing)) as Hp.
  { vm_compute. reflexivity. }
  assert (first_listing ∉ jobs (after stale_letter)) as Hstale.
  { vm_compute. intros Hin. apply list_elem_of_singleton in Hin. discriminate. }
  specialize (H Hr Hp Hstale).
  apply (f_equal (fun m => m !! 1)) in H. vm_compute in H. discriminate.
Qed.

(** C10, as amended. An artifact that arrives is stored under the id of the
    listing it was requested for, whatever the listing set is by then: the
    letter always, the tips whenever [parseJSON] gives a truthy value.  There
    is no check that the listing is still current. *)
Theorem arriving_artifact_is_stored s k job :
  (forall txt, pending s !! k = Some (PLetter job) ->
     let s' := handle s (Settle k (Resolved txt)) in
     letters s' = <[job_id job := txt]> (letters s) /\
     showL s' = Some job /\ jobs s' = jobs s) /\
  (forall raw, pending s !! k = Some (PTips job) ->
     Json.truthy (parseJSON raw) = true ->
     let s' := handle s (Settle k (Resolved raw)) in
     tips s' = <[job_id job := parseJSON raw]> (tips s) /\
     showT s' = Some job /\ jobs s' = jobs s).
Proof.
  split.
  - intros txt Hk. simpl. rewrite Hk. done.
  - intros raw Hk Htr. simpl. rewrite Hk. simpl. rewrite Htr. done.
Qed.

Lemma arriving_artifact_is_stored_witness :
  letters (handle (after stale_letter) (Settle 0 (Resolved (lit "Dear Hiring Manager,"))))
  = <[1 := lit "Dear Hiring Manager,"]> (letters (after stale_letter)).
Proof.
  apply (arriving_artifact_is_stored (after stale_letter) 0 first_listing).
  vm_compute. reflexivity.
Defined.


End Workflow.
(** ** What a session always has, keeps, and offers again *)

Module SessionData.
Import JsString Json Parser Sanitizer App SessionSpec Session DataSpec.






End SessionData.

Module SessionGuarantees.
Import JsString Json Parser Sanitizer App SessionSpec Session DataSpec SessionData
  Scenario Workflow.





End SessionGuarantees.

Module History.
Import JsString Json Parser Sanitizer App HistorySpec Scenario Workflow.

Lemma keeps_refl s : keeps s s.
Proof. repeat split; done. Qed.

Lemma keeps_trans s1 s2 s3 : keeps s1 s2 -> keeps s2 s3 -> keeps s1 s3.
Proof.
  intros (L1 & T1 & P1 & J1 & C1) (L2 & T2 & P2 & J2 & C2).
  repeat split; auto. by etrans.
Qed.

Lemma keeps_handle s ev : keeps s (handle s ev).
Proof.
  assert (forall (c : Call), calls s `prefix_of` calls s ++ [c]) as Hpre
    by (intros c; by apply prefix_app_r).
  destruct ev; simpl; try apply keeps_refl;
    try (repeat split; simpl; try done; fail).
  - unfold readFile_start. destruct (supported _); repeat split; done.
  - destruct (JsString.truthy _); repeat split; done.
  - destruct (i <? step s); repeat split; done.
  - destruct (jobs s !! i) as [job|]; [|apply keeps_refl].
    unfold getLetter_start. destruct (has_letter _ _); repeat split; simpl; done.
  - destruct (jobs s !! i) as [job|]; [|apply keeps_refl].
    unfold getTips_start. destruct (has_tips _ _); repeat split; simpl; done.
  - destruct (pending s !! k) as [p|]; [|apply keeps_refl].
    destruct p, o; simpl;
      unfold readFile_resume, findJobs_resume, getTips_resume; simpl;
      repeat match goal with |- context [if ?b then _ else _] => destruct b end;
      repeat match goal with |- context [match ?b with _ => _ end] => destruct b end;
      repeat split; simpl; try done;
      intros id; rewrite lookup_insert_is_Some; destruct (decide (job_id job = id)); auto.
Qed.

Lemma keeps_run evs : forall s s', run s evs = Some s' -> keeps s s'.
Proof.
  induction evs as [|ev evs IH]; intros s s'; simpl.
  - intros [= <-]. apply keeps_refl.
  - destruct (rendered s ev); [|done]. intros H%IH.
    eapply keeps_trans; [apply keeps_handle|done].
Qed.

Lemma calls_handle s ev :
  length (calls (handle s ev)) <= length (calls s) + (if asks ev then 1 else 0).
Proof.
  destruct ev; simpl; try lia.
  - unfold readFile_start. destruct (supported _); simpl; lia.
  - destruct (JsString.truthy _); simpl; lia.
  - destruct (i <? step s); simpl; lia.
  - rewrite length_app. simpl. lia.
  - rewrite length_app. simpl. lia.
  - destruct (jobs s !! i) as [job|]; [|lia].
    unfold getLetter_start. destruct (has_letter _ _); simpl; rewrite ?length_app; simpl; lia.
  - destruct (jobs s !! i) as [job|]; [|lia].
    unfold getTips_start. destruct (has_tips _ _); simpl; rewrite ?length_app; simpl; lia.
  - destruct (pending s !! k) as [p|]; [|lia].
    destruct p, o; simpl;
      unfold readFile_resume, findJobs_resume, getTips_resume; simpl;
      repeat match goal with |- context [if ?b then _ else _] => destruct b end;
      repeat match goal with |- context [match ?b with _ => _ end] => destruct b end;
      simpl; lia.
Qed.

(** X3. Nothing is ever taken out of the session's stores: in the course of
    any sequence of interactions a key of the letter cache or of the tips
    cache stays in it, a stored profile and a non-empty list of listings
    stay, the log of requests only grows at its end; and the number of
    requests sent is at most the number of clicks on Analyze, Search, Letter
    and Tips: the arrival of an answer never sends one, nothing is retried. *)
Theorem stores_only_grow s evs s' :
  run s evs = Some s' ->
  keeps s s' /\
  length (calls s') <= length (calls s) + length (filter (fun ev => asks ev = true) evs).
Proof.
  intros Hrun. split; [by eapply keeps_run|].
  revert s s' Hrun. induction evs as [|ev evs IH]; intros s s'; simpl.
  - intros [= <-]. lia.
  - destruct (rendered s ev); [|done]. intros H%IH.
    pose proof (calls_handle s ev) as Hc. rewrite filter_cons.
    destruct (asks ev); [rewrite decide_True by done|rewrite decide_False by done];
      simpl in *; lia.
Qed.

Lemma stores_only_grow_witness :
  keeps (after to_listings) (after second_search) /\
  length (calls (after second_search))
    <= length (calls (after to_listings))
       + length (filter (fun ev => asks ev = true)
                   [ ClickLetter 0; Settle 0 (Resolved (lit "Dear Hiring Manager,"));
                     CloseLetter; ClickBack; ClickFindJobs ]).
Proof.
  apply (stores_only_grow (after to_listings)
           [ ClickLetter 0; Settle 0 (Resolved (lit "Dear Hiring Manager,"));
             CloseLetter; ClickBack; ClickFindJobs ]).
  vm_compute. reflexivity.
Defined.

End History.

Module Failure.
Import JsString Json Parser Sanitizer App SessionSpec Session FailureSpec Scenario Workflow.



End Failure.

Module Upload.
Import JsString Json Parser Sanitizer App UploadSpec Scenario Workflow.
Local Open Scope N_scope.

Lemma existsb_dot (l : list N) : existsb (N.eqb 46) l = true <-> 46 ∈ l.
Proof.
  rewrite existsb_exists. split.
  - intros (x & Hx & E%N.eqb_eq). subst. by apply list_elem_of_In.
  - intros H. exists 46. split; [by apply list_elem_of_In|done].
Qed.

Lemma last_segment_whole (name : list N) : 46 ∉ name -> last_segment name = name.
Proof.
  destruct name as [|c r]; [done|]. intros H. simpl.
  destruct (existsb (N.eqb 46) r) eqn:E.
  - apply existsb_dot in E. exfalso. apply H. by right.
  - destruct (c =? 46) eqn:Ec; [|done]. apply N.eqb_eq in Ec. subst.
    exfalso. apply H. by left.
Qed.

Lemma last_segment_after_dot (base ext : list N) :
  46 ∉ ext -> last_segment (base ++ 46 :: ext) = ext.
Proof.
  intros H. induction base as [|c base IH]; simpl.
  - destruct (existsb (N.eqb 46) ext) eqn:E; [by apply existsb_dot in E|done].
  - destruct (existsb (N.eqb 46) (base ++ 46 :: ext)) eqn:E; [done|].
    apply not_true_iff_false in E. exfalso. apply E, existsb_dot.
    apply elem_of_app. right. by left.
Qed.

Lemma supported_readable ext : supported ext = true <-> ext ∈ readable.
Proof.
  unfold supported, readable. rewrite !orb_true_iff, !bool_decide_eq_true.
  rewrite !elem_of_cons, elem_of_nil. tauto.
Qed.

(** X5. [readFile] goes by the last extension of the file name, in any
    letter case: the part after the last dot (the whole name when it has no
    dot), with capitals lowered, must be one of [pdf], [docx], [doc], [txt].
    Then the overlay goes up and the file is read.  Otherwise nothing is
    read, "Use PDF, DOCX, or TXT." is shown and the overlay is down.  Either
    way the name is stored and the resume text read before is discarded. *)
Theorem file_is_taken_by_its_last_extension (base ext : list N) s :
  46 ∉ ext ->
  forall name, name = base ++ 46 :: ext \/ name = ext ->
  let s' := readFile_start name s in
  resumeName s' = name /\ resumeText s' = [] /\ calls s' = calls s /\
  ((to_lower <$> ext) ∈ readable ->
     pending s' = pending s ++ [PReadFile] /\ busy s' = true /\ fileErr s' = []) /\
  ((to_lower <$> ext) ∉ readable ->
     pending s' = pending s /\ busy s' = false /\
     fileErr s' = lit "Use PDF, DOCX, or TXT.").
Proof.
  intros Hext name Hname.
  assert (extension name = to_lower <$> ext) as E.
  { unfold extension. destruct Hname as [-> | ->].
    - by rewrite last_segment_after_dot.
    - by rewrite last_segment_whole. }
  simpl. unfold readFile_start. rewrite E.
  destruct (supported (to_lower <$> ext)) eqn:Hs.
  - apply supported_readable in Hs. simpl. repeat split; try done.
  - apply not_true_iff_false in Hs. rewrite supported_readable in Hs.
    simpl. repeat split; try done.
Qed.

Ltac dec :=
  match goal with |- ?P => apply (bool_decide_eq_true_1 P); vm_compute; reflexivity end.

Lemma file_is_taken_by_its_last_extension_witness :
  pending (readFile_start (lit "my.resume.final.PDF") init) = [PReadFile] /\
  fileErr (readFile_start (lit "resume.pdf.exe") init) = lit "Use PDF, DOCX, or TXT." /\
  pending (readFile_start (lit "txt") init) = [PReadFile].
Proof.
  split; [|split].
  - apply (file_is_taken_by_its_last_extension (lit "my.resume.final") (lit "PDF") init);
      [dec | by left | dec].
  - apply (file_is_taken_by_its_last_extension (lit "resume.pdf") (lit "exe") init);
      [dec | by left | dec].
  - apply (file_is_taken_by_its_last_extension [] (lit "txt") init);
      [dec | by right | dec].
Defined.

End Upload.

(** ** Texts the sanitizer leaves alone *)

Module SanitizerFixed.
Import JsString Sanitizer SanitizerSpec SanitizerFacts JsonFacts.
Local Open Scope nat_scope.

Lemma strip_unsafe_id t : Forall printable t -> strip_unsafe t = t.
Proof.
  induction 1 as [|c r Hc _ IH]; [done|].
  unfold strip_unsafe in *. simpl. rewrite IH.
  apply safe_printable in Hc. by rewrite Hc.
Qed.

Lemma short_runs_tail c r : short_runs (c :: r) -> short_runs r.
Proof. intros H i. apply (H (S i)). Qed.

Lemma collapse_runs_id f : forall t, short_runs t -> collapse_runs f t = t.
Proof.
  induction f as [|f IH]; intros t Ht; [done|].
  destruct t as [|c r]; [done|]. rewrite collapse_runs_cons.
  pose proof (Ht 0) as H0. simpl drop in H0.
  destruct (4 <=? ws_run (c :: r)) eqn:E; [apply Nat.leb_le in E; lia|].
  rewrite IH; [done|]. by eapply short_runs_tail.
Qed.

Lemma trim_id t : trimmed t -> trim t = t.
Proof.
  intros [Hh Hl]. destruct t as [|c r]; [done|].
  destruct (last (c :: r)) as [d|] eqn:Ed.
  - apply (trim_unchanged _ c d); auto.
  - by apply last_None in Ed.
Qed.

Lemma clean_text_fixed (t : list N) :
  Forall printable t -> short_runs t -> trimmed t -> length t <= MAX_CHARS ->
  cleaned t = t.
Proof.
  intros Hp Hs Ht Hl. unfold cleaned, collapse_ws, slice0.
  rewrite strip_unsafe_id by done. rewrite collapse_runs_id by done.
  rewrite trim_id by done. by apply take_ge.
Qed.

(** X6. A text that is already clean is sent as it is: when every character
    is printable ASCII, a line feed, a carriage return or a tab, no four
    whitespace characters stand in a row, neither end is whitespace and the
    length is at most 3000, the sanitizer of [analyze] returns the text
    unchanged. *)
Theorem clean_text_is_kept (t : list N) :
  Forall printable t -> short_runs t -> trimmed t -> length t <= MAX_CHARS ->
  cleaned t = t.
Proof. apply clean_text_fixed. Qed.

Lemma short_runs_check t :
  forallb (fun i => ws_run (drop i t) <? 4) (seq 0 (length t)) = true -> short_runs t.
Proof.
  intros H i. destruct (decide (i < length t)) as [Hi|Hi].
  - rewrite forallb_forall in H. apply Nat.ltb_lt, H, in_seq. lia.
  - rewrite drop_ge by lia. simpl. lia.
Qed.

Lemma printable_check t : forallb safe t = true -> Forall printable t.
Proof.
  rewrite forallb_forall, Forall_forall. intros H c Hc.
  apply safe_printable, H. by apply list_elem_of_In.
Qed.

Lemma clean_text_is_kept_witness :
  cleaned (lit "Jane Doe   Engineer, 5 years") = lit "Jane Doe   Engineer, 5 years".
Proof.
  apply clean_text_is_kept.
  - apply printable_check. vm_compute. reflexivity.
  - apply short_runs_check. vm_compute. reflexivity.
  - split; intros c [= <-]; reflexivity.
  - vm_compute. lia.
Defined.

End SanitizerFixed.

Module SanitizerTwice.
Import JsString Sanitizer SanitizerSpec SanitizerFacts JsonFacts SanitizerFixed.
Local Open Scope nat_scope.

Lemma ws_run_app a w : ws_run a <= ws_run (a ++ w).
Proof.
  induction a as [|c a IH]; simpl; [lia|]. destruct (is_space c); lia.
Qed.

Lemma trimStart_suffix y : exists k, trimStart y = drop k y.
Proof.
  induction y as [|c y [k IH]]; [by exists 0|]. simpl.
  destruct (is_space c); [by exists (S k)|by exists 0].
Qed.

Lemma trimEnd_prefix x : exists w, x = trimEnd x ++ w.
Proof.
  unfold trimEnd. destruct (trimStart_suffix (rev x)) as [k Hk]. rewrite Hk.
  exists (rev (take k (rev x))).
  rewrite <- rev_app_distr, take_drop. by rewrite rev_involutive.
Qed.

Lemma short_runs_drop k x : short_runs x -> short_runs (drop k x).
Proof. intros H i. rewrite drop_drop. apply H. Qed.

Lemma short_runs_prefix p w : short_runs (p ++ w) -> short_runs p.
Proof.
  intros H i. specialize (H i).
  destruct (decide (i <= length p)) as [Hi|Hi].
  - rewrite drop_app_le in H by done. pose proof (ws_run_app (drop i p) w). lia.
  - rewrite drop_ge by lia. simpl. lia.
Qed.

Lemma short_runs_trim x : short_runs x -> short_runs (trim x).
Proof.
  intros H. unfold trim.
  destruct (trimStart_suffix x) as [k Hk]. rewrite Hk.
  destruct (trimEnd_prefix (drop k x)) as [w Hw].
  apply (short_runs_prefix _ w). rewrite <- Hw. by apply short_runs_drop.
Qed.

(** X7. Sanitizing twice is sanitizing once, unless the text was cut: when
    the text, sanitized but not yet cut, has at most 3000 characters, the
    sanitizer returns its own result unchanged. *)
Theorem sanitizing_twice_changes_nothing (t : list N) :
  length (trim (collapse_ws (strip_unsafe t))) <= MAX_CHARS ->
  cleaned (cleaned t) = cleaned t.
Proof.
  intros Hlen.
  assert (cleaned t = trim (collapse_ws (strip_unsafe t))) as E.
  { unfold cleaned, slice0. by apply take_ge. }
  rewrite E. apply clean_text_fixed; [| | |done].
  - eapply Forall_impl; [|intros c; apply safe_printable].
    apply trim_Forall, collapse_runs_Forall; [done|]. apply strip_unsafe_safe.
  - apply short_runs_trim. by apply collapse_runs_short_runs.
  - apply trim_trimmed.
Qed.

Lemma sanitizing_twice_changes_nothing_witness :
  cleaned (cleaned (lit "  Jane      Doe  ")) = cleaned (lit "  Jane      Doe  ").
Proof.
  apply sanitizing_twice_changes_nothing. vm_compute. lia.
Defined.

End SanitizerTwice.

(** ** Values inside fences and prose *)

Module Wrapped.
Import JsString Json Parser ParserSpec JsonSpec WrappedSpec ParserFacts NumberFacts JsonFacts.
Local Open Scope N_scope.

(** *** Trimming *)

Lemma trimStart_blank w x : blank w -> trimStart (w ++ x) = trimStart x.
Proof. induction 1 as [|c w Hc _ IH]; simpl; [done|]. by rewrite Hc. Qed.

Lemma trimStart_keeps c x : is_space c = false -> trimStart (c :: x) = c :: x.
Proof. intros H. simpl. by rewrite H. Qed.

Lemma trimEnd_blank x w : blank w -> trimEnd (x ++ w) = trimEnd x.
Proof.
  intros Hw. unfold trimEnd. rewrite rev_app_distr.
  rewrite trimStart_blank; [done|]. by apply Forall_rev.
Qed.

Lemma trimEnd_keeps x d : is_space d = false -> trimEnd (x ++ [d]) = x ++ [d].
Proof.
  intros H. unfold trimEnd. rewrite rev_app_distr. simpl. rewrite H.
  simpl. by rewrite rev_involutive.
Qed.

Lemma trimEnd_head c x : is_space c = false -> exists y, trimEnd (c :: x) = c :: y.
Proof.
  intros Hc. revert c Hc. induction x as [|d x IH] using rev_ind; intros c Hc.
  - exists []. apply (trimEnd_keeps [] c Hc).
  - destruct (is_space d) eqn:Hd.
    + change (c :: x ++ [d]) with ((c :: x) ++ [d]).
      rewrite trimEnd_blank by (by repeat constructor). by apply IH.
    + exists (x ++ [d]). apply (trimEnd_keeps (c :: x) d Hd).
Qed.

Lemma trim_blank_around w1 s w2 c d :
  blank w1 -> blank w2 -> head s = Some c -> last s = Some d ->
  is_space c = false -> is_space d = false ->
  trim (w1 ++ s ++ w2) = s.
Proof.
  intros H1 H2 Hh Hl Hc Hd. unfold trim. rewrite trimStart_blank by done.
  destruct s as [|c' s]; [done|]. simpl in Hh. simplify_eq.
  rewrite <- app_comm_cons, trimStart_keeps by done.
  rewrite app_comm_cons, trimEnd_blank by done.
  destruct (c :: s) as [|x l _] using rev_ind; [done|].
  rewrite last_snoc in Hl. simplify_eq. by apply trimEnd_keeps.
Qed.

Lemma trim_head w c x :
  blank w -> is_space c = false -> exists y, trim (w ++ c :: x) = c :: y.
Proof.
  intros Hw Hc. unfold trim. rewrite trimStart_blank, trimStart_keeps by done.
  by apply trimEnd_head.
Qed.

(** *** Texts that are not JSON *)

Lemma is_ws_space c : is_ws c = true -> is_space c = true.
Proof.
  unfold is_ws, is_space. rewrite !orb_true_iff, !andb_true_iff, !N.eqb_eq, !N.leb_le. lia.
Qed.

Lemma JSON_parse_bad_start c r :
  is_space c = false -> ~ value_start c -> JSON_parse (c :: r) = None.
Proof.
  intros Hsp Hv. unfold JSON_parse.
  assert (is_ws c = false) as Hws.
  { destruct (is_ws c) eqn:E; [|done]. apply is_ws_space in E. congruence. }
  assert (parse_value (2 * length (c :: r) + 1) (c :: r) = Bad) as ->; [|done].
  replace (2 * length (c :: r) + 1)%nat with (S (2 * length (c :: r))) by lia.
  unfold value_start in Hv.
  assert (c <> 91 /\ c <> 123 /\ c <> 34 /\ c <> 110 /\ c <> 116 /\ c <> 102 /\ c <> 45
          /\ is_digit c = false) as (H1 & H2 & H3 & H4 & H5 & H6 & H7 & H8).
  { destruct (is_digit c) eqn:E; [tauto|]. repeat split; try done; intros ->; tauto. }
  apply N.eqb_neq in H1, H2, H3, H4, H5, H6, H7.
  cbn [parse_value]. rewrite skip_ws_start by done.
  rewrite H1, H2, H3, H4, H5, H6.
  unfold lex_number, lex_minus. rewrite H7. simpl. by rewrite H8.
Qed.

(** *** Fence markers *)

Lemma strip_fences_cons c r : c <> 96 -> strip_fences (c :: r) = c :: strip_fences r.
Proof.
  intros Hc. simpl.
  destruct c as [|p]; [done|].
  do 7 (destruct p as [p|p|]; try done).
Qed.

Lemma strip_fences_app t u : 96 ∉ t -> strip_fences (t ++ u) = t ++ strip_fences u.
Proof.
  induction t as [|c t IH]; [done|]. intros H.
  rewrite <- app_comm_cons, strip_fences_cons.
  - rewrite IH; [done|]. intros Hin. apply H. by right.
  - intros ->. apply H. by left.
Qed.

Lemma strip_fences_clean t : 96 ∉ t -> strip_fences t = t.
Proof.
  intros H. rewrite <- (app_nil_r t) at 1. rewrite strip_fences_app by done.
  by rewrite app_nil_r.
Qed.

Lemma strip_fences_fence r3 :
  strip_fences (96 :: 96 :: 96 :: r3) =
  match r3 with
  | a :: b :: c :: d :: r7 =>
      if is_json_word a b c d then strip_fences r7 else strip_fences r3
  | _ => strip_fences r3
  end.
Proof. reflexivity. Qed.

Lemma strip_fences_plain r3 :
  match r3 with a :: _ => a <> 106 /\ a <> 74 | [] => True end ->
  strip_fences (96 :: 96 :: 96 :: r3) = strip_fences r3.
Proof.
  intros H. rewrite strip_fences_fence.
  destruct r3 as [|a [|b [|c [|d r7]]]]; try done.
  destruct H as [H1%N.eqb_neq H2%N.eqb_neq].
  unfold is_json_word. by rewrite H1, H2.
Qed.

Lemma blank_no_backtick w : blank w -> 96 ∉ w.
Proof.
  intros Hw Hin. unfold blank in Hw. rewrite Forall_forall in Hw. by apply Hw in Hin.
Qed.

Lemma strip_fences_opener o rest c r :
  fence_open o -> rest = c :: r -> c <> 106 -> c <> 74 ->
  strip_fences (o ++ rest) = strip_fences rest.
Proof.
  intros [->|(a & b & c' & d & -> & Hw)] -> H1 H2.
  - by apply strip_fences_plain.
  - change (strip_fences (96 :: 96 :: 96 :: a :: b :: c' :: d :: c :: r) =
            strip_fences (c :: r)).
    by rewrite strip_fences_fence, Hw.
Qed.

Lemma space_not_j c : is_space c = true -> c <> 106 /\ c <> 74.
Proof. intros H. split; intros ->; done. Qed.

Lemma value_start_not_j c : value_start c -> c <> 106 /\ c <> 74.
Proof.
  unfold value_start. rewrite is_digit_iff. intros H. lia.
Qed.

(** *** The bracketed part of a text *)

Lemma first_index_found open p y :
  open ∉ p -> first_index open (p ++ open :: y) = Some (length p).
Proof.
  induction p as [|c p IH]; simpl; intros H.
  - by rewrite N.eqb_refl.
  - destruct (c =? open) eqn:E.
    + apply N.eqb_eq in E. subst. exfalso. apply H. by left.
    + rewrite IH; [done|]. intros Hin. apply H. by right.
Qed.

Lemma first_index_none open t : open ∉ t -> first_index open t = None.
Proof.
  induction t as [|c t IH]; simpl; intros H; [done|].
  destruct (c =? open) eqn:E.
  - apply N.eqb_eq in E. subst. exfalso. apply H. by left.
  - rewrite IH; [done|]. intros Hin. apply H. by right.
Qed.

Lemma last_index_none close q : close ∉ q -> last_index close q = None.
Proof.
  induction q as [|c q IH]; simpl; intros H; [done|].
  rewrite IH by (intros Hin; apply H; by right).
  destruct (c =? close) eqn:E; [|done].
  apply N.eqb_eq in E. subst. exfalso. apply H. by left.
Qed.

Lemma last_index_found close x q :
  close ∉ q -> last_index close (x ++ close :: q) = Some (length x).
Proof.
  intros H. induction x as [|c x IH]; simpl.
  - by rewrite last_index_none, N.eqb_refl.
  - by rewrite IH.
Qed.

Lemma between_found open close p body q :
  open ∉ p -> close ∉ q ->
  between open close (p ++ (open :: body ++ [close]) ++ q)
  = Some (open :: body ++ [close]).
Proof.
  intros Hp Hq. unfold between.
  assert (p ++ (open :: body ++ [close]) ++ q = p ++ open :: body ++ close :: q) as ->.
  { simpl. by rewrite <- app_assoc. }
  rewrite first_index_found by done.
  assert (p ++ open :: body ++ close :: q = (p ++ open :: body) ++ close :: q) as E.
  { by rewrite <- app_assoc. }
  rewrite E at 1. rewrite last_index_found by done.
  rewrite length_app. simpl length.
  assert ((length p <? length p + S (length body))%nat = true) as -> by (apply Nat.ltb_lt; lia).
  f_equal. rewrite drop_app_length.
  replace (S (length p + S (length body)) - length p)%nat
    with (length (open :: body ++ [close])) by (simpl; rewrite length_app; simpl; lia).
  assert (open :: body ++ close :: q = (open :: body ++ [close]) ++ q) as ->.
  { simpl. by rewrite <- app_assoc. }
  by rewrite take_app_length.
Qed.

(** *** Prose before the value *)

Lemma prose_not_json p x :
  prose p -> strategy_direct (p ++ x) = None /\ strategy_fenced (p ++ x) = None.
Proof.
  intros (w & c & r & -> & Hw & Hc & H96 & Hv).
  unfold strategy_direct, strategy_fenced. split.
  - rewrite <- app_assoc, <- app_comm_cons.
    destruct (trim_head w c (r ++ x) Hw Hc) as [y ->].
    by apply JSON_parse_bad_start.
  - rewrite <- app_assoc, <- app_comm_cons.
    rewrite strip_fences_app by (by apply blank_no_backtick).
    rewrite strip_fences_cons by done.
    destruct (trim_head w c (strip_fences (r ++ x)) Hw Hc) as [y ->].
    by apply JSON_parse_bad_start.
Qed.

Lemma prose_nonempty p x : prose p -> JsString.truthy (p ++ x) = true.
Proof. intros (w & c & r & -> & _). by destruct w. Qed.

(** X8. A value inside a fenced block is recovered: when the answer is a
    fenced block (three backticks, with or without the word [json] in any
    letter case; the JSON text of a value; three backticks), with nothing but
    whitespace around the markers, and the JSON text holds no backtick,
    [parseJSON] gives the value. *)
Theorem fenced_value_is_recovered (w0 o w1 w2 w3 : list N) (v : json) :
  fence_open o -> blank w0 -> blank w1 -> blank w2 -> blank w3 ->
  well_formed v -> all_finite v -> 96 ∉ stringify v ->
  parseJSON (w0 ++ o ++ w1 ++ stringify v ++ w2 ++ lit "```" ++ w3) = v.
Proof.
  intros Ho H0 H1 H2 H3 Hwf Hfin Hs.
  destruct (stringify_shape v Hfin) as (c & tl & d & E & Hc & Hl & Hd).
  destruct (value_start_facts c Hc) as (_ & Hcsp & _).
  pose proof (value_end_facts d Hd) as Hdsp.
  assert (exists o', o = 96 :: o') as [o' Eo].
  { destruct Ho as [->|(a & b & c' & e & -> & _)]; by eexists. }
  unfold parseJSON.
  assert (JsString.truthy (w0 ++ o ++ w1 ++ stringify v ++ w2 ++ lit "```" ++ w3) = true)
    as -> by (rewrite Eo; by destruct w0).
  simpl negb. cbn iota. unfold first_success, strategy_direct, strategy_fenced.
  assert (JSON_parse (trim (w0 ++ o ++ w1 ++ stringify v ++ w2 ++ lit "```" ++ w3)) = None)
    as ->.
  { rewrite Eo, <- app_comm_cons.
    destruct (trim_head w0 96 (o' ++ w1 ++ stringify v ++ w2 ++ lit "```" ++ w3) H0) as [y ->];
      [done|].
    apply JSON_parse_bad_start; [done|]. unfold value_start. rewrite is_digit_iff. lia. }
  assert (strip_fences (w0 ++ o ++ w1 ++ stringify v ++ w2 ++ lit "```" ++ w3)
          = (w0 ++ w1) ++ stringify v ++ (w2 ++ w3)) as ->.
  { rewrite strip_fences_app by (by apply blank_no_backtick).
    assert (exists a r, w1 ++ stringify v ++ w2 ++ lit "```" ++ w3 = a :: r
                        /\ a <> 106 /\ a <> 74) as (a & r & Er & Ha1 & Ha2).
    { destruct w1 as [|a w1].
      - rewrite E. eexists c, _. split; [done|]. by apply value_start_not_j.
      - eexists a, _. split; [done|]. apply space_not_j. by inversion H1. }
    rewrite (strip_fences_opener o _ a r Ho Er Ha1 Ha2).
    rewrite strip_fences_app by (by apply blank_no_backtick).
    rewrite strip_fences_app by done.
    rewrite strip_fences_app by (by apply blank_no_backtick).
    change (lit "```" ++ w3) with (96 :: 96 :: 96 :: w3).
    rewrite strip_fences_plain.
    - rewrite strip_fences_clean by (by apply blank_no_backtick).
      by rewrite <- !app_assoc.
    - destruct w3 as [|x w3]; [done|]. apply space_not_j. by inversion H3. }
  rewrite (trim_blank_around _ _ _ c d); try done.
  - by rewrite JSON_parse_stringify.
  - by apply Forall_app.
  - by apply Forall_app.
  - by rewrite E.
Qed.

(** X9. An array after prose is recovered: when the answer begins with
    prose, has no [[] before the JSON text of an array and no []] after it,
    [parseJSON] gives that array, whatever else stands around it, braces
    included: also when the array is a member of an object of the answer. *)
Theorem array_in_prose_is_recovered (p q : list N) (vs : list json) :
  prose p -> 91 ∉ p -> 93 ∉ q ->
  well_formed (JArr vs) -> all_finite (JArr vs) ->
  parseJSON (p ++ stringify (JArr vs) ++ q) = JArr vs.
Proof.
  intros Hp H91 H93 Hwf Hfin.
  destruct (prose_not_json p (stringify (JArr vs) ++ q) Hp) as [E1 E2].
  unfold parseJSON. rewrite prose_nonempty by done. simpl negb. cbn iota.
  unfold first_success. rewrite E1, E2.
  unfold strategy_array. rewrite match_bracketed_between.
  rewrite stringify_array, app_assoc.
  change (91 :: elements_text vs ++ [93]) with (91 :: elements_text vs ++ [93]).
  rewrite <- app_assoc.
  rewrite (between_found 91 93 p (elements_text vs) q H91 H93).
  rewrite <- stringify_array. by rewrite JSON_parse_stringify.
Qed.

(** X10. An object after prose is recovered when the answer has no [[]: when
    the answer begins with prose, has no [{] before the JSON text of an
    object, no [}] after it and no [[] anywhere, [parseJSON] gives that
    object. *)
Theorem object_in_prose_is_recovered (p q : list N) (o : list (list N * json)) :
  prose p -> 123 ∉ p -> 125 ∉ q ->
  91 ∉ p ++ stringify (JObj o) ++ q ->
  well_formed (JObj o) -> all_finite (JObj o) ->
  parseJSON (p ++ stringify (JObj o) ++ q) = JObj o.
Proof.
  intros Hp H123 H125 H91 Hwf Hfin.
  destruct (prose_not_json p (stringify (JObj o) ++ q) Hp) as [E1 E2].
  unfold parseJSON. rewrite prose_nonempty by done. simpl negb. cbn iota.
  unfold first_success. rewrite E1, E2.
  unfold strategy_array, strategy_object. rewrite !match_bracketed_between.
  assert (between 91 93 (p ++ stringify (JObj o) ++ q) = None) as ->.
  { unfold between. by rewrite first_index_none. }
  rewrite stringify_object.
  rewrite (between_found 123 125 p (members_text o) q H123 H125).
  rewrite <- stringify_object. by rewrite JSON_parse_stringify.
Qed.

Ltac dec :=
  match goal with |- ?P => apply (bool_decide_eq_true_1 P); vm_compute; reflexivity end.

Ltac is_prose w c r :=
  exists w, c, r; split; [reflexivity|]; split; [by repeat constructor|];
  split; [reflexivity|]; split; [done|];
  unfold value_start; rewrite is_digit_iff; lia.

Lemma fenced_value_is_recovered_witness :
  parseJSON (lit "```json" ++ [10] ++ stringify (JArr [JObj [(lit "title", JStr (lit "Engineer"))]])
             ++ [10] ++ lit "```" ++ [10])
  = JArr [JObj [(lit "title", JStr (lit "Engineer"))]].
Proof.
  apply (fenced_value_is_recovered [] (lit "```json") [10] [10] [10]).
  - right. by exists 106, 115, 111, 110.
  - constructor.
  - by repeat constructor.
  - by repeat constructor.
  - by repeat constructor.
  - simpl. repeat split; dec.
  - simpl. tauto.
  - dec.
Defined.

Lemma array_in_prose_is_recovered_witness :
  parseJSON (jlit "Here is the profile: {'name':'Jane','skills':"
             ++ stringify (JArr [JStr (lit "Rocq"); JStr (lit "OCaml")])
             ++ jlit ",'education':'MSc'} I hope it helps.")
  = JArr [JStr (lit "Rocq"); JStr (lit "OCaml")].
Proof.
  apply array_in_prose_is_recovered.
  - is_prose (@nil N) 72 (jlit "ere is the profile: {'name':'Jane','skills':").
  - dec.
  - dec.
  - simpl. tauto.
  - simpl. tauto.
Defined.

Lemma object_in_prose_is_recovered_witness :
  parseJSON (lit "Sure! " ++ stringify (JObj [(lit "overall_fit", JStr (lit "Good match"))])
             ++ lit " Let me know.")
  = JObj [(lit "overall_fit", JStr (lit "Good match"))].
Proof.
  apply object_in_prose_is_recovered.
  - is_prose (@nil N) 83 (lit "ure! ").
  - dec.
  - dec.
  - dec.
  - simpl. repeat split; dec.
  - simpl. tauto.
Defined.

End Wrapped.

Module Fences.
Import JsString Json Parser WrappedSpec Wrapped FenceSpec.
Local Open Scope N_scope.

Lemma lead_fence t : (3 <= lead t)%nat -> exists r3, t = 96 :: 96 :: 96 :: r3.
Proof.
  destruct t as [|a [|b [|c r3]]]; simpl; try lia;
    repeat (match goal with |- context [?x =? 96] => destruct (N.eqb_spec x 96) end;
            subst; simpl; try lia).
  by exists r3.
Qed.

Lemma lead_cons_other c r : c <> 96 -> lead (c :: r) = 0%nat.
Proof. intros H%N.eqb_neq. simpl. by rewrite H. Qed.

(** One step of the scan: a marker at the head is dropped and the scan goes
    on in a shorter text; otherwise the first character is kept. *)
Lemma strip_fences_step t :
  ((3 <= lead t)%nat /\
   exists t', (length t' < length t)%nat /\ strip_fences t = strip_fences t') \/
  ((lead t <= 2)%nat /\
   match t with
   | [] => strip_fences t = []
   | c :: r => strip_fences t = c :: strip_fences r
   end).
Proof.
  destruct (decide (3 <= lead t)%nat) as [H|H].
  - left. split; [done|]. destruct (lead_fence t H) as [r3 ->].
    rewrite strip_fences_fence.
    destruct r3 as [|a [|b [|c [|d r7]]]];
      try (eexists; split; [|reflexivity]; simpl; lia).
    destruct (is_json_word a b c d); eexists; (split; [|reflexivity]); simpl; lia.
  - right. split; [lia|]. destruct t as [|c r]; [done|].
    destruct (N.eqb_spec c 96) as [->|Hc]; [|by apply strip_fences_cons].
    destruct r as [|b r]; [done|].
    destruct (N.eqb_spec b 96) as [->|Hb].
    + destruct r as [|d r]; [done|].
      destruct (N.eqb_spec d 96) as [->|Hd]; [simpl in H; lia|].
      destruct d as [|p]; [done|]. do 7 (destruct p as [p|p|]; try done).
    + destruct b as [|p]; [done|]. do 7 (destruct p as [p|p|]; try done).
Qed.

Lemma strip_fences_lead n : forall t, (length t <= n)%nat ->
  (forall i, (lead (drop i (strip_fences t)) <= 2)%nat) /\
  (lead (strip_fences t) <= lead t)%nat.
Proof.
  induction n as [|n IH]; intros t Hn.
  { destruct t; [|simpl in Hn; lia]. simpl. split; [intros i; rewrite drop_nil; simpl; lia|done]. }
  destruct (strip_fences_step t) as [(H3 & t' & Hlen & ->)|(H2 & Hstep)].
  - destruct (IH t') as [HA HB]; [lia|]. split; [done|].
    pose proof (HA 0%nat) as H0. rewrite drop_0 in H0. lia.
  - destruct t as [|c r]; [rewrite Hstep; split; [intros i; rewrite drop_nil; simpl; lia|done]|].
    rewrite Hstep. destruct (IH r) as [HA HB]; [simpl in Hn; lia|].
    assert (lead (c :: strip_fences r) <= lead (c :: r))%nat as Hle.
    { simpl. destruct (c =? 96); lia. }
    split; [|done]. intros [|i]; [simpl drop; lia|apply HA].
Qed.

Lemma no_fence_fixed u :
  (forall i, (lead (drop i u) <= 2)%nat) -> strip_fences u = u.
Proof.
  induction u as [|c r IH]; intros H; [done|].
  destruct (strip_fences_step (c :: r)) as [(H3 & _)|(_ & ->)].
  - specialize (H 0%nat). simpl drop in H. lia.
  - rewrite IH; [done|]. intros i. apply (H (S i)).
Qed.

Lemma lead_has_fence u :
  (forall i, (lead (drop i u) <= 2)%nat) -> ~ has_fence u.
Proof.
  intros H (a & b & ->). specialize (H (length a)).
  rewrite drop_app_length in H. simpl in H. lia.
Qed.

(** X11. Removing the fence markers leaves none: in the text that the
    second strategy of [parseJSON] parses no three backticks stand in a row,
    and removing the markers once more changes nothing. *)
Theorem no_fence_marker_is_left (t : list N) :
  ~ has_fence (strip_fences t) /\
  strip_fences (strip_fences t) = strip_fences t.
Proof.
  destruct (strip_fences_lead (length t) t) as [HA _]; [done|].
  split; [by apply lead_has_fence|by apply no_fence_fixed].
Qed.

End Fences.

Module Reparse.
Import JsString Json Parser JsonSpec ReparseSpec NumberFacts JsonFacts.
Local Open Scope N_scope.

Lemma elements_text_nullify vs :
  Forall (fun v => stringify (nullify v) = stringify v) vs ->
  elements_text (List.map nullify vs) = elements_text vs.
Proof.
  induction 1 as [|v vs Hv _ IH]; [done|]. simpl. rewrite Hv.
  destruct vs as [|v' vs]; [done|]. simpl in *. by rewrite IH.
Qed.

Lemma members_text_nullify kvs :
  Forall (fun kv => stringify (nullify kv.2) = stringify kv.2) kvs ->
  members_text (List.map (fun kv => (kv.1, nullify kv.2)) kvs) = members_text kvs.
Proof.
  induction 1 as [|[k v] kvs Hv _ IH]; [done|]. simpl in *. rewrite Hv.
  destruct kvs as [|[k' v'] kvs]; [done|]. simpl in *. by rewrite IH.
Qed.

Lemma stringify_nullify v : stringify (nullify v) = stringify v.
Proof.
  induction v as [|b|x|s|vs IH|kvs IH] using json_induction; try done.
  - by destruct x.
  - change (nullify (JArr vs)) with (JArr (List.map nullify vs)).
    by rewrite !stringify_array, elements_text_nullify.
  - change (nullify (JObj kvs)) with (JObj (List.map (fun kv => (kv.1, nullify kv.2)) kvs)).
    by rewrite !stringify_object, members_text_nullify.
Qed.

Lemma nullify_finite v : all_finite (nullify v).
Proof.
  induction v as [|b|x|s|vs IH|kvs IH] using json_induction; try done.
  - by destruct x.
  - change (nullify (JArr vs)) with (JArr (List.map nullify vs)). simpl.
    apply fold_right_and. by apply Forall_fmap.
  - change (nullify (JObj kvs)) with (JObj (List.map (fun kv => (kv.1, nullify kv.2)) kvs)).
    simpl. apply (fold_right_and (fun kv => all_finite kv.2)). by apply Forall_fmap.
Qed.

Lemma nullify_well_formed v : well_formed v -> well_formed (nullify v).
Proof.
  induction v as [|b|x|s|vs IH|kvs IH] using json_induction; try done.
  - by destruct x.
  - change (nullify (JArr vs)) with (JArr (List.map nullify vs)). simpl.
    rewrite !fold_right_and. intros Hwf. apply Forall_fmap.
    rewrite Forall_forall in IH, Hwf |- *. intros v Hv. simpl.
    apply IH; [done|]. by apply Hwf.
  - change (nullify (JObj kvs)) with (JObj (List.map (fun kv => (kv.1, nullify kv.2)) kvs)).
    simpl. rewrite !(fold_right_and (fun kv => well_formed kv.2)).
    intros [Hnd Hwf]. split.
    + rewrite List.map_map. simpl. done.
    + apply Forall_fmap. rewrite Forall_forall in IH, Hwf |- *. intros kv Hkv. simpl.
      apply IH; [done|]. by apply Hwf.
Qed.

Lemma nullify_of_finite v : all_finite v -> nullify v = v.
Proof.
  induction v as [|b|x|s|vs IH|kvs IH] using json_induction; try done.
  - by destruct x.
  - simpl. rewrite fold_right_and. intros Hfin. f_equal.
    rewrite <- (map_id vs) at 2. apply map_ext_Forall.
    rewrite Forall_forall in IH, Hfin |- *. intros v Hv. apply IH; [done|]. by apply Hfin.
  - simpl. rewrite (fold_right_and (fun kv => all_finite kv.2)). intros Hfin. f_equal.
    rewrite <- (map_id kvs) at 2. apply map_ext_Forall.
    rewrite Forall_forall in IH, Hfin |- *. intros [k v] Hv. simpl. f_equal.
    apply (IH (k, v)); [done|]. by apply (Hfin (k, v)).
Qed.

Lemma JSON_parse_stringify_any v :
  well_formed v -> JSON_parse (stringify v) = Some (nullify v).
Proof.
  intros Hwf. rewrite <- stringify_nullify.
  apply JSON_parse_stringify; [by apply nullify_well_formed|apply nullify_finite].
Qed.

(** X12. What re-parsing gives, for every text: writing the value that
    [parseJSON] gives as JSON text and giving that text to [parseJSON] gives
    the value with [null] in the place of every number that was read as an
    infinity, and nothing else changed. *)
Theorem reparse_puts_null_for_infinity (txt : list N) :
  parseJSON (stringify (parseJSON txt)) = nullify (parseJSON txt).
Proof.
  rewrite <- stringify_nullify.
  apply parseJSON_stringify; [|apply nullify_finite].
  apply nullify_well_formed, parseJSON_well_formed.
Qed.

End Reparse.

(** ** The proxies, [ask], and what passes between them *)

Module ProxyFacts.
Import JsString Json Parser JsonSpec ReparseSpec ValueSpec NumberFacts JsonFacts Reparse Js Http.
Local Open Scope N_scope.

Lemma bind_Return {A B} (a : A) (f : A -> result B) : (Return a ≫= f) = f a.
Proof. reflexivity. Qed.

Lemma bind_Throw {A B} (e : Exn) (f : A -> result B) : (Throw e ≫= f) = Throw e.
Proof. reflexivity. Qed.

Lemma parse_stringify v : well_formed v -> parse (stringify v) = Return (nullify v).
Proof. intros H. unfold parse. by rewrite JSON_parse_stringify_any. Qed.

Lemma parse_result_well_formed text v : parse text = Return v -> well_formed v.
Proof.
  unfold parse. destruct (JSON_parse text) eqn:E; [|done].
  intros [= <-]. by eapply JSON_parse_well_formed.
Qed.

Lemma is_Some_parse_stringify v : well_formed v -> is_Some (JSON_parse (stringify v)).
Proof. intros H. rewrite JSON_parse_stringify_any by done. by eexists. Qed.

Lemma error_body_is_json m : is_Some (JSON_parse (error_body (JStr m))).
Proof.
  apply is_Some_parse_stringify. unfold error_body. simpl.
  repeat split; apply (bool_decide_eq_true_1 _); vm_compute; reflexivity.
Qed.

Lemma new_Response_body body st hs r :
  new_Response body st hs = Return r -> resp_body r = body /\ status r = st.
Proof.
  unfold new_Response. destruct (_ || _); [done|]. destruct (null_body st); [done|].
  by intros [= <-].
Qed.

Lemma get_member_well_formed k o :
  well_formed (JObj o) -> well_formed_value (get_member k o).
Proof.
  simpl. intros [_ H]. apply (fold_right_and (fun kv => well_formed kv.2)) in H.
  induction H as [|[k' v] o Hv _ IH]; simpl; [done|].
  destruct (decide (k' = k)); done.
Qed.

Lemma get_well_formed k v w :
  well_formed_value v -> get k v = Return w -> well_formed_value w.
Proof.
  destruct v as [[| | | | |o]|]; simpl; try done; try (by intros _ [= <-]).
  intros H [= <-]. by apply get_member_well_formed.
Qed.

Lemma get_opt_well_formed k v : well_formed_value v -> well_formed_value (get_opt k v).
Proof.
  destruct v as [[| | | | |o]|]; simpl; try done. apply get_member_well_formed.
Qed.

Lemma first_opt_well_formed v : well_formed_value v -> well_formed_value (first_opt v).
Proof.
  destruct v as [[| | |s|vs|o]|]; simpl; try done.
  - by destruct s.
  - destruct vs; simpl; [done|]. tauto.
  - apply get_member_well_formed.
Qed.

Lemma or_else_well_formed a b :
  well_formed_value a -> well_formed_value b -> well_formed_value (or_else a b).
Proof. unfold or_else. by destruct (Js.truthy a). Qed.

End ProxyFacts.

Module AnthropicFacts.
Import JsString Json Parser JsonSpec ReparseSpec ValueSpec NumberFacts JsonFacts Reparse Js Http
  ProxyFacts AnthropicProxy.
Local Open Scope N_scope.

Section proxy.
Variable builtin_message : Exn -> list N.
Variable api_key : option (list N).
Variable fetch : Request -> Fetched.


(** X13. The proxy to the Anthropic API passes values through unchanged in
    both directions: for a POST whose body is JSON, the body sent on is JSON
    for the same value, and when the API answers with JSON the client gets
    the status of the API and a body that is JSON for the value the API
    sent (a number outside the range of binary64 arrives as [null]). *)
Theorem anthropic_proxy_passes_values_through (req : Request) (v : json)
    (response : Response) (d : json) :
  req_method req = lit "POST" ->
  JSON_parse (req_body req) = Some v ->
  fetch (forwarded api_key v) = Answer response ->
  JSON_parse (resp_body response) = Some d ->
  200 <= status response <= 599 -> null_body (status response) = false ->
  JSON_parse (req_body (forwarded api_key v)) = Some (nullify v) /\
  status (handler builtin_message api_key fetch req) = status response /\
  JSON_parse (resp_body (handler builtin_message api_key fetch req)) = Some (nullify d).
Proof.
  intros Hm Hv Hf Hd Hst Hnb. split; [|split].
  - simpl. apply JSON_parse_stringify_any. by eapply JSON_parse_well_formed.
  - unfold AnthropicProxy.handler, relay, outgoing, parse. rewrite Hm, Hv. simpl.
    rewrite Hf, Hd. simpl. unfold new_Response. rewrite Hnb.
    assert ((status response <? 200) || (599 <? status response) = false) as ->; [|done].
    apply orb_false_iff. rewrite N.ltb_ge, N.ltb_ge. lia.
  - unfold AnthropicProxy.handler, relay, outgoing, parse. rewrite Hm, Hv. simpl.
    rewrite Hf, Hd. simpl. unfold new_Response. rewrite Hnb.
    assert ((status response <? 200) || (599 <? status response) = false) as ->.
    { apply orb_false_iff. rewrite N.ltb_ge, N.ltb_ge. lia. }
    simpl. apply JSON_parse_stringify_any. by eapply JSON_parse_well_formed.
Qed.

(** The answer to a POST is JSON. *)
Lemma anthropic_handler_answers_json (req : Request) :
  req_method req = lit "POST" ->
  is_Some (JSON_parse (resp_body (handler builtin_message api_key fetch req))).
Proof.
  intros Hm. unfold AnthropicProxy.handler. rewrite Hm. simpl.
  destruct (relay _ _ _) as [r|e] eqn:E; [|apply error_body_is_json].
  unfold relay, outgoing in E.
  destruct (parse (req_body req)) as [body|] eqn:Eb; [|done]. simpl in E.
  destruct (fetch _) as [|response]; [done|].
  destruct (parse (resp_body response)) as [data|] eqn:Ed; [|done]. simpl in E.
  apply new_Response_body in E as [-> _].
  apply is_Some_parse_stringify. by eapply parse_result_well_formed.
Qed.

End proxy.

End AnthropicFacts.

Module GroqFacts.
Import JsString Json Parser JsonSpec ReparseSpec ValueSpec NumberFacts JsonFacts Reparse Js Http
  ProxyFacts GroqProxy.
Local Open Scope N_scope.

Section proxy.
Variable number_to_string : number -> list N.
Variable builtin_message : Exn -> list N.
Variable api_key : option (list N).
Variable fetch : Request -> Fetched.

Lemma literal_well_formed members :
  NoDup (members.*1) -> Forall (fun kv => well_formed_value kv.2) members ->
  well_formed (literal members).
Proof.
  intros Hnd Hwf. unfold literal. simpl. split.
  - induction members as [|[k [v|]] members IH]; simpl in *; [constructor| |].
    + inversion_clear Hnd as [|? ? Hk Hrest]. inversion_clear Hwf.
      apply NoDup_cons. split; [|by apply IH].
      intros Hin. apply Hk. clear -Hin.
      induction members as [|[k' [v'|]] members IH]; simpl in *; [by inversion Hin| |].
      * apply elem_of_cons in Hin as [->|Hin]; [by left|right; by apply IH].
      * right. by apply IH.
    + inversion_clear Hnd. inversion_clear Hwf. by apply IH.
  - apply (fold_right_and (fun kv => well_formed kv.2)).
    induction Hwf as [|[k [v|]] members Hv _ IH]; simpl in *; [constructor| |].
    + inversion_clear Hnd. constructor; [done|]. by apply IH.
    + inversion_clear Hnd. by apply IH.
Qed.

Lemma members_well_formed k v members :
  well_formed_value v -> Forall (fun kv => well_formed_value kv.2) members ->
  Forall (fun kv : list N * value => well_formed_value kv.2) ((k, v) :: members).
Proof. by constructor. Qed.

Lemma some_well_formed j : well_formed j -> well_formed_value (Some j).
Proof. done. Qed.

Ltac distinct := apply (bool_decide_eq_true_1 _); vm_compute; reflexivity.

Ltac literals :=
  repeat first
    [ apply literal_well_formed; [distinct|]
    | apply members_well_formed
    | apply Forall_nil_2
    | apply some_well_formed
    | apply or_else_well_formed
    | apply get_opt_well_formed
    | apply first_opt_well_formed
    | assumption ].

Lemma converted_well_formed text :
  well_formed_value text -> well_formed (converted text).
Proof.
  intros H. unfold converted. literals; try done.
  change (well_formed (JArr [literal [(lit "type", Some (JStr (lit "text"))); (lit "text", text)]])).
  split; [|done]. literals; done.
Qed.

Lemma groq_handler_answers_json (req : Request) :
  req_method req = lit "POST" ->
  is_Some (JSON_parse (resp_body
             (handler number_to_string builtin_message api_key fetch req))).
Proof.
  intros Hm. unfold GroqProxy.handler. rewrite Hm. simpl.
  destruct (relay _ _ _ _) as [r|e] eqn:E; [|apply error_body_is_json].
  unfold relay, outgoing in E.
  destruct (parse (req_body req)) as [body|] eqn:Eb; [|done]. rewrite bind_Return in E.
  destruct (groqBody _ body) as [gb|]; [|done]. rewrite !bind_Return in E.
  destruct (fetch _) as [|response]; [done|].
  destruct (parse (resp_body response)) as [data|] eqn:Ed; [|done]. rewrite bind_Return in E.
  apply parse_result_well_formed in Ed.
  destruct (negb (ok response)).
  - destruct (error_message data (status response)) as [m|] eqn:Em; [|done].
    rewrite bind_Return in E.
    apply new_Response_body in E as [-> _]. apply is_Some_parse_stringify.
    unfold error_message in Em.
    destruct (get (lit "error") (Some data)) as [err|] eqn:Ee; [|done].
    rewrite bind_Return in Em. injection Em as <-.
    apply (get_well_formed _ (Some data)) in Ee; [|done].
    literals; done.
  - destruct (answer_text data) as [text|] eqn:Et; [|done]. rewrite bind_Return in E.
    apply new_Response_body in E as [-> _]. apply is_Some_parse_stringify.
    unfold answer_text in Et.
    destruct (get (lit "choices") (Some data)) as [ch|] eqn:Ec; [|done].
    rewrite bind_Return in Et. injection Et as <-.
    apply (get_well_formed _ (Some data)) in Ec; [|done].
    apply converted_well_formed. literals; done.
Qed.

End proxy.

End GroqFacts.

Module EndToEnd.
Import JsString Json Parser JsonSpec ReparseSpec ValueSpec Chain NumberFacts JsonFacts
  Reparse Js Http ProxyFacts.
Local Open Scope N_scope.

#[local] Arguments stringify : simpl never.

Lemma new_Response_200 body hs :
  new_Response body 200 hs = Return {| status := 200; resp_headers := hs; resp_body := body |}.
Proof. reflexivity. Qed.

Section chain.
Variable number_to_string : number -> list N.
Variable builtin_message : Exn -> list N.
Variable api_key : option (list N).
(** The API behind the proxy. *)
Variable upstream : Request -> Fetched.

Lemma request_body_well_formed prompt system maxTokens :
  well_formed (JNum maxTokens) ->
  well_formed (Api.request_body (JArr [user_message prompt]) system maxTokens None).
Proof.
  intros H. unfold Api.request_body, user_message. rewrite app_nil_r.
  split; [apply (bool_decide_eq_true_1 _); vm_compute; reflexivity|].
  split; [done|]. split; [done|]. split; [done|]. split; [|done].
  split; [|done]. split; [|done].
  apply (bool_decide_eq_true_1 _); vm_compute; reflexivity.
Qed.

Lemma groqBody_of_request prompt system maxTokens :
  GroqProxy.groqBody number_to_string
    (nullify (Api.request_body (JArr [user_message prompt]) system maxTokens None))
  = Return (literal
      [ (lit "model", Some (JStr (lit "llama-3.3-70b-versatile")));
        (lit "max_tokens", or_else (Some (nullify (JNum maxTokens))) (Some (integer 1500)));
        (lit "messages",
         Some (JArr ((if JsString.truthy system
                      then [JObj [(lit "role", JStr (lit "system"));
                                  (lit "content", JStr system)]]
                      else [])
                     ++ [user_message prompt])));
        (lit "temperature", Some (JNum (number_of_decimal false 7 (-1)))) ]).
Proof.
  unfold Api.request_body, user_message. rewrite app_nil_r.
  cbn [nullify List.map fst snd].
  unfold GroqProxy.groqBody.
  assert (forall k o, get k (Some (JObj o)) = Return (get_member k o)) as Hget by done.
  rewrite !Hget.
  change (get_member (lit "system") _) with (Some (JStr system)).
  rewrite bind_Return.
  change (get_member (lit "messages") _) with (Some (JArr [user_message prompt])).
  rewrite bind_Return.
  change (get_member (lit "max_tokens") _) with (Some (nullify (JNum maxTokens))).
  assert (GroqProxy.converted_messages number_to_string (Some (JArr [user_message prompt]))
          = Return [user_message prompt]) as -> by reflexivity.
  rewrite !bind_Return. by destruct system.
Qed.

Lemma ask_unfold fetch prompt system maxTokens :
  Api.ask number_to_string fetch prompt system maxTokens =
  match fetch (ask_request prompt system maxTokens) with
  | Failed m => Throw (FetchError m)
  | Answer r =>
      if negb (ok r)
      then Throw (Error (lit "API " ++ digits (status r) ++ lit ": "
                         ++ slice0 200 (resp_body r)))
      else d ← parse (resp_body r); Api.answer_text number_to_string d
  end.
Proof.
  unfold Api.ask, Api.CLAUDE, ask_request, user_message.
  destruct (fetch _) as [m|r]; [done|]. by destruct (negb (ok r)).
Qed.

(** [ask] reads back the text of a converted answer. *)
Lemma answer_text_converted (s : list N) :
  Api.answer_text number_to_string (GroqProxy.converted (Some (JStr s))) = Return s.
Proof. by destruct s. Qed.

(** What the proxy answers to the request of [ask] when the API answers. *)
Lemma groq_handler_on_ask (prompt system : list N) (maxTokens : number)
    (response : Response) (d : json) :
  well_formed (JNum maxTokens) ->
  (forall q, upstream q = Answer response) ->
  JSON_parse (resp_body response) = Some d ->
  GroqProxy.relay number_to_string api_key upstream (ask_request prompt system maxTokens)
  = if negb (ok response)
    then m ← GroqProxy.error_message d (status response);
         new_Response
           (stringify (literal [(lit "error", Some (literal [(lit "message", m)]))]))
           (status response) [content_type; allow_origin]
    else text ← GroqProxy.answer_text d;
         new_Response (stringify (GroqProxy.converted text)) 200 [content_type; allow_origin].
Proof.
  intros Hmax Hup Hd. unfold GroqProxy.relay, GroqProxy.outgoing.
  change (req_body (ask_request prompt system maxTokens))
    with (stringify (Api.request_body (JArr [user_message prompt]) system maxTokens None)).
  rewrite parse_stringify by (by apply request_body_well_formed).
  rewrite bind_Return, groqBody_of_request, !bind_Return, Hup.
  unfold parse. by rewrite Hd, bind_Return.
Qed.

(** X14. The text of the Groq API reaches [ask] unchanged: when the API
    answers the request of the proxy with a status 2xx and a JSON body in
    which [choices[0].message.content] is a string, [ask] returns that
    string; when it is missing or falsy, [ask] returns the empty text. *)
Theorem groq_text_reaches_ask (prompt system : list N) (maxTokens : number)
    (response : Response) (d : json) (s : list N) :
  well_formed (JNum maxTokens) ->
  (forall q, upstream q = Answer response) ->
  ok response = true ->
  JSON_parse (resp_body response) = Some d ->
  GroqProxy.answer_text d = Return (Some (JStr s)) ->
  Api.ask number_to_string (through_groq number_to_string builtin_message api_key upstream)
    prompt system maxTokens = Return s.
Proof.
  intros Hmax Hup Hok Hd Htext.
  assert (through_groq number_to_string builtin_message api_key upstream
            (ask_request prompt system maxTokens)
          = Answer {| status := 200; resp_headers := [content_type; allow_origin];
                      resp_body := stringify (GroqProxy.converted (Some (JStr s))) |}) as E.
  { unfold through_groq, GroqProxy.handler.
    change (req_method (ask_request prompt system maxTokens)) with (lit "POST").
    rewrite bool_decide_eq_true_2 by done.
    rewrite (groq_handler_on_ask _ _ _ response d) by done.
    by rewrite Hok, Htext. }
  rewrite ask_unfold, E.
  change (negb (ok _)) with false. cbn iota. simpl resp_body.
  rewrite parse_stringify by (by apply GroqFacts.converted_well_formed).
  rewrite bind_Return.
  assert (nullify (GroqProxy.converted (Some (JStr s))) = GroqProxy.converted (Some (JStr s)))
    as -> by done.
  apply answer_text_converted.
Qed.




End chain.
End EndToEnd.

Module GroqRequest.
Import JsString Json Parser JsonSpec ReparseSpec ValueSpec Chain NumberFacts JsonFacts
  Reparse Js Http ProxyFacts EndToEnd.
Local Open Scope N_scope.

#[local] Arguments stringify : simpl never.

Lemma number_of_decimal_canonical neg mant dexp m e :
  number_of_decimal neg mant dexp = Finite m e -> canonical m e.
Proof. apply round_canonical. Qed.

Lemma groq_body_well_formed prompt system maxTokens :
  well_formed (JNum maxTokens) -> well_formed (groq_body prompt system maxTokens).
Proof.
  intros H. unfold groq_body.
  split; [apply (bool_decide_eq_true_1 _); vm_compute; reflexivity|].
  split; [done|]. split; [|split; [|split; [|done]]].
  - destruct (number_truthy maxTokens); [done|].
    apply (number_of_decimal_canonical false 1500 0). vm_compute. reflexivity.
  - destruct system; simpl; repeat split;
      apply (bool_decide_eq_true_1 _); vm_compute; reflexivity.
  - apply (number_of_decimal_canonical false 7 (-1)). vm_compute. reflexivity.
Qed.

Lemma groq_body_finite prompt system maxTokens :
  is_finite maxTokens = true -> all_finite (groq_body prompt system maxTokens).
Proof.
  intros H. unfold groq_body. split; [done|].
  split; [by destruct (number_truthy maxTokens)|].
  split; [|done]. by destruct system.
Qed.

Section chain.
Variable number_to_string : number -> list N.
Variable api_key : option (list N).

Lemma outgoing_of_ask (prompt system : list N) (maxTokens : number) :
  well_formed (JNum maxTokens) -> is_finite maxTokens = true ->
  GroqProxy.outgoing number_to_string api_key (ask_request prompt system maxTokens)
    = Return (GroqProxy.forwarded api_key (groq_body prompt system maxTokens)) /\
  JSON_parse (req_body (GroqProxy.forwarded api_key (groq_body prompt system maxTokens)))
    = Some (groq_body prompt system maxTokens).
Proof.
  intros Hwf Hfin. split.
  - unfold GroqProxy.outgoing.
    change (req_body (ask_request prompt system maxTokens))
      with (stringify (Api.request_body (JArr [user_message prompt]) system maxTokens None)).
    rewrite parse_stringify by (by apply request_body_well_formed).
    rewrite bind_Return, groqBody_of_request, bind_Return.
    do 2 f_equal. unfold groq_body, literal, or_else. simpl omap.
    destruct maxTokens as [m e|]; [|done]. simpl nullify.
    change (Json.truthy (JNum (Finite m e))) with (number_truthy (Finite m e)).
    by destruct (number_truthy (Finite m e)).
  - simpl req_body. apply JSON_parse_stringify;
      [by apply groq_body_well_formed|by apply groq_body_finite].
Qed.

(** X16. The proxy to the Groq API hands the request of [ask] on with the
    prompt and the system text unchanged: the body it sends is JSON for an
    object with the Groq model, the token limit of [ask] (1500 when that is
    zero), the temperature 0.7 and the messages: the system text as a system
    message unless it is empty, then the prompt as the one user message. *)
Theorem groq_request_carries_the_prompt (prompt system : list N) (maxTokens : number) :
  well_formed (JNum maxTokens) -> is_finite maxTokens = true ->
  GroqProxy.outgoing number_to_string api_key (ask_request prompt system maxTokens)
    = Return (GroqProxy.forwarded api_key (groq_body prompt system maxTokens)) /\
  JSON_parse (req_body (GroqProxy.forwarded api_key (groq_body prompt system maxTokens)))
    = Some (groq_body prompt system maxTokens).
Proof. apply outgoing_of_ask. Qed.


End chain.

End GroqRequest.

Module ApiErrors.
Import JsString Json Parser JsonSpec ReparseSpec ValueSpec Chain Analyze NumberFacts
  JsonFacts Reparse Js Http ProxyFacts EndToEnd GroqRequest Sanitizer SanitizerSpec
  SanitizerFacts App SessionSpec Session Scenario Workflow.
Local Open Scope N_scope.

#[local] Arguments stringify : simpl never.

Section chain.
Variable number_to_string : number -> list N.
Variable builtin_message : Exn -> list N.
Variable api_key : option (list N).
Variable upstream : Request -> Fetched.

(** X17. Either proxy answers a POST with a body that is JSON, whatever the
    request holds and whatever the API does (an error of its own included);
    a request with another method is answered 405 with a plain text,
    without a request to the API. *)
Theorem proxies_answer_in_json (req : Request) :
  (req_method req = lit "POST" ->
   is_Some (JSON_parse (resp_body
      (AnthropicProxy.handler builtin_message api_key upstream req))) /\
   is_Some (JSON_parse (resp_body
      (GroqProxy.handler number_to_string builtin_message api_key upstream req)))) /\
  (req_method req <> lit "POST" ->
   forall other : Request -> Fetched,
   AnthropicProxy.handler builtin_message api_key other req
     = {| status := 405; resp_headers := []; resp_body := lit "Method not allowed" |} /\
   GroqProxy.handler number_to_string builtin_message api_key other req
     = {| status := 405; resp_headers := []; resp_body := lit "Method not allowed" |}).
Proof.
  split.
  - intros Hm. split.
    + by apply AnthropicFacts.anthropic_handler_answers_json.
    + by apply GroqFacts.groq_handler_answers_json.
  - intros Hm other. unfold AnthropicProxy.handler, GroqProxy.handler.
    by rewrite bool_decide_eq_false_2.
Qed.



End chain.

End ApiErrors.

Module ProfileRequest.
Import JsString Json Parser JsonSpec ReparseSpec ValueSpec Chain Analyze NumberFacts
  JsonFacts Reparse Js Http ProxyFacts EndToEnd GroqRequest Sanitizer SanitizerSpec
  SanitizerFacts App SessionSpec Session Scenario Workflow.


Section chain.
Variable number_to_string : number -> list N.
Variable api_key : option (list N).


End chain.


End ProfileRequest.

Module ChainWitnesses.
Import JsString Json Parser JsonSpec ReparseSpec ValueSpec Chain Analyze NumberFacts
  JsonFacts Reparse Js Http ProxyFacts EndToEnd GroqRequest Sanitizer SanitizerSpec
  SanitizerFacts App SessionSpec Session Scenario Workflow ChainScenario.
Local Open Scope N_scope.

Ltac canonical_literal n :=
  apply (number_of_decimal_canonical false n 0); vm_compute; reflexivity.

Lemma anthropic_proxy_passes_values_through_witness :
  status (AnthropicProxy.handler plain_message (Some (lit "key"))
            (fun _ => Answer anthropic_refusal) (post (jlit "{'max_tokens':800}"))) = 401.
Proof.
  destruct (AnthropicFacts.anthropic_proxy_passes_values_through plain_message
              (Some (lit "key")) (fun _ => Answer anthropic_refusal)
              (post (jlit "{'max_tokens':800}"))
              (JObj [(lit "max_tokens", integer 800)]) anthropic_refusal
              (JObj [(lit "type", JStr (lit "error"));
                     (lit "error", JObj [(lit "type", JStr (lit "authentication_error"))])]))
    as (_ & H & _).
  - reflexivity.
  - vm_compute. reflexivity.
  - reflexivity.
  - vm_compute. reflexivity.
  - vm_compute. split; discriminate.
  - reflexivity.
  - exact H.
Defined.

Lemma proxies_answer_in_json_witness :
  is_Some (JSON_parse (resp_body
    (GroqProxy.handler number_text plain_message None (fun _ => Failed (lit "fetch failed"))
       (post (jlit "{'messages':7}"))))).
Proof.
  apply (ApiErrors.proxies_answer_in_json number_text plain_message None
           (fun _ => Failed (lit "fetch failed")) (post (jlit "{'messages':7}"))).
  reflexivity.
Defined.

Lemma groq_text_reaches_ask_witness :
  Api.ask number_text
    (through_groq number_text plain_message (Some (lit "key")) (fun _ => Answer groq_answer))
    (lit "Say hello") (lit "Be brief.") profile_tokens
  = Return (lit "Hello").
Proof.
  eapply (groq_text_reaches_ask number_text plain_message (Some (lit "key"))
            (fun _ => Answer groq_answer) _ _ _ groq_answer).
  - canonical_literal 800.
  - reflexivity.
  - reflexivity.
  - vm_compute. reflexivity.
  - vm_compute. reflexivity.
Defined.

Lemma groq_request_carries_the_prompt_witness :
  GroqProxy.outgoing number_text (Some (lit "key"))
    (ask_request (lit "Say hello") [] profile_tokens)
  = Return (GroqProxy.forwarded (Some (lit "key"))
              (groq_body (lit "Say hello") [] profile_tokens)).
Proof.
  apply (groq_request_carries_the_prompt number_text (Some (lit "key"))).
  - canonical_literal 800.
  - reflexivity.
Defined.




End ChainWitnesses.

(** ** The reader of PDF files and the text of an answer *)

Module ReaderFacts.
Import JsString Json Parser Sanitizer App SessionSpec Session Scenario Workflow
  WrappedSpec Wrapped Readers.






End ReaderFacts.

Module AnswerFacts.
Import JsString Json Js Http Readers AnswerSpec ProxyFacts.
Local Open Scope N_scope.

Section client.
Variable number_to_string : number -> list N.

Lemma join_strings (strs : list (list N)) :
  join number_to_string [10] ((fun s => Some (JStr s)) <$> strs) = Return (join_text [10] strs).
Proof.
  induction strs as [|s strs IH]; [done|].
  destruct strs as [|s' strs]; [done|].
  change (join number_to_string [10] ((fun s => Some (JStr s)) <$> s :: s' :: strs))
    with (r ← join number_to_string [10] ((fun s => Some (JStr s)) <$> s' :: strs);
          Return (s ++ [10] ++ r)).
  by rewrite IH.
Qed.

Lemma mapM_cons {A B} (f : A -> result B) x l :
  mapM f (x :: l) = (y ← f x; k ← mapM f l; Return (y :: k)).
Proof. reflexivity. Qed.

Lemma text_blocks_cons b bs :
  text_blocks (b :: bs) =
  (t ← get (lit "type") (Some b);
   rest ← text_blocks bs;
   Return match t with
          | Some (JStr w) => if decide (w = lit "text") then b :: rest else rest
          | _ => rest
          end).
Proof. reflexivity. Qed.

Lemma omap_cons {A B} (f : A -> option B) x l :
  omap f (x :: l) = match f x with Some y => y :: omap f l | None => omap f l end.
Proof. reflexivity. Qed.

Lemma blocks_text_of_blocks (bs : list json) :
  Forall is_block bs ->
  blocks_text number_to_string bs = Return (join_text [10] (omap block_text bs)).
Proof.
  intros Hbs. unfold blocks_text.
  assert (exists kept, text_blocks bs = Return kept /\
            mapM (fun b => get (lit "text") (Some b)) kept
            = Return ((fun s => Some (JStr s)) <$> omap block_text bs)) as (kept & -> & Hk).
  { induction Hbs as [|b bs (o & w & -> & Hw & Ht) _ (kept & IH1 & IH2)].
    - by exists [].
    - rewrite text_blocks_cons.
      change (get (lit "type") (Some (JObj o))) with (Return (get_member (lit "type") o)).
      rewrite bind_Return, Hw, IH1, bind_Return.
      destruct (decide (w = lit "text")) as [E|E].
      + destruct (Ht E) as [s Hs].
        assert (block_text (JObj o) = Some s) as Hb.
        { unfold block_text, field. rewrite Hw, Hs. by rewrite decide_True. }
        eexists. split; [done|]. rewrite mapM_cons.
        change (get (lit "text") (Some (JObj o))) with (Return (get_member (lit "text") o)).
        rewrite bind_Return, Hs, IH2, bind_Return.
        rewrite omap_cons, Hb. done.
      + assert (block_text (JObj o) = None) as Hb.
        { unfold block_text, field. rewrite Hw.
          destruct (get_member (lit "text") o) as [[]|]; try done.
          by rewrite decide_False. }
        exists kept. split; [done|]. by rewrite omap_cons, Hb. }
  rewrite bind_Return, Hk, bind_Return. apply join_strings.
Qed.

(** X22. [ask] returns the text of the answer: when [content] (or the
    empty list, if the answer has no [content] or a falsy one) is a list of
    content blocks, the texts of the blocks of type [text], in their order,
    joined by line feeds; blocks of any other type are left out, and a list
    without text block gives the empty text. *)
Theorem ask_returns_the_text_blocks (o : list (list N * json)) (bs : list json) :
  or_else (get_member (lit "content") o) (Some (JArr [])) = Some (JArr bs) ->
  Forall is_block bs ->
  Api.answer_text number_to_string (JObj o) = Return (join_text [10] (omap block_text bs)).
Proof.
  intros Hc Hb. unfold Api.answer_text.
  change (get (lit "content") (Some (JObj o))) with (Return (get_member (lit "content") o)).
  rewrite bind_Return, Hc. by apply blocks_text_of_blocks.
Qed.

End client.

Lemma ask_returns_the_text_blocks_witness :
  Api.answer_text number_text
    (JObj [(lit "content",
            JArr [JObj [(lit "type", JStr (lit "text")); (lit "text", JStr (lit "Dear"))];
                  JObj [(lit "type", JStr (lit "tool_use"))];
                  JObj [(lit "type", JStr (lit "text")); (lit "text", JStr (lit "Sir"))]])])
  = Return (lit "Dear" ++ [10] ++ lit "Sir").
Proof.
  apply (ask_returns_the_text_blocks number_text _
           [JObj [(lit "type", JStr (lit "text")); (lit "text", JStr (lit "Dear"))];
            JObj [(lit "type", JStr (lit "tool_use"))];
            JObj [(lit "type", JStr (lit "text")); (lit "text", JStr (lit "Sir"))]]).
  - reflexivity.
  - repeat constructor.
    + eexists _, _. split; [reflexivity|]. split; [reflexivity|]. intros _. by eexists.
    + eexists _, _. split; [reflexivity|]. split; [reflexivity|]. intros E. discriminate E.
    + eexists _, _. split; [reflexivity|]. split; [reflexivity|]. intros _. by eexists.
Defined.

End AnswerFacts.

